(** * Loadflow: Newton-Raphson power flow, admittance matrix and data model

    A shallow embedding of [powerflow/elements], [powerflow/network],
    [powerflow/math/ybus.py], [powerflow/solver/newton_raphson.py] and
    the branch flows of [powerflow/visualization/plots.py].

    Conventions of the embedding.
    - Python [float] and numpy [float64] values are real numbers ([R]);
      arithmetic is exact.  numpy division never raises; where numpy would
      produce a non-finite value (division by a zero tap) the embedding
      has the total division of [R].
    - Python [complex] and numpy [complex128] values are pairs of reals.
    - Python [int] values are [Z]; list and array subscripts follow
      Python: [k] in [-n, n) is accepted, a negative [k] counts from the
      end, anything else raises [IndexError].
    - A raised exception is the [Raise] outcome of [res]; the solver runs
      in a state-and-exception monad [M] over the Python store.
    - Of the report, the computed numbers are embedded: the lines that
      [print_branch_flows_table] prints and the array that
      [plot_branch_flows] hands to the bar chart; the drawing itself is
      not. *)

From Stdlib Require Import Reals Lra ZArith Lia.
From stdpp Require Import base option list gmap sets sorting.

Local Open Scope R_scope.
#[local] Set Warnings "-clear-no-such-hyp".

(** ** Exceptions and outcomes *)

Inductive exn : Type :=
  | ZeroDivisionError
  | IndexError
  | StopIteration
  | ValueError
  | AssertionError
  | LinAlgError
  | UnboundLocalError.

Inductive res (A : Type) : Type :=
  | Raise (e : exn)
  | Ok (a : A).
Arguments Raise {A} e.
Arguments Ok {A} a.

#[global] Instance res_ret : MRet res := fun A a => Ok a.
#[global] Instance res_bind : MBind res := fun A B f m =>
  match m with
  | Raise e => Raise e
  | Ok a => f a
  end.
#[global] Instance res_fmap : FMap res := fun A B f m =>
  match m with
  | Raise e => Raise e
  | Ok a => Ok (f a)
  end.

(** [for x in l: a = f(a, x)] with an exception leaving the loop. *)
Fixpoint foldM {A B} (f : A -> B -> res A) (a : A) (l : list B) : res A :=
  match l with
  | [] => Ok a
  | x :: l' => a' ← f a x; foldM f a' l'
  end.

(** [[f(x) for x in l]], left to right. *)
Fixpoint mapR {A B} (f : A -> res B) (l : list A) : res (list B) :=
  match l with
  | [] => Ok []
  | x :: l' => y ← f x; ys ← mapR f l'; Ok (y :: ys)
  end.

(** ** Real comparisons as booleans *)

Definition Reqb (a b : R) : bool := if Req_dec_T a b then true else false.
Definition Rltb (a b : R) : bool := if Rlt_dec a b then true else false.
Definition Rleb (a b : R) : bool := if Rle_dec a b then true else false.

(** ** Python subscripts *)

Definition py_pos (n : nat) (k : Z) : option nat :=
  if (0 <=? k)%Z && (k <? Z.of_nat n)%Z then Some (Z.to_nat k)
  else if (- Z.of_nat n <=? k)%Z && (k <? 0)%Z then Some (Z.to_nat (Z.of_nat n + k))
  else None.

(** [l[k]] *)
Definition getitem {A} (l : list A) (k : Z) : res A :=
  match py_pos (length l) k with
  | Some p => match l !! p with Some a => Ok a | None => Raise IndexError end
  | None => Raise IndexError
  end.

(** [l[k] = a] *)
Definition setitem {A} (l : list A) (k : Z) (a : A) : res (list A) :=
  match py_pos (length l) k with
  | Some p => Ok (<[p := a]> l)
  | None => Raise IndexError
  end.

(** [l.index(k)] for a list of integers *)
Fixpoint list_index (l : list Z) (k : Z) : res nat :=
  match l with
  | [] => Raise ValueError
  | m :: l' => if (m =? k)%Z then Ok O else S <$> list_index l' k
  end.

(** ** Complex numbers *)

Definition C : Type := (R * R)%type.

Definition RtoC (a : R) : C := (a, 0).
Definition C0 : C := (0, 0).
Definition C1 : C := (1, 0).
Definition Cj : C := (0, 1).
Definition Cre (z : C) : R := fst z.
Definition Cim (z : C) : R := snd z.
Definition Cadd (a b : C) : C := (fst a + fst b, snd a + snd b).
Definition Copp (a : C) : C := (- fst a, - snd a).
Definition Cmul (a b : C) : C :=
  (fst a * fst b - snd a * snd b, fst a * snd b + snd a * fst b).
Definition Cconj (a : C) : C := (fst a, - snd a).
Definition Cabs (a : C) : R := sqrt (fst a * fst a + snd a * snd a).
Definition Cexp (a : C) : C := (exp (fst a) * cos (snd a), exp (fst a) * sin (snd a)).

(** The quotient of two complex numbers; this is what numpy computes
    (no exception is raised, whatever the divisor). *)
Definition Cquot (a b : C) : C :=
  let d := fst b * fst b + snd b * snd b in
  ((fst a * fst b + snd a * snd b) / d, (snd a * fst b - fst a * snd b) / d).

(** Division of Python [complex] values: a zero divisor raises. *)
Definition py_cdiv (a b : C) : res C :=
  if Reqb (fst b) 0 && Reqb (snd b) 0 then Raise ZeroDivisionError
  else Ok (Cquot a b).

Definition deg2rad (d : R) : R := d * (PI / 180).

(** ** Elements: [powerflow/elements] *)

Inductive BusType : Type := SLACK | PV | PQ.

#[global] Instance BusType_eq_dec : EqDecision BusType.
Proof. solve_decision. Defined.

Record Bus : Type := mkBus {
  bus_idx : Z;
  bus_type : BusType;
  bus_V : R;
  bus_theta_deg : R;
  bus_P : R;
  bus_Q : R;
  bus_Qmin : option R;
  bus_Qmax : option R
}.

Record Branch : Type := mkBranch {
  br_i : Z;
  br_j : Z;
  br_r : R;
  br_x : R;
  br_b : R;
  br_tap : R;
  br_shift_deg : R
}.

Record Shunt : Type := mkShunt {
  sh_k : Z;
  sh_g : R;
  sh_b : R
}.

(** [assert c, msg] *)
Definition py_assert (c : bool) : res unit :=
  if c then Ok tt else Raise AssertionError.

(** [Branch.__init__]: the five assertions, in source order. *)
Definition Branch_init (i j : Z) (r x b tap shift_deg : R) : res Branch :=
  _ ← py_assert ((0 <=? i)%Z && (0 <=? j)%Z && negb (i =? j)%Z);
  _ ← py_assert (Rleb 0 r && Rleb 0 x);
  _ ← py_assert (Rleb 0 b);
  _ ← py_assert (Rleb 0 tap);
  _ ← py_assert (Rleb 0 shift_deg && Rleb shift_deg 360);
  Ok (mkBranch i j r x b tap shift_deg).

(** [Shunt.__init__]: [g] and [b] are numbers by typing. *)
Definition Shunt_init (k : Z) (g b : R) : res Shunt :=
  _ ← py_assert (0 <=? k)%Z;
  Ok (mkShunt k g b).

(** ** Network: [powerflow/network/network.py] *)

Record Network : Type := mkNetwork {
  buses : list Bus;
  branches : list Branch;
  shunts : list Shunt;
  base_mva : R
}.

Definition nbus (net : Network) : nat := length (buses net).

(** [next(b.idx for b in self.buses if b.type == BusType.SLACK)] *)
Fixpoint first_slack (bs : list Bus) : res Z :=
  match bs with
  | [] => Raise StopIteration
  | b :: bs' =>
      if decide (bus_type b = SLACK) then Ok (bus_idx b) else first_slack bs'
  end.

Definition slack_index (net : Network) : res Z := first_slack (buses net).

Definition idx_of_type (t : BusType) (bs : list Bus) : list Z :=
  bus_idx <$> filter (fun b => bus_type b = t) bs.

Definition pv_indices (net : Network) : list Z := idx_of_type PV (buses net).
Definition pq_indices (net : Network) : list Z := idx_of_type PQ (buses net).

(** ** Admittance matrix: [powerflow/math/ybus.py] *)

Abbreviation matrix := (list (list C)).

Definition zeros (n : nat) : matrix := replicate n (replicate n C0).

(** [Y[i, j]] *)
Definition mat_get {A} (Y : list (list A)) (i j : Z) : res A :=
  row ← getitem Y i; getitem row j.

(** [Y[i, j] += v] *)
Definition mat_iadd (Y : matrix) (i j : Z) (v : C) : res matrix :=
  row ← getitem Y i;
  old ← getitem row j;
  row' ← setitem row j (Cadd old v);
  setitem Y i row'.

(** The complex tap [br.tap * np.exp(1j * np.deg2rad(br.shift_deg))]. *)
Definition tap_ratio (br : Branch) : C :=
  Cmul (RtoC (br_tap br)) (Cexp (Cmul Cj (RtoC (deg2rad (br_shift_deg br))))).

(** The charging admittance [1j * br.b / 2.0]; the divisor is a literal. *)
Definition line_charging (br : Branch) : C :=
  Cquot (Cmul Cj (RtoC (br_b br))) (RtoC 2).

(** One pass of the loop over [network.branches]. *)
Definition add_branch (Y : matrix) (br : Branch) : res matrix :=
  let z := (br_r br, br_x br) in
  y ← py_cdiv C1 z;
  let ysh := line_charging br in
  let t := tap_ratio br in
  let i := br_i br in
  let j := br_j br in
  Y1 ← mat_iadd Y i i (Cquot (Cadd y ysh) (RtoC (Cabs t ^ 2)));
  Y2 ← mat_iadd Y1 j j (Cadd y ysh);
  Y3 ← mat_iadd Y2 i j (Cquot (Copp y) (Cconj t));
  mat_iadd Y3 j i (Cquot (Copp y) t).

(** One pass of the loop over [network.shunts]. *)
Definition add_shunt (Y : matrix) (sh : Shunt) : res matrix :=
  mat_iadd Y (sh_k sh) (sh_k sh) (sh_g sh, sh_b sh).

Definition build_ybus (net : Network) : res matrix :=
  Y ← foldM add_branch (zeros (nbus net)) (branches net);
  foldM add_shunt Y (shunts net).

(** ** Solver: [powerflow/solver/newton_raphson.py] *)

Record LoadFlowResult : Type := mkResult {
  r_Vm : list R;
  r_Va : list R;
  r_P : list R;
  r_Q : list R;
  iterations : Z;
  converged : bool
}.

Record LoadFlow : Type := mkLoadFlow {
  tol : R;
  max_iter : Z;
  verbose : bool
}.

(** [LoadFlow.__init__] stores its three arguments. *)
Definition LoadFlow_init (tol : R) (max_iter : Z) (verbose : bool) : res LoadFlow :=
  Ok (mkLoadFlow tol max_iter verbose).

(** *** The store of a call

    The argument object [network] and the locals of [solve] that are
    rebound or updated in place after their first assignment. *)

Record store : Type := mkStore {
  network : Network;
  Vm : list R;
  Va : list R;
  Q_spec : list R;
  PV_active : gset Z;
  PV_conv : gset Z
}.

Definition M (A : Type) : Type := store -> res A * store.

#[global] Instance M_ret : MRet M := fun A a s => (Ok a, s).
#[global] Instance M_bind : MBind M := fun A B f m s =>
  match m s with
  | (Raise e, s') => (Raise e, s')
  | (Ok a, s') => f a s'
  end.

Definition lift {A} (r : res A) : M A := fun s => (r, s).
Definition gets {A} (f : store -> A) : M A := fun s => (Ok (f s), s).
Definition put_Vm (v : list R) : M unit := fun s =>
  (Ok tt, mkStore (network s) v (Va s) (Q_spec s) (PV_active s) (PV_conv s)).
Definition put_Va (v : list R) : M unit := fun s =>
  (Ok tt, mkStore (network s) (Vm s) v (Q_spec s) (PV_active s) (PV_conv s)).
Definition put_Q_spec (v : list R) : M unit := fun s =>
  (Ok tt, mkStore (network s) (Vm s) (Va s) v (PV_active s) (PV_conv s)).
Definition put_PV_active (X : gset Z) : M unit := fun s =>
  (Ok tt, mkStore (network s) (Vm s) (Va s) (Q_spec s) X (PV_conv s)).
Definition put_PV_conv (X : gset Z) : M unit := fun s =>
  (Ok tt, mkStore (network s) (Vm s) (Va s) (Q_spec s) (PV_active s) X).

(** [for x in l: body(x)] *)
Fixpoint forM_ {A} (l : list A) (body : A -> M unit) : M unit :=
  match l with
  | [] => mret tt
  | x :: l' => _ ← body x; forM_ l' body
  end.

(** The locals of [solve] that are bound once, before the loop. *)
Record env : Type := mkEnv {
  e_Y : matrix;
  e_G : list (list R);
  e_B : list (list R);
  e_n : nat;
  e_slack : Z;
  e_pq : list Z;
  e_P_spec : list R
}.

(** Lines 66 to 82. *)
Definition setup : M env :=
  net ← gets network;
  Y ← lift (build_ybus net);
  slack ← lift (slack_index net);
  _ ← put_Vm (bus_V <$> buses net);
  _ ← put_Va ((fun b => deg2rad (bus_theta_deg b)) <$> buses net);
  _ ← put_Q_spec ((fun b => if decide (bus_type b = PQ) then bus_Q b else 0) <$> buses net);
  _ ← put_PV_active (list_to_set (pv_indices net));
  _ ← put_PV_conv ∅;
  mret (mkEnv Y (map (map Cre) Y) (map (map Cim) Y) (nbus net) slack
          (pq_indices net) (bus_P <$> buses net)).

(** *** Injected powers (lines 85 to 89) *)

Definition Csum (l : list C) : C := foldr Cadd C0 l.

Definition phasors (vm va : list R) : list C :=
  zip_with (fun m a => Cmul (RtoC m) (Cexp (Cmul Cj (RtoC a)))) vm va.

Definition matvec (Y : matrix) (v : list C) : list C :=
  (fun row => Csum (zip_with Cmul row v)) <$> Y.

Definition injections (Y : matrix) (vm va : list R) : list R * list R :=
  let v := phasors vm va in
  let i := matvec Y v in
  let s := zip_with (fun a b => Cmul a (Cconj b)) v i in
  (Cre <$> s, Cim <$> s).

(** *** Reactive limits (lines 92 to 109) *)

(** [lim is not None and test(Q[k], lim)]; [Q[k]] is read only when the
    limit is defined. *)
Definition limit_check (lim : option R) (test : R -> R -> bool)
    (Q : list R) (k : Z) : res (option R) :=
  match lim with
  | None => Ok None
  | Some l => Qk ← getitem Q k; Ok (if test Qk l then Some l else None)
  end.

(** The limit that [Q[k]] violates at bus [b], the lower one first. *)
Definition violated_limit (b : Bus) (Q : list R) (k : Z) : res (option R) :=
  lo ← limit_check (bus_Qmin b) Rltb Q k;
  match lo with
  | Some l => Ok (Some l)
  | None => limit_check (bus_Qmax b) (fun q l => Rltb l q) Q k
  end.

(** The body shared by the two branches of the conditional. *)
Definition convert (k : Z) (lim : R) (b : Bus) : M unit :=
  act ← gets PV_active;
  _ ← put_PV_active (act ∖ {[k]});
  conv ← gets PV_conv;
  _ ← put_PV_conv (conv ∪ {[k]});
  qs ← gets Q_spec;
  qs' ← lift (setitem qs k lim);
  _ ← put_Q_spec qs';
  lift (py_assert (bool_decide (bus_type b = PV))).

Definition enforce_one (Q : list R) (k : Z) : M unit :=
  net ← gets network;
  b ← lift (getitem (buses net) k);
  v ← lift (violated_limit b Q k);
  match v with
  | Some lim => convert k lim b
  | None => mret tt
  end.

(** [for k in list(PV_active): ...] over a snapshot of the set.  Python
    fixes no order for the elements of a set; the passes are taken in
    the order of [elements].  Each [k] of the snapshot is still in
    [PV_active] when its pass runs, so [PV_active.remove(k)] finds it. *)
Definition enforce_limits (Q : list R) : M unit :=
  ks ← gets (fun s => elements (PV_active s));
  forM_ ks (enforce_one Q).

(** *** Unknowns and mismatch (lines 111 to 116) *)

Definition p_rows (n : nat) (slack : Z) : list Z :=
  filter (fun k => k ≠ slack) (seqZ 0 (Z.of_nat n)).

Definition q_rows (pq : list Z) (conv : gset Z) : list Z :=
  merge_sort Z.le (elements (list_to_set pq ∪ conv)).

(** [v[rows]] with a list of subscripts. *)
Definition np_take (v : list R) (rows : list Z) : res (list R) :=
  mapR (getitem v) rows.

Definition mismatch_vector (P_spec Q_spec P Q : list R)
    (pr qr : list Z) : res (list R) :=
  a ← np_take P_spec pr;
  b ← np_take P pr;
  c ← np_take Q_spec qr;
  d ← np_take Q qr;
  Ok (zip_with Rminus a b ++ zip_with Rminus c d).

(** [np.max(...)]: an empty array raises. *)
Definition np_max (l : list R) : res R :=
  match l with
  | [] => Raise ValueError
  | x :: l' => Ok (foldl Rmax x l')
  end.

Definition max_abs (m : list R) : res R := np_max (Rabs <$> m).

(** The values an iteration has computed when it reaches its test. *)
Record assessment : Type := mkAssessment {
  a_P : list R;
  a_Q : list R;
  a_p_rows : list Z;
  a_q_rows : list Z;
  a_mismatch : list R
}.

(** Lines 85 to 116. *)
Definition assess (e : env) : M assessment :=
  vm ← gets Vm;
  va ← gets Va;
  let pw := injections (e_Y e) vm va in
  _ ← enforce_limits (snd pw);
  conv ← gets PV_conv;
  let pr := p_rows (e_n e) (e_slack e) in
  let qr := q_rows (e_pq e) conv in
  qs ← gets Q_spec;
  mm ← lift (mismatch_vector (e_P_spec e) qs (fst pw) (snd pw) pr qr);
  mret (mkAssessment (fst pw) (snd pw) pr qr mm).

(** *** Jacobian (lines 133 to 179) *)

(** The floor of the divisions by a voltage magnitude. *)
Definition Vfloor : R := 1e-12.

(** The values read by the four blocks. *)
Record jac_input : Type := mkJacInput {
  j_G : list (list R);
  j_B : list (list R);
  j_Vm : list R;
  j_Va : list R;
  j_P : list R;
  j_Q : list R
}.

(** [c[k, m]] and [s[k, m]] of [dth = Va_col - Va_col.T]. *)
Definition dth (x : jac_input) (k m : Z) : res R :=
  a ← getitem (j_Va x) k;
  b ← getitem (j_Va x) m;
  Ok (a - b).

Definition H_entry (x : jac_input) (k m : Z) : res R :=
  Vk ← getitem (j_Vm x) k;
  if (m =? k)%Z then
    Qk ← getitem (j_Q x) k;
    Bkk ← mat_get (j_B x) k k;
    Ok (- Qk - Vk ^ 2 * Bkk)
  else
    Vmm ← getitem (j_Vm x) m;
    Gkm ← mat_get (j_G x) k m;
    Bkm ← mat_get (j_B x) k m;
    d ← dth x k m;
    Ok (Vk * Vmm * (Gkm * sin d - Bkm * cos d)).

Definition N_entry (x : jac_input) (k m : Z) : res R :=
  Vk ← getitem (j_Vm x) k;
  if (m =? k)%Z then
    Pk ← getitem (j_P x) k;
    Gkk ← mat_get (j_G x) k k;
    Ok (Pk / Rmax Vk Vfloor + Vk * Gkk)
  else
    Gkm ← mat_get (j_G x) k m;
    Bkm ← mat_get (j_B x) k m;
    d ← dth x k m;
    Ok (Vk * (Gkm * cos d + Bkm * sin d)).

Definition M_entry (x : jac_input) (k m : Z) : res R :=
  Vk ← getitem (j_Vm x) k;
  if (m =? k)%Z then
    Pk ← getitem (j_P x) k;
    Gkk ← mat_get (j_G x) k k;
    Ok (Pk - Vk ^ 2 * Gkk)
  else
    Vmm ← getitem (j_Vm x) m;
    Gkm ← mat_get (j_G x) k m;
    Bkm ← mat_get (j_B x) k m;
    d ← dth x k m;
    Ok (- Vk * Vmm * (Gkm * cos d + Bkm * sin d)).

Definition L_entry (x : jac_input) (k m : Z) : res R :=
  Vk ← getitem (j_Vm x) k;
  if (m =? k)%Z then
    Qk ← getitem (j_Q x) k;
    Bkk ← mat_get (j_B x) k k;
    Ok (Qk / Rmax Vk Vfloor - Vk * Bkk)
  else
    Gkm ← mat_get (j_G x) k m;
    Bkm ← mat_get (j_B x) k m;
    d ← dth x k m;
    Ok (Vk * (Gkm * sin d - Bkm * cos d)).

(** A row of [[H, N]]: every column of the row is assigned, the one of
    [k] itself with the diagonal formula. *)
Definition HN_row (x : jac_input) (theta_cols V_cols : list Z) (k : Z) : res (list R) :=
  _ ← list_index theta_cols k;
  h ← mapR (H_entry x k) theta_cols;
  n ← mapR (N_entry x k) V_cols;
  Ok (h ++ n).

(** A row of [[M, L]]; [theta_cols.index(k)] raises when [k] is not an
    angle unknown. *)
Definition ML_row (x : jac_input) (theta_cols V_cols : list Z) (k : Z) : res (list R) :=
  _ ← list_index theta_cols k;
  m ← mapR (M_entry x k) theta_cols;
  _ ← list_index V_cols k;
  l ← mapR (L_entry x k) V_cols;
  Ok (m ++ l).

Definition jacobian (x : jac_input) (pr qr : list Z) : res (list (list R)) :=
  top ← mapR (HN_row x pr qr) pr;
  bottom ← mapR (ML_row x pr qr) qr;
  Ok (top ++ bottom).

(** *** The dense linear solve (line 180)

    [np.linalg.solve] in exact arithmetic: elimination on the rows
    extended with the right-hand side; a column without a non-zero pivot
    is a singular matrix. *)

Fixpoint find_pivot (rows : list (list R)) : option (list R * list (list R)) :=
  match rows with
  | [] => None
  | r :: rs =>
      match r with
      | [] => None
      | a :: _ =>
          if Reqb a 0 then
            match find_pivot rs with
            | Some (p, rest) => Some (p, r :: rest)
            | None => None
            end
          else Some (r, rs)
      end
  end.

Definition eliminate (p r : list R) : list R :=
  match p, r with
  | a :: p', c :: r' => zip_with (fun u v => v - c / a * u) p' r'
  | _, _ => []
  end.

Definition dot (u v : list R) : R := foldr Rplus 0 (zip_with Rmult u v).

Fixpoint gauss (fuel : nat) (rows : list (list R)) : option (list R) :=
  match fuel with
  | O => match rows with [] => Some [] | _ => None end
  | S fuel' =>
      match find_pivot rows with
      | None => None
      | Some (p, rest) =>
          match gauss fuel' (eliminate p <$> rest), p with
          | Some xs, a :: p' =>
              Some ((List.last p' 0 - dot (take (length xs) p') xs) / a :: xs)
          | _, _ => None
          end
      end
  end.

Definition linalg_solve (J : list (list R)) (b : list R) : res (list R) :=
  match gauss (length J) (zip_with (fun row bi => row ++ [bi]) J b) with
  | Some x => Ok x
  | None => Raise LinAlgError
  end.

(** *** Newton update (lines 180 to 187)

    [dx] has one entry per row of [J], so the slices [dx[:mP]] and
    [dx[mP:]] have the lengths of [theta_cols] and [V_cols]. *)

(** [v[cols] += d]: the right-hand side is read from [v] as it stands,
    then the entries are stored in order. *)
Definition fancy_iadd (v : list R) (cols : list Z) (d : list R) : res (list R) :=
  old ← np_take v cols;
  foldM (fun w kd => setitem w (fst kd) (snd kd)) v (zip cols (zip_with Rplus old d)).

(** [Vm[k] = network.buses[k].V] *)
Definition reimpose_one (k : Z) : M unit :=
  net ← gets network;
  b ← lift (getitem (buses net) k);
  vm ← gets Vm;
  vm' ← lift (setitem vm k (bus_V b));
  put_Vm vm'.

Definition newton_update (e : env) (a : assessment) : M unit :=
  vm ← gets Vm;
  va ← gets Va;
  let x := mkJacInput (e_G e) (e_B e) vm va (a_P a) (a_Q a) in
  J ← lift (jacobian x (a_p_rows a) (a_q_rows a));
  dx ← lift (linalg_solve J (a_mismatch a));
  let mP := length (a_p_rows a) in
  va' ← lift (fancy_iadd va (a_p_rows a) (take mP dx));
  _ ← put_Va va';
  vm' ← lift (fancy_iadd vm (a_q_rows a) (drop mP dx));
  _ ← put_Vm vm';
  act ← gets (fun s => elements (PV_active s));
  forM_ act reimpose_one.

(** *** The loop and [solve] *)

(** The body of the loop for iteration [it]: a result when the test of
    line 121 succeeds, the powers [P] and [Q] of this pass otherwise. *)
Definition iteration (cfg : LoadFlow) (e : env) (it : Z)
    : M (LoadFlowResult + list R * list R) :=
  a ← assess e;
  mx ← lift (max_abs (a_mismatch a));
  if Rltb mx (tol cfg) then
    vm ← gets Vm;
    va ← gets Va;
    mret (inl (mkResult vm va (a_P a) (a_Q a) it true))
  else
    _ ← newton_update e a;
    mret (inr (a_P a, a_Q a)).

(** [for it in range(self.max_iter)] followed by line 189; [last] holds
    [P] and [Q] once an iteration has bound them. *)
Fixpoint loop (cfg : LoadFlow) (e : env) (fuel : nat) (it : Z)
    (last : option (list R * list R)) : M LoadFlowResult :=
  match fuel with
  | O =>
      match last with
      | None => lift (Raise UnboundLocalError)
      | Some pw =>
          vm ← gets Vm;
          va ← gets Va;
          mret (mkResult vm va (fst pw) (snd pw) (max_iter cfg) false)
      end
  | S fuel' =>
      r ← iteration cfg e it;
      match r with
      | inl result => mret result
      | inr pw => loop cfg e fuel' (it + 1)%Z (Some pw)
      end
  end.

Definition solve (cfg : LoadFlow) : M LoadFlowResult :=
  e ← setup;
  loop cfg e (Z.to_nat (max_iter cfg)) 0%Z None.

(** The store at the call [solve(network)]: the argument, no local bound. *)
Definition frame (net : Network) : store := mkStore net [] [] [] ∅ ∅.

(** The outcome of [LoadFlow(...).solve(network)]. *)
Definition LoadFlow_solve (cfg : LoadFlow) (net : Network) : res LoadFlowResult :=
  fst (solve cfg (frame net)).

(** ** Report: [powerflow/visualization/plots.py] *)

Definition Csub (a b : C) : C := (fst a - fst b, snd a - snd b).

(** [PowerFlowReport.__init__] stores the network and the four arrays;
    [Va] is in degrees here. *)
Record PowerFlowReport : Type := mkReport {
  rep_net : Network;
  rep_Vm : list R;
  rep_Va : list R;
  rep_P : list R;
  rep_Q : list R
}.

(** [[Vm[k] * np.exp(1j * np.deg2rad(Va[k])) for k in range(len(Vm))]] *)
Definition report_phasors (rep : PowerFlowReport) : res (list C) :=
  mapR (fun k =>
          m ← getitem (rep_Vm rep) k;
          a ← getitem (rep_Va rep) k;
          Ok (Cmul (RtoC m) (Cexp (Cmul Cj (RtoC (deg2rad a))))))
       (seqZ 0 (Z.of_nat (length (rep_Vm rep)))).

(** The values that a line of the table of [print_branch_flows_table]
    shows, in the order of its columns. *)
Record flow_row : Type := mkRow {
  row_branch : Z;
  row_from : Z;
  row_from_type : BusType;
  row_to : Z;
  row_to_type : BusType;
  row_Vi : R;
  row_Vj : R;
  row_Pij : R;
  row_Qij : R;
  row_Pji : R;
  row_Qji : R;
  row_losses : R
}.

(** [br.tap if br.tap != 0 else 1.0] times the phase factor. *)
Definition report_tap (br : Branch) : C :=
  let tap := if Reqb (br_tap br) 0 then 1 else br_tap br in
  Cmul (RtoC tap) (Cexp (Cmul Cj (RtoC (deg2rad (br_shift_deg br))))).

(** The body of the loop for branch [br], number [k] of the enumeration:
    the flows, then the reads of the two bus types for the printed line.
    [br.r] and [br.x] are Python floats, so [1 / (br.r + 1j * br.x)] is a
    division of Python [complex] values, as in [build_ybus]. *)
Definition branch_row (rep : PowerFlowReport) (V : list C) (k : Z) (br : Branch)
    : res flow_row :=
  let i := br_i br in
  let j := br_j br in
  y_series ← py_cdiv C1 (br_r br, br_x br);
  let y_shunt := Cmul Cj (RtoC (br_b br / 2)) in
  let tap_c := report_tap br in
  Vi ← getitem V i;
  Vj ← getitem V j;
  let base := RtoC (base_mva (rep_net rep)) in
  let Iij := Cadd (Cmul (Csub (Cquot Vi tap_c) Vj) y_series)
                  (Cmul (Cquot Vi tap_c) y_shunt) in
  let Sij := Cmul (Cmul Vi (Cconj Iij)) base in
  let Iji := Cadd (Cmul (Csub Vj (Cquot Vi tap_c)) y_series) (Cmul Vj y_shunt) in
  let Sji := Cmul (Cmul Vj (Cconj Iji)) base in
  let losses := Cre Sij + Cre Sji in
  bi ← getitem (buses (rep_net rep)) i;
  bj ← getitem (buses (rep_net rep)) j;
  Ok (mkRow (k + 1) (i + 1) (bus_type bi) (j + 1) (bus_type bj)
        (Cre Vi) (Cre Vj) (Cre Sij) (Cim Sij) (Cre Sji) (Cim Sji) losses).

(** [for k, br in enumerate(self.net.branches)]: the lines printed so
    far and the running [total_losses]; an exception leaves the loop with
    the lines already printed. *)
Fixpoint flows_loop (rep : PowerFlowReport) (V : list C) (k : Z) (brs : list Branch)
    (out : list flow_row) (total : R) : res R * list flow_row :=
  match brs with
  | [] => (Ok total, out)
  | br :: brs' =>
      match branch_row rep V k br with
      | Raise e => (Raise e, out)
      | Ok row => flows_loop rep V (k + 1) brs' (out ++ [row]) (total + row_losses row)
      end
  end.

(** [print_branch_flows_table]: the total printed in the last line and
    the lines of the table; the heading and the rules are fixed text. *)
Definition print_branch_flows_table (rep : PowerFlowReport) : res R * list flow_row :=
  match report_phasors rep with
  | Raise e => (Raise e, [])
  | Ok V => flows_loop rep V 0 (branches (rep_net rep)) [] 0
  end.

(** One pass of the loop of [plot_branch_flows]: the row [S[k]] of the
    two active flows, in MW. *)
Definition plot_flow (rep : PowerFlowReport) (Y : matrix) (V : list C) (br : Branch)
    : res (R * R) :=
  let i := br_i br in
  let j := br_j br in
  Vi ← getitem V i;
  Vj ← getitem V j;
  Yij ← mat_get Y i j;
  if Reqb (Cre Yij) 0 && Reqb (Cim Yij) 0 then Ok (0, 0)
  else
    let Iij := Cmul (Copp Yij) Vj in
    let Sij := Cmul Vi (Cconj Iij) in
    Yji ← mat_get Y j i;
    let Iji := Cmul (Copp Yji) Vi in
    let Sji := Cmul Vj (Cconj Iji) in
    Ok (Cre Sij * base_mva (rep_net rep), Cre Sji * base_mva (rep_net rep)).

(** [plot_branch_flows]: the array [S]; the bar chart shows its first
    column. *)
Definition plot_branch_flows (rep : PowerFlowReport) : res (list (R * R)) :=
  Y ← build_ybus (rep_net rep);
  V ← report_phasors rep;
  mapR (plot_flow rep Y V) (branches (rep_net rep)).

(** ** Notions used by the statements *)

(** The untransformed pi-model of a branch, as the specification words
    it: [y + ySh] on both diagonal entries, [-y] on both off-diagonal
    ones, with [y = 1/(r + jx)] and [ySh = j*b/2]. *)
Definition add_branch_pi (Y : matrix) (br : Branch) : res matrix :=
  y ← py_cdiv C1 (br_r br, br_x br);
  let ysh : C := (0, br_b br / 2) in
  Y1 ← mat_iadd Y (br_i br) (br_i br) (Cadd y ysh);
  Y2 ← mat_iadd Y1 (br_j br) (br_j br) (Cadd y ysh);
  Y3 ← mat_iadd Y2 (br_i br) (br_j br) (Copp y);
  mat_iadd Y3 (br_j br) (br_i br) (Copp y).

(** A branch without transformer: unity tap, no phase shift. *)
Definition plain_line (br : Branch) : Prop :=
  br_tap br = 1 /\ br_shift_deg br = 0.

Definition zero_impedance (br : Branch) : Prop :=
  br_r br = 0 /\ br_x br = 0.

(** Both endpoints of the branch are subscripts of an array of size [n]. *)
Definition endpoints_in_range (n : nat) (br : Branch) : Prop :=
  is_Some (py_pos n (br_i br)) /\ is_Some (py_pos n (br_j br)).

(** [n] rows of [n] entries. *)
Definition square {A} (n : nat) (Y : list (list A)) : Prop :=
  length Y = n /\ Forall (fun row => length row = n) Y.

(** The entry at a position, when the position exists. *)
Definition entry {A} (Y : list (list A)) (p q : nat) : option A :=
  row ← Y !! p; row !! q.

Definition is_slack (b : Bus) : Prop := bus_type b = SLACK.

(** Equal entries at mirrored positions. *)
Definition mirror_equal {A} (Y : list (list A)) : Prop :=
  forall a b, entry Y a b = entry Y b a.

(** The entry [x] after [+= v] when [c] holds, unchanged otherwise. *)
Definition add_if (c : Prop) `{Decision c} (v : C) (x : option C) : option C :=
  if decide c then (fun old => Cadd old v) <$> x else x.

(** A network that is one zero-impedance line. *)
Definition net_short : Network :=
  mkNetwork [mkBus 0 SLACK 1 0 0 0 None None; mkBus 1 PQ 1 0 0 0 None None]
    [mkBranch 0 1 0 0 0 1 0] [] 100.

(** The computation leaves the argument object as it found it. *)
Definition keeps_network {A} (m : M A) : Prop :=
  forall s, network (snd (m s)) = network s.

(** [passes cfg e k it s last]: the store and the last powers after [k]
    consecutive passes of the loop body, the first of them iteration
    [it] started in store [s], when none of these passes raised and none
    returned (each one found a mismatch that was not below the tolerance
    and completed its linear solve and update). *)
Fixpoint passes (cfg : LoadFlow) (e : env) (k : nat) (it : Z) (s : store)
    (last : option (list R * list R)) : option (store * option (list R * list R)) :=
  match k with
  | O => Some (s, last)
  | S k' =>
      match iteration cfg e it s with
      | (Ok (inr pw), s') => passes cfg e k' (it + 1)%Z s' (Some pw)
      | _ => None
      end
  end.

(** The two sets partition the PV indices found at the start. *)
Definition PV_inv (pv0 : gset Z) (s : store) : Prop :=
  PV_active s ## PV_conv s /\ PV_active s ∪ PV_conv s = pv0.

(** From [s] to [s']: nothing joins [PV_active], nothing leaves [PV_conv]. *)
Definition PV_le (s s' : store) : Prop :=
  PV_active s' ⊆ PV_active s /\ PV_conv s ⊆ PV_conv s'.

(** The trigger of a conversion, for bus [b] with computed reactive power
    [q]: a lower limit is defined and [q] is below it, or an upper limit
    is defined and [q] is above it. *)
Definition trigger (b : Bus) (q : R) : Prop :=
  (exists l, bus_Qmin b = Some l /\ q < l) \/
  (exists l, bus_Qmax b = Some l /\ q > l).

(** [lim] is a limit of [b] that [q] violates. *)
Definition violated (b : Bus) (q lim : R) : Prop :=
  (bus_Qmin b = Some lim /\ q < lim) \/ (bus_Qmax b = Some lim /\ q > lim).

(** The steps of [solve] that write to the store after [setup]: the
    pass of the limit loop for one index [k] still in [PV_active], with
    the reactive powers of the current voltages, and the Newton update. *)
Inductive solve_step (e : env) : store -> store -> Prop :=
  | step_enforce (s : store) (k : Z) (r : res unit) (s' : store) :
      k ∈ PV_active s ->
      enforce_one (snd (injections (e_Y e) (Vm s) (Va s))) k s = (r, s') ->
      solve_step e s s'
  | step_update (s : store) (a : assessment) (r : res unit) (s' : store) :
      newton_update e a s = (r, s') ->
      solve_step e s s'.

(** *** Example data *)

(** A lossless line between buses 0 and 1, reactance 1. *)
Definition line01 : Branch := mkBranch 0 1 0 1 0 1 0.

(** Its admittance matrix. *)
Definition Y_line01 : matrix :=
  [[(0, -1); (0, 1)]; [(0, 1); (0, -1)]].

Definition slack_bus (i : Z) : Bus := mkBus i SLACK 1 0 0 0 None None.
Definition pq_bus (i : Z) (p q : R) : Bus := mkBus i PQ 1 0 p q None None.
Definition pv_bus (i : Z) (p : R) : Bus := mkBus i PV 1 0 p 0 None None.

Definition two_bus (b0 b1 : Bus) : Network := mkNetwork [b0; b1] [line01] [] 100.

(** Two slack buses. *)
Definition net_two_slacks : Network := two_bus (slack_bus 0) (slack_bus 1).

(** A zero-impedance branch behind a branch that leaves the bus range. *)
Definition net_short_after_dangling : Network :=
  mkNetwork [slack_bus 0] [mkBranch 0 1 1 1 0 1 0; mkBranch 0 1 0 0 0 1 0] [] 100.

(** A slack bus and a load that draws nothing: the flat start solves it. *)
Definition net_idle : Network := two_bus (slack_bus 0) (pq_bus 1 0 0).

(** A slack bus and a generator injecting 1 p.u. *)
Definition net_gen : Network := two_bus (slack_bus 0) (pv_bus 1 1).

(** The slack bus carries an index beyond the bus count. *)
Definition net_far_slack : Network := two_bus (slack_bus 5) (pq_bus 1 0 0).

(** A load carries an index beyond the bus count. *)
Definition net_far_load : Network := two_bus (slack_bus 0) (pq_bus 7 0 0).

(** The indices are the positions, swapped: the load of 0.5 + j0.2 p.u.
    stands first in the list and carries index 1. *)
Definition net_swapped : Network :=
  two_bus (pq_bus 1 (- (1 / 2)) (- (1 / 5))) (slack_bus 0).

(** A generator whose upper reactive limit lies below the flat-start
    reactive power of 0. *)
Definition limited_gen : Bus := mkBus 1 PV 1 0 1 0 None (Some (-1)).
Definition net_limited : Network := two_bus (slack_bus 0) limited_gen.

Definition cfg_default : LoadFlow := mkLoadFlow 1e-8 100 false.
Definition cfg_one_pass : LoadFlow := mkLoadFlow 1e-8 1 false.
Definition cfg_zero_tol : LoadFlow := mkLoadFlow 0 1 false.

(** The store of a two-bus network at the flat start. *)
Definition flat_store (net : Network) (qs : list R) (act : gset Z) : store :=
  mkStore net [1; 1] [0; 0] qs act ∅.

(** The bound-once locals of a network over [line01]. *)
Definition line_env (slack : Z) (pq : list Z) (ps : list R) : env :=
  mkEnv Y_line01 [[0; 0]; [0; 0]] [[-1; 1]; [1; -1]] 2 slack pq ps.

(** The result at the flat start. *)
Definition flat_result (it : Z) (c : bool) : LoadFlowResult :=
  mkResult [1; 1] [0; 0] [0; 0] [0; 0] it c.

(** ** Further notions *)

(** The bus of the shunt is a subscript of an array of size [n]. *)
Definition shunt_in_range (n : nat) (sh : Shunt) : Prop :=
  is_Some (py_pos n (sh_k sh)).

(** A branch that [build_ybus] can process in a matrix of size [n]. *)
Definition branch_ok (n : nat) (br : Branch) : Prop :=
  ~ zero_impedance br /\ endpoints_in_range n br.

(** The diagonal entry [y0] of position [p] after the shunts of [shs]
    connected there have been added, in list order. *)
Definition shunt_sum (n p : nat) (shs : list Shunt) (y0 : C) : C :=
  foldl (fun acc sh =>
           if decide (py_pos n (sh_k sh) = Some p)
           then Cadd acc (sh_g sh, sh_b sh) else acc) y0 shs.

(** A line without transformer and without charging. *)
Definition bare_line (br : Branch) : Prop :=
  plain_line br /\ br_b br = 0.

(** A two-bus network over a transformer of ratio 2. *)
Definition net_transformer : Network :=
  mkNetwork [slack_bus 0; pq_bus 1 0 0] [mkBranch 0 1 0 1 0 2 0]
    [mkShunt 1 0 (1 / 10)] 100.

(** The vectors of the store have one entry per bus. *)
Definition sized (net : Network) (s : store) : Prop :=
  network s = net /\ length (Vm s) = nbus net /\ length (Va s) = nbus net /\
  length (Q_spec s) = nbus net.

(** The magnitude at position [p] is the setpoint of the bus at [p]. *)
Definition at_setpoint (net : Network) (vm : list R) (p : nat) : Prop :=
  vm !! p = bus_V <$> buses net !! p.

(** Every index in [PV_active] denotes a position held at its setpoint. *)
Definition holds_setpoints (net : Network) (s : store) : Prop :=
  forall k p, k ∈ PV_active s -> py_pos (nbus net) k = Some p ->
              at_setpoint net (Vm s) p.

(** The bus defines no reactive limit. *)
Definition no_limits (b : Bus) : Prop :=
  bus_Qmin b = None /\ bus_Qmax b = None.

(** No PV or PQ bus carries an index that denotes position [p]. *)
Definition unaliased (net : Network) (p : nat) : Prop :=
  forall b, b ∈ buses net -> bus_type b <> SLACK ->
            py_pos (nbus net) (bus_idx b) <> Some p.

(** The exceptions that an iteration of the loop can raise. *)
Definition iteration_exn (ex : exn) : Prop :=
  ex = IndexError \/ ex = AssertionError \/ ex = ValueError \/ ex = LinAlgError.

(** Every bus carries its position in the list as [idx]. *)
Definition positional (net : Network) : Prop :=
  forall p b, buses net !! p = Some b -> bus_idx b = Z.of_nat p.

(** A network on which every subscript of [solve] is defined: the
    indices are the positions, a slack bus exists beside at least one
    other bus, and [build_ybus] can process every branch and shunt. *)
Definition well_formed (net : Network) : Prop :=
  positional net /\ Exists is_slack (buses net) /\ (2 <= nbus net)%nat /\
  Forall (branch_ok (nbus net)) (branches net) /\
  Forall (shunt_in_range (nbus net)) (shunts net).

(** The arrays read by the Jacobian have the size [n]. *)
Definition jac_sized (n : nat) (x : jac_input) : Prop :=
  square n (j_G x) /\ square n (j_B x) /\
  length (j_Vm x) = n /\ length (j_Va x) = n /\
  length (j_P x) = n /\ length (j_Q x) = n.

(** The bound-once locals of [solve] are those of a network whose slack,
    PV and PQ indices are distinct positions. *)
Definition fits (net : Network) (e : env) : Prop :=
  square (nbus net) (e_G e) /\ square (nbus net) (e_B e) /\
  length (e_Y e) = nbus net /\ e_n e = nbus net /\
  length (e_P_spec e) = nbus net /\ e_pq e = pq_indices net /\
  (0 <= e_slack e < Z.of_nat (nbus net))%Z /\
  (e_slack e ∉ pq_indices net) /\ (e_slack e ∉ pv_indices net).

(** A slack bus on its own. *)
Definition net_lone : Network := mkNetwork [slack_bus 0] [] [] 100.

(** The squared distance of two phasors. *)
Definition Cdist2 (a b : C) : R := (Cre a - Cre b) ^ 2 + (Cim a - Cim b) ^ 2.

(** A report on [net_idle] at the flat start. *)
Definition rep_idle : PowerFlowReport := mkReport net_idle [1; 1] [0; 0] [0; 0] [0; 0].

(** The branch runs from position [p] to position [q] of [n] buses. *)
Definition runs (n p q : nat) (br : Branch) : Prop :=
  py_pos n (br_i br) = Some p /\ py_pos n (br_j br) = Some q.

(** The branch joins the positions [p] and [q], in either direction. *)
Definition joins (n p q : nat) (br : Branch) : Prop :=
  runs n p q br \/ runs n q p br.

(** The entry [acc] at [(p, q)], [p <> q], after the pass of [br]. *)
Definition mutual_term (n p q : nat) (acc : C) (br : Branch) : C :=
  let y := Cquot C1 (br_r br, br_x br) in
  if decide (runs n p q br) then Cadd acc (Cquot (Copp y) (Cconj (tap_ratio br)))
  else if decide (runs n q p br) then Cadd acc (Cquot (Copp y) (tap_ratio br))
  else acc.

(** The diagonal entry [acc] at position [p] after the pass of [br]:
    the four updates of the loop body, each where its subscripts denote
    [(p, p)]. *)
Definition self_term (n p : nat) (acc : C) (br : Branch) : C :=
  let y := Cquot C1 (br_r br, br_x br) in
  let ysh := line_charging br in
  let t := tap_ratio br in
  let from := bool_decide (py_pos n (br_i br) = Some p) in
  let to := bool_decide (py_pos n (br_j br) = Some p) in
  let a1 := if from then Cadd acc (Cquot (Cadd y ysh) (RtoC (Cabs t ^ 2))) else acc in
  let a2 := if to then Cadd a1 (Cadd y ysh) else a1 in
  let a3 := if from && to then Cadd a2 (Cquot (Copp y) (Cconj t)) else a2 in
  if from && to then Cadd a3 (Cquot (Copp y) t) else a3.

(** The branch has an end at position [p]. *)
Definition touches (n p : nat) (br : Branch) : Prop :=
  py_pos n (br_i br) = Some p \/ py_pos n (br_j br) = Some p.

(** A bus at rest: the common voltage [v] at the common angle [th],
    nothing injected or drawn, no reactive limit. *)
Definition at_rest (v th : R) (b : Bus) : Prop :=
  bus_V b = v /\ bus_theta_deg b = th /\ bus_P b = 0 /\ bus_Q b = 0 /\ no_limits b.

(** The total of a list of powers. *)
Definition Rsum (l : list R) : R := foldr Rplus 0 l.

(** A network without losses: no series resistance, no phase shifter,
    no shunt conductance. *)
Definition lossless (net : Network) : Prop :=
  Forall (fun br => br_r br = 0 /\ br_shift_deg br = 0 /\ br_tap br <> 0) (branches net) /\
  Forall (fun sh => sh_g sh = 0) (shunts net).

(** Every entry of the matrix is a pure susceptance. *)
Definition susceptive (Y : matrix) : Prop :=
  forall p q z, entry Y p q = Some z -> Cre z = 0.

(** [lim] is one of the two reactive limits of [b]. *)
Definition is_limit (b : Bus) (lim : R) : Prop :=
  bus_Qmin b = Some lim \/ bus_Qmax b = Some lim.

(** Every converted index denotes the position of a PV bus whose
    [Q_spec] entry is one of its limits. *)
Definition pinned (net : Network) (s : store) : Prop :=
  forall k, k ∈ PV_conv s ->
    exists p b lim,
      py_pos (nbus net) k = Some p /\ buses net !! p = Some b /\
      Q_spec s !! p = Some lim /\ bus_type b = PV /\ is_limit b lim.

(** A generator held by an upper limit just below the flat-start
    reactive power, and a configuration with a coarse tolerance. *)
Definition held_gen : Bus := mkBus 1 PV 1 0 0 0 None (Some (- (1 / 2))).
Definition net_held : Network := two_bus (slack_bus 0) held_gen.
Definition cfg_coarse : LoadFlow := mkLoadFlow 1 1 false.

(** Two networks with the same buses, branches and shunts. *)
Definition same_grid (net net' : Network) : Prop :=
  buses net = buses net' /\ branches net = branches net' /\ shunts net = shunts net'.

(** Two stores that differ at most in the base power of the network. *)
Definition same_but_base (s s' : store) : Prop :=
  same_grid (network s) (network s') /\
  Vm s = Vm s' /\ Va s = Va s' /\ Q_spec s = Q_spec s' /\
  PV_active s = PV_active s' /\ PV_conv s = PV_conv s'.

(** The computation reads nothing of the store but what [same_but_base]
    keeps. *)
Definition base_blind {A} (m : M A) : Prop :=
  forall s s', same_but_base s s' ->
    fst (m s) = fst (m s') /\ same_but_base (snd (m s)) (snd (m s')).

(* ================================================================== *)
(** * Properties *)

(** ** Basic facts *)

(** Evaluation that leaves the real numbers alone. *)
Ltac rcbv :=
  cbv -[Rplus Rmult Rminus Ropp Rinv Rdiv IZR sqrt cos sin exp PI
        Req_dec_T Rlt_dec Rle_dec Rmax Rabs pow Reqb Rltb Rleb Vfloor].

Lemma Reqb_true (a b : R) : a = b -> Reqb a b = true.
Proof. intros H. unfold Reqb. destruct (Req_dec_T a b); congruence. Qed.

Lemma Reqb_false (a b : R) : a <> b -> Reqb a b = false.
Proof. intros H. unfold Reqb. destruct (Req_dec_T a b); congruence. Qed.

Lemma Rltb_true (a b : R) : a < b -> Rltb a b = true.
Proof. intros H. unfold Rltb. destruct (Rlt_dec a b); [reflexivity | contradiction]. Qed.

Lemma Rltb_spec (a b : R) : Rltb a b = true <-> a < b.
Proof.
  unfold Rltb. destruct (Rlt_dec a b); split; intros; try easy.
Qed.

Lemma py_pos_lt (n : nat) (k : Z) (p : nat) : py_pos n k = Some p -> (p < n)%nat.
Proof.
  unfold py_pos. intros H.
  destruct ((0 <=? k)%Z && (k <? Z.of_nat n)%Z) eqn:E1.
  - apply andb_true_iff in E1 as [? ?]. inversion H; subst. lia.
  - destruct ((- Z.of_nat n <=? k)%Z && (k <? 0)%Z) eqn:E2; [|discriminate].
    apply andb_true_iff in E2 as [? ?]. inversion H; subst. lia.
Qed.

Lemma py_pos_Some (n : nat) (k : Z) :
  is_Some (py_pos n k) <-> (- Z.of_nat n <= k < Z.of_nat n)%Z.
Proof.
  unfold py_pos.
  destruct ((0 <=? k)%Z && (k <? Z.of_nat n)%Z) eqn:E1.
  - apply andb_true_iff in E1 as [? ?]. split; [lia | eauto].
  - destruct ((- Z.of_nat n <=? k)%Z && (k <? 0)%Z) eqn:E2.
    + apply andb_true_iff in E2 as [? ?]. split; [lia | eauto].
    + apply andb_false_iff in E1, E2. split.
      * intros [? ?]; discriminate.
      * intros ?. exfalso. destruct E1, E2; lia.
Qed.

Lemma getitem_Ok {A} (l : list A) (k : Z) (a : A) :
  getitem l k = Ok a <-> exists p, py_pos (length l) k = Some p /\ l !! p = Some a.
Proof.
  unfold getitem. destruct (py_pos (length l) k) as [p|] eqn:E.
  - destruct (l !! p) as [x|] eqn:E'.
    + split; [intros [= ->]; eauto | intros (p' & [= <-] & H); congruence].
    + split; [discriminate | intros (p' & [= <-] & H); congruence].
  - split; [discriminate | intros (p' & ? & _); discriminate].
Qed.

Lemma getitem_Raise {A} (l : list A) (k : Z) (e : exn) :
  getitem l k = Raise e -> e = IndexError /\ py_pos (length l) k = None.
Proof.
  unfold getitem. destruct (py_pos (length l) k) as [p|] eqn:E.
  - apply py_pos_lt in E. destruct (lookup_lt_is_Some_2 l p E) as [x ->]. discriminate.
  - intros [= <-]. auto.
Qed.

Lemma getitem_in_range {A} (l : list A) (k : Z) :
  is_Some (py_pos (length l) k) -> exists a, getitem l k = Ok a.
Proof.
  intros [p E]. unfold getitem. rewrite E.
  apply py_pos_lt in E. destruct (lookup_lt_is_Some_2 l p E) as [x ->]. eauto.
Qed.

Lemma setitem_Ok {A} (l : list A) (k : Z) (a : A) (l' : list A) :
  setitem l k a = Ok l' <-> exists p, py_pos (length l) k = Some p /\ l' = <[p := a]> l.
Proof.
  unfold setitem. destruct (py_pos (length l) k) as [p|].
  - split; [intros [= <-]; eauto | intros (p' & [= <-] & ->); reflexivity].
  - split; [discriminate | intros (p' & ? & _); discriminate].
Qed.

Lemma setitem_length {A} (l : list A) (k : Z) (a : A) (l' : list A) :
  setitem l k a = Ok l' -> length l' = length l.
Proof.
  intros (p & _ & ->)%setitem_Ok. apply length_insert.
Qed.

Lemma getitem_setitem {A} (l : list A) (k : Z) (a : A) (l' : list A) :
  setitem l k a = Ok l' -> getitem l' k = Ok a.
Proof.
  intros H. pose proof (setitem_length _ _ _ _ H) as Hlen.
  apply setitem_Ok in H as (p & Hp & ->).
  apply getitem_Ok. exists p. rewrite Hlen. split; [assumption|].
  apply list_lookup_insert_eq. eapply py_pos_lt; eassumption.
Qed.

Lemma bind_Ok {A B} (m : res A) (f : A -> res B) (b : B) :
  m ≫= f = Ok b <-> exists a, m = Ok a /\ f a = Ok b.
Proof.
  destruct m as [e|a]; cbn.
  - split; [discriminate | intros (a & ? & _); discriminate].
  - split; [eauto | intros (a' & [= <-] & H); exact H].
Qed.

Lemma bind_Raise {A B} (m : res A) (f : A -> res B) (e : exn) :
  m ≫= f = Raise e <-> m = Raise e \/ exists a, m = Ok a /\ f a = Raise e.
Proof.
  destruct m as [e'|a]; cbn.
  - split; [intros [= ->]; auto | intros [[= ->] | (a & ? & _)]; [reflexivity | discriminate]].
  - split; [eauto | intros [? | (a' & [= <-] & H)]; [discriminate | exact H]].
Qed.

(** ** Matrices *)

Lemma square_zeros (n : nat) : square n (zeros n).
Proof.
  split.
  - apply length_replicate.
  - apply Forall_replicate, length_replicate.
Qed.

Lemma square_row {A} (n : nat) (Y : list (list A)) (p : nat) (row : list A) :
  square n Y -> Y !! p = Some row -> length row = n.
Proof.
  intros [_ HF] Hp. rewrite Forall_lookup in HF. eapply HF; eassumption.
Qed.

Lemma mat_iadd_Ok (n : nat) (Y : matrix) (i j : Z) (v : C) (Y' : matrix) :
  square n Y ->
  mat_iadd Y i j v = Ok Y' ->
  exists p q row old,
    py_pos n i = Some p /\ py_pos n j = Some q /\
    Y !! p = Some row /\ row !! q = Some old /\
    Y' = <[p := <[q := Cadd old v]> row]> Y.
Proof.
  intros Hsq H. unfold mat_iadd in H.
  apply bind_Ok in H as (row & Hrow & H).
  apply bind_Ok in H as (old & Hold & H).
  apply bind_Ok in H as (row' & Hrow' & H).
  apply getitem_Ok in Hrow as (p & Hp & Hrow).
  apply getitem_Ok in Hold as (q & Hq & Hold).
  apply setitem_Ok in Hrow' as (q' & Hq' & ->).
  apply setitem_Ok in H as (p' & Hp' & ->).
  assert (p' = p) as -> by congruence.
  assert (q' = q) as -> by congruence.
  pose proof (square_row _ _ _ _ Hsq Hrow) as Hlen.
  destruct Hsq as [HlenY _].
  exists p, q, row, old. rewrite <- HlenY at 1. rewrite <- Hlen. auto.
Qed.

Lemma mat_iadd_square (n : nat) (Y : matrix) (i j : Z) (v : C) (Y' : matrix) :
  square n Y -> mat_iadd Y i j v = Ok Y' -> square n Y'.
Proof.
  intros Hsq H.
  destruct (mat_iadd_Ok _ _ _ _ _ _ Hsq H) as (p & q & row & old & _ & _ & Hrow & _ & ->).
  pose proof (square_row _ _ _ _ Hsq Hrow) as Hlen.
  destruct Hsq as [HlenY HF]. split.
  - rewrite length_insert. assumption.
  - apply Forall_insert; [assumption|]. rewrite length_insert. assumption.
Qed.

Lemma mat_iadd_entry (n : nat) (Y : matrix) (i j : Z) (v : C) (Y' : matrix) :
  square n Y ->
  mat_iadd Y i j v = Ok Y' ->
  exists p q,
    py_pos n i = Some p /\ py_pos n j = Some q /\
    forall a b,
      entry Y' a b =
        if decide (a = p /\ b = q) then (fun old => Cadd old v) <$> entry Y a b
        else entry Y a b.
Proof.
  intros Hsq H.
  destruct (mat_iadd_Ok _ _ _ _ _ _ Hsq H) as (p & q & row & old & Hp & Hq & Hrow & Hold & ->).
  exists p, q. split; [assumption|]. split; [assumption|].
  intros a b. unfold entry.
  assert (p < length Y)%nat as HpY by (eapply lookup_lt_Some; eassumption).
  assert (q < length row)%nat as Hqr by (eapply lookup_lt_Some; eassumption).
  destruct (decide (a = p)) as [->|Hne].
  - rewrite list_lookup_insert_eq by assumption. rewrite Hrow. cbn.
    destruct (decide (b = q)) as [->|Hne'].
    + rewrite list_lookup_insert_eq by assumption. rewrite Hold.
      rewrite decide_True by auto. reflexivity.
    + rewrite list_lookup_insert_ne by congruence.
      rewrite decide_False by (intros [_ ?]; congruence). reflexivity.
  - rewrite list_lookup_insert_ne by congruence.
    rewrite decide_False by (intros [? _]; congruence). reflexivity.
Qed.

Lemma mat_iadd_in_range (n : nat) (Y : matrix) (i j : Z) (v : C) :
  square n Y -> is_Some (py_pos n i) -> is_Some (py_pos n j) ->
  exists Y', mat_iadd Y i j v = Ok Y'.
Proof.
  intros Hsq Hi Hj. unfold mat_iadd.
  destruct Hsq as [HlenY HF].
  rewrite <- HlenY in Hi.
  destruct (getitem_in_range Y i Hi) as [row Hrow]. rewrite Hrow. cbn.
  assert (length row = n) as Hlen.
  { apply getitem_Ok in Hrow as (p & _ & Hrow).
    rewrite Forall_lookup in HF. eapply HF; eassumption. }
  rewrite <- Hlen in Hj.
  destruct (getitem_in_range row j Hj) as [old Hold]. rewrite Hold. cbn.
  unfold setitem. destruct Hj as [q ->]. cbn. destruct Hi as [p ->]. eauto.
Qed.

Lemma mat_iadd_Raise (Y : matrix) (i j : Z) (v : C) (e : exn) :
  mat_iadd Y i j v = Raise e -> e = IndexError.
Proof.
  unfold mat_iadd. intros H.
  apply bind_Raise in H as [H | (row & _ & H)]; [apply getitem_Raise in H; tauto|].
  apply bind_Raise in H as [H | (old & _ & H)]; [apply getitem_Raise in H; tauto|].
  apply bind_Raise in H as [H | (row' & _ & H)].
  - unfold setitem in H. destruct (py_pos _ _); congruence.
  - unfold setitem in H. destruct (py_pos _ _); congruence.
Qed.

Lemma mat_get_entry {A} (n : nat) (Y : list (list A)) (i j : Z) :
  square n Y ->
  mat_get Y i j =
    match py_pos n i, py_pos n j with
    | Some p, Some q =>
        match entry Y p q with Some a => Ok a | None => Raise IndexError end
    | _, _ => Raise IndexError
    end.
Proof.
  intros Hsq. unfold mat_get, getitem, entry.
  destruct Hsq as [HlenY HF]. rewrite HlenY.
  destruct (py_pos n i) as [p|] eqn:Hp; [|reflexivity].
  pose proof (py_pos_lt _ _ _ Hp) as Hlt. rewrite <- HlenY in Hlt.
  destruct (lookup_lt_is_Some_2 Y p Hlt) as [row Hrow]. rewrite Hrow. cbn.
  rewrite Forall_lookup in HF. rewrite (HF _ _ Hrow).
  destruct (py_pos n j) as [q|]; reflexivity.
Qed.

(** ** Unity tap *)

Lemma tap_ratio_plain (br : Branch) : plain_line br -> tap_ratio br = C1.
Proof.
  intros [Ht Hs]. unfold tap_ratio, Cmul, Cexp, RtoC, Cj, C1, deg2rad. cbn.
  rewrite Ht, Hs.
  replace (0 * (0 * (PI / 180)) - 1 * 0) with 0 by lra.
  replace (0 * 0 + 1 * (0 * (PI / 180))) with 0 by lra.
  rewrite exp_0, cos_0, sin_0. f_equal; lra.
Qed.

Lemma Cabs_C1_sq : Cabs C1 ^ 2 = 1.
Proof.
  unfold Cabs, C1. cbn.
  replace (1 * 1 + 0 * 0) with 1 by lra. rewrite sqrt_1. lra.
Qed.

Lemma Cquot_one (z : C) : Cquot z (RtoC 1) = z.
Proof. destruct z as [a b]. unfold Cquot, RtoC. cbn. f_equal; field. Qed.

Lemma Cquot_C1 (z : C) : Cquot z C1 = z.
Proof. apply Cquot_one. Qed.

Lemma Cquot_conj_C1 (z : C) : Cquot z (Cconj C1) = z.
Proof. destruct z as [a b]. unfold Cquot, Cconj, C1. cbn. f_equal; field. Qed.

Lemma line_charging_half (br : Branch) : line_charging br = (0, br_b br / 2).
Proof. unfold line_charging, Cquot, Cmul, Cj, RtoC. cbn. f_equal; field. Qed.

Lemma add_branch_plain (Y : matrix) (br : Branch) :
  plain_line br -> add_branch Y br = add_branch_pi Y br.
Proof.
  intros Hp. unfold add_branch, add_branch_pi.
  rewrite (tap_ratio_plain br Hp), Cabs_C1_sq, line_charging_half.
  destruct (py_cdiv C1 (br_r br, br_x br)) as [e|y]; [reflexivity|]. cbn.
  rewrite Cquot_one, Cquot_conj_C1, Cquot_C1. reflexivity.
Qed.

(** ** Symmetry of the admittance matrix *)

Lemma add_branch_pi_square (n : nat) (Y : matrix) (br : Branch) (Y' : matrix) :
  square n Y -> add_branch_pi Y br = Ok Y' -> square n Y'.
Proof.
  intros Hsq H. unfold add_branch_pi in H.
  apply bind_Ok in H as (y & _ & H).
  apply bind_Ok in H as (Y1 & H1 & H).
  apply bind_Ok in H as (Y2 & H2 & H).
  apply bind_Ok in H as (Y3 & H3 & H).
  eauto using mat_iadd_square.
Qed.

Lemma add_branch_pi_entries (n : nat) (Y : matrix) (br : Branch) (Y' : matrix) :
  square n Y -> add_branch_pi Y br = Ok Y' ->
  exists y p q,
    py_cdiv C1 (br_r br, br_x br) = Ok y /\
    py_pos n (br_i br) = Some p /\ py_pos n (br_j br) = Some q /\
    forall a b,
      entry Y' a b =
        add_if (a = q /\ b = p) (Copp y)
          (add_if (a = p /\ b = q) (Copp y)
             (add_if (a = q /\ b = q) (Cadd y (0, br_b br / 2))
                (add_if (a = p /\ b = p) (Cadd y (0, br_b br / 2))
                   (entry Y a b)))).
Proof.
  intros Hsq H. unfold add_branch_pi in H.
  apply bind_Ok in H as (y & Hy & H).
  apply bind_Ok in H as (Y1 & H1 & H).
  apply bind_Ok in H as (Y2 & H2 & H).
  apply bind_Ok in H as (Y3 & H3 & H4).
  pose proof (mat_iadd_square _ _ _ _ _ _ Hsq H1) as Hsq1.
  pose proof (mat_iadd_square _ _ _ _ _ _ Hsq1 H2) as Hsq2.
  pose proof (mat_iadd_square _ _ _ _ _ _ Hsq2 H3) as Hsq3.
  destruct (mat_iadd_entry _ _ _ _ _ _ Hsq H1) as (p & p' & Hp & Hp' & E1).
  destruct (mat_iadd_entry _ _ _ _ _ _ Hsq1 H2) as (q & q' & Hq & Hq' & E2).
  destruct (mat_iadd_entry _ _ _ _ _ _ Hsq2 H3) as (p3 & q3 & Hp3 & Hq3 & E3).
  destruct (mat_iadd_entry _ _ _ _ _ _ Hsq3 H4) as (q4 & p4 & Hq4 & Hp4 & E4).
  assert (p' = p) as -> by congruence. assert (q' = q) as -> by congruence.
  assert (p3 = p) as -> by congruence. assert (q3 = q) as -> by congruence.
  assert (p4 = p) as -> by congruence. assert (q4 = q) as -> by congruence.
  exists y, p, q. repeat split; try assumption.
  intros a b. rewrite E4, E3, E2, E1. reflexivity.
Qed.

Lemma add_branch_pi_mirror (n : nat) (Y : matrix) (br : Branch) (Y' : matrix) :
  square n Y -> mirror_equal Y -> add_branch_pi Y br = Ok Y' -> mirror_equal Y'.
Proof.
  intros Hsq Hm H.
  destruct (add_branch_pi_entries _ _ _ _ Hsq H) as (y & p & q & _ & _ & _ & E).
  intros a b. rewrite !E, (Hm a b). unfold add_if.
  destruct (decide (a = p)), (decide (b = p)), (decide (a = q)), (decide (b = q));
    subst; repeat case_decide; try reflexivity; exfalso; intuition congruence.
Qed.

Lemma add_shunt_mirror (n : nat) (Y : matrix) (sh : Shunt) (Y' : matrix) :
  square n Y -> mirror_equal Y -> add_shunt Y sh = Ok Y' -> mirror_equal Y'.
Proof.
  intros Hsq Hm H. unfold add_shunt in H.
  destruct (mat_iadd_entry _ _ _ _ _ _ Hsq H) as (p & p' & Hp & Hp' & E).
  assert (p' = p) as -> by congruence.
  intros a b. rewrite !E, (Hm a b).
  repeat case_decide; try reflexivity; exfalso; intuition congruence.
Qed.

Lemma foldM_branches_mirror (n : nat) (brs : list Branch) (Y Y' : matrix) :
  Forall plain_line brs ->
  square n Y -> mirror_equal Y ->
  foldM add_branch Y brs = Ok Y' ->
  square n Y' /\ mirror_equal Y'.
Proof.
  intros HF. revert Y. induction HF as [|br brs Hbr _ IH]; intros Y Hsq Hm H.
  - cbn in H. injection H as <-. auto.
  - cbn in H. apply bind_Ok in H as (Y1 & H1 & H).
    rewrite add_branch_plain in H1 by assumption.
    apply (IH Y1); [| | assumption].
    + eapply add_branch_pi_square; eassumption.
    + eapply add_branch_pi_mirror; eassumption.
Qed.

Lemma foldM_shunts_mirror (n : nat) (shs : list Shunt) (Y Y' : matrix) :
  square n Y -> mirror_equal Y ->
  foldM add_shunt Y shs = Ok Y' ->
  square n Y' /\ mirror_equal Y'.
Proof.
  revert Y. induction shs as [|sh shs IH]; intros Y Hsq Hm H.
  - cbn in H. injection H as <-. auto.
  - cbn in H. apply bind_Ok in H as (Y1 & H1 & H).
    apply (IH Y1); [| | assumption].
    + unfold add_shunt in H1. eapply mat_iadd_square; eassumption.
    + eapply add_shunt_mirror; eassumption.
Qed.

Lemma entry_zeros (n a b : nat) :
  entry (zeros n) a b = if decide (a < n /\ b < n)%nat then Some C0 else None.
Proof.
  unfold entry, zeros. case_decide as H.
  - destruct H. rewrite lookup_replicate_2 by assumption. cbn.
    apply lookup_replicate_2; assumption.
  - destruct (decide (a < n)%nat).
    + rewrite lookup_replicate_2 by assumption. cbn.
      apply lookup_replicate_None. lia.
    + assert (replicate n (replicate n C0) !! a = None) as ->
        by (apply lookup_replicate_None; lia).
      reflexivity.
Qed.

Lemma mirror_zeros (n : nat) : mirror_equal (zeros n).
Proof.
  intros a b. rewrite !entry_zeros.
  repeat case_decide; try reflexivity; exfalso; tauto.
Qed.

Lemma build_ybus_square (net : Network) (Y : matrix) :
  build_ybus net = Ok Y -> square (nbus net) Y.
Proof.
  unfold build_ybus. intros H. apply bind_Ok in H as (Y1 & H1 & H2).
  assert (square (nbus net) Y1) as Hsq1.
  { clear H2. pose proof (square_zeros (nbus net)) as Hsq.
    revert H1 Hsq. generalize (zeros (nbus net)) as Y0.
    induction (branches net) as [|br brs IH]; intros Y0 H Hsq.
    - cbn in H. congruence.
    - cbn in H. apply bind_Ok in H as (Y2 & H2 & H).
      apply (IH Y2 H). unfold add_branch in H2.
      apply bind_Ok in H2 as (y & _ & H2).
      apply bind_Ok in H2 as (Z1 & G1 & H2).
      apply bind_Ok in H2 as (Z2 & G2 & H2).
      apply bind_Ok in H2 as (Z3 & G3 & G4).
      eauto using mat_iadd_square. }
  revert H2 Hsq1. generalize Y1 as Y0. clear H1.
  induction (shunts net) as [|sh shs IH]; intros Y0 H Hsq.
  - cbn in H. congruence.
  - cbn in H. apply bind_Ok in H as (Y2 & H2 & H).
    apply (IH Y2 H). unfold add_shunt in H2. eauto using mat_iadd_square.
Qed.

(** ** Division by a zero impedance *)

Lemma py_cdiv_zero (a b : C) :
  fst b = 0 -> snd b = 0 -> py_cdiv a b = Raise ZeroDivisionError.
Proof.
  intros H1 H2. unfold py_cdiv. rewrite (Reqb_true _ _ H1), (Reqb_true _ _ H2).
  reflexivity.
Qed.

Lemma py_cdiv_nonzero (a b : C) :
  ~ (fst b = 0 /\ snd b = 0) -> py_cdiv a b = Ok (Cquot a b).
Proof.
  intros H. unfold py_cdiv, Reqb.
  destruct (Req_dec_T (fst b) 0), (Req_dec_T (snd b) 0); cbn; try reflexivity.
  exfalso. auto.
Qed.

Lemma py_cdiv_Raise (a b : C) (e : exn) :
  py_cdiv a b = Raise e -> e = ZeroDivisionError /\ fst b = 0 /\ snd b = 0.
Proof.
  unfold py_cdiv, Reqb.
  destruct (Req_dec_T (fst b) 0), (Req_dec_T (snd b) 0); cbn; try discriminate.
  intros [= <-]. auto.
Qed.

Lemma add_branch_zero (Y : matrix) (br : Branch) :
  zero_impedance br -> add_branch Y br = Raise ZeroDivisionError.
Proof.
  intros [Hr Hx]. unfold add_branch. rewrite py_cdiv_zero by assumption. reflexivity.
Qed.

Lemma add_branch_Raise (Y : matrix) (br : Branch) (e : exn) :
  add_branch Y br = Raise e ->
  (e = ZeroDivisionError /\ zero_impedance br) \/ e = IndexError.
Proof.
  unfold add_branch. intros H.
  apply bind_Raise in H as [H | (y & _ & H)].
  { left. apply py_cdiv_Raise in H as (-> & Hr & Hx). split; [reflexivity | split; assumption]. }
  right.
  apply bind_Raise in H as [H | (Y1 & _ & H)]; [eapply mat_iadd_Raise; eassumption|].
  apply bind_Raise in H as [H | (Y2 & _ & H)]; [eapply mat_iadd_Raise; eassumption|].
  apply bind_Raise in H as [H | (Y3 & _ & H)]; eapply mat_iadd_Raise; eassumption.
Qed.

Lemma add_branch_square (n : nat) (Y : matrix) (br : Branch) (Y' : matrix) :
  square n Y -> add_branch Y br = Ok Y' -> square n Y'.
Proof.
  intros Hsq H. unfold add_branch in H.
  apply bind_Ok in H as (y & _ & H).
  apply bind_Ok in H as (Y1 & H1 & H).
  apply bind_Ok in H as (Y2 & H2 & H).
  apply bind_Ok in H as (Y3 & H3 & H).
  eauto using mat_iadd_square.
Qed.

Lemma add_branch_in_range (n : nat) (Y : matrix) (br : Branch) :
  square n Y -> endpoints_in_range n br -> ~ zero_impedance br ->
  exists Y', add_branch Y br = Ok Y'.
Proof.
  intros Hsq [Hi Hj] Hz. unfold add_branch.
  rewrite py_cdiv_nonzero by exact Hz. cbn.
  edestruct (mat_iadd_in_range n Y (br_i br) (br_i br)) as [Y1 H1]; try eassumption.
  rewrite H1. cbn.
  pose proof (mat_iadd_square _ _ _ _ _ _ Hsq H1) as Hsq1.
  edestruct (mat_iadd_in_range n Y1 (br_j br) (br_j br)) as [Y2 H2]; try eassumption.
  rewrite H2. cbn.
  pose proof (mat_iadd_square _ _ _ _ _ _ Hsq1 H2) as Hsq2.
  edestruct (mat_iadd_in_range n Y2 (br_i br) (br_j br)) as [Y3 H3]; try eassumption.
  rewrite H3. cbn.
  pose proof (mat_iadd_square _ _ _ _ _ _ Hsq2 H3) as Hsq3.
  eapply mat_iadd_in_range; eassumption.
Qed.

Lemma zero_impedance_dec (br : Branch) : zero_impedance br \/ ~ zero_impedance br.
Proof.
  unfold zero_impedance.
  destruct (Req_dec_T (br_r br) 0), (Req_dec_T (br_x br) 0); tauto.
Qed.

Lemma foldM_add_branch_short_first (n : nat) (pre post : list Branch) (br : Branch) (Y : matrix) :
  square n Y ->
  Forall (endpoints_in_range n) pre ->
  zero_impedance br ->
  foldM add_branch Y (pre ++ br :: post) = Raise ZeroDivisionError.
Proof.
  intros Hsq HF Hz. revert Y Hsq.
  induction HF as [|b pre Hb _ IH]; intros Y Hsq; cbn.
  - rewrite add_branch_zero by assumption. reflexivity.
  - destruct (zero_impedance_dec b) as [Hzb | Hzb].
    + rewrite add_branch_zero by assumption. reflexivity.
    + destruct (add_branch_in_range n Y b Hsq Hb Hzb) as [Y1 H1].
      rewrite H1. cbn. apply IH. eapply add_branch_square; eassumption.
Qed.

Lemma foldM_add_branch_short (brs : list Branch) (br : Branch) (Y : matrix) :
  br ∈ brs -> zero_impedance br ->
  exists e, foldM add_branch Y brs = Raise e /\
            (e = ZeroDivisionError \/ e = IndexError).
Proof.
  intros Hin Hz. revert Y.
  induction brs as [|b brs IH]; intros Y; [inversion Hin|]. cbn.
  destruct (add_branch Y b) as [e|Y1] eqn:E.
  - exists e. split; [reflexivity|].
    apply add_branch_Raise in E as [[-> _] | ->]; auto.
  - cbn. apply elem_of_cons in Hin as [-> | Hin].
    + rewrite add_branch_zero in E by assumption. discriminate.
    + apply IH. assumption.
Qed.

(** ** A lossless line between two buses *)

Lemma py_cdiv_j : py_cdiv C1 (0, 1) = Ok (0, -1).
Proof.
  rewrite py_cdiv_nonzero by (cbn; lra).
  unfold Cquot, C1. cbn. do 2 f_equal; field.
Qed.

Lemma build_ybus_line01 (net : Network) :
  length (buses net) = 2%nat -> branches net = [line01] -> shunts net = [] ->
  build_ybus net = Ok Y_line01.
Proof.
  intros Hn Hb Hs. unfold build_ybus, nbus. rewrite Hn, Hb, Hs. cbn [foldM].
  rewrite add_branch_plain by (split; reflexivity).
  unfold add_branch_pi. change (br_r line01, br_x line01) with ((0, 1) : C).
  rewrite py_cdiv_j. rcbv.
  repeat f_equal; lra.
Qed.

(** ** The slack lookup *)

Lemma first_slack_Raise (bs : list Bus) (e : exn) :
  first_slack bs = Raise e ->
  e = StopIteration /\ Forall (fun b => ~ is_slack b) bs.
Proof.
  induction bs as [|b bs IH]; cbn.
  - intros [= <-]. split; constructor.
  - case_decide as Hb; [discriminate|]. intros H.
    destruct (IH H) as [-> HF]. split; [reflexivity|]. constructor; assumption.
Qed.

Lemma first_slack_Ok (bs : list Bus) (i : Z) :
  first_slack bs = Ok i ->
  exists pre b post,
    bs = pre ++ b :: post /\ Forall (fun b => ~ is_slack b) pre /\
    is_slack b /\ bus_idx b = i.
Proof.
  induction bs as [|b bs IH]; cbn; [discriminate|].
  case_decide as Hb.
  - intros [= <-]. exists [], b, bs. repeat split; [constructor | assumption].
  - intros H. destruct (IH H) as (pre & b' & post & -> & HF & Hb' & Hi).
    exists (b :: pre), b', post. repeat split; try assumption.
    constructor; assumption.
Qed.

Lemma first_slack_app (pre post : list Bus) (b : Bus) :
  Forall (fun b => ~ is_slack b) pre -> is_slack b ->
  first_slack (pre ++ b :: post) = Ok (bus_idx b).
Proof.
  intros HF Hb. induction HF as [|b' pre Hb' _ IH]; cbn.
  - rewrite decide_True by exact Hb. reflexivity.
  - rewrite decide_False by exact Hb'. exact IH.
Qed.

(** C4 (as amended): the slack lookup raises [StopIteration] exactly when
    the network has no Slack-type bus; as soon as there is one, it returns
    the index of the first Slack-type bus in list order, whether or not
    further Slack-type buses follow. *)
Theorem slack_index_first_slack (net : Network) :
  (forall e, slack_index net = Raise e <->
     e = StopIteration /\ Forall (fun b => ~ is_slack b) (buses net)) /\
  (forall i, slack_index net = Ok i <->
     exists pre b post,
       buses net = pre ++ b :: post /\ Forall (fun b => ~ is_slack b) pre /\
       is_slack b /\ bus_idx b = i).
Proof.
  unfold slack_index. split.
  - intros e. split; [apply first_slack_Raise|].
    intros [-> HF]. destruct (first_slack (buses net)) as [e|i] eqn:E.
    + apply first_slack_Raise in E as [-> _]. reflexivity.
    + apply first_slack_Ok in E as (pre & b & post & Hbs & _ & Hb & _).
      rewrite Hbs in HF. apply Forall_app in HF as [_ HF].
      apply Forall_cons in HF as [HF _]. contradiction.
  - intros i. split; [apply first_slack_Ok|].
    intros (pre & b & post & -> & HF & Hb & <-). apply first_slack_app; assumption.
Qed.

(** C4 as stated fails: with two Slack-type buses the lookup does not
    fail, it answers with the first of them. *)
Lemma slack_index_two_slacks :
  length (filter (fun b => bus_type b = SLACK) (buses net_two_slacks)) = 2%nat /\
  slack_index net_two_slacks = Ok 0%Z.
Proof. split; reflexivity. Qed.

(** ** Claims on the admittance matrix *)

(** C6: for a branch with [tap = 1.0] and [shift_deg = 0.0] the pass of
    [build_ybus] over that branch is the untransformed pi-model: it adds
    [y + ySh] to [Y[i,i]] and to [Y[j,j]] and [-y] to [Y[i,j]] and to
    [Y[j,i]], with [y = 1/(r + jx)] and [ySh = j*b/2], and touches no
    other entry. *)
Theorem unity_tap_branch_is_pi_model (Y : matrix) (br : Branch) :
  br_tap br = 1 -> br_shift_deg br = 0 ->
  add_branch Y br = add_branch_pi Y br /\
  forall n Y', square n Y -> add_branch Y br = Ok Y' ->
    exists y p q,
      py_cdiv C1 (br_r br, br_x br) = Ok y /\
      py_pos n (br_i br) = Some p /\ py_pos n (br_j br) = Some q /\
      (p <> q ->
       entry Y' p p = (fun old => Cadd old (Cadd y (0, br_b br / 2))) <$> entry Y p p /\
       entry Y' q q = (fun old => Cadd old (Cadd y (0, br_b br / 2))) <$> entry Y q q /\
       entry Y' p q = (fun old => Cadd old (Copp y)) <$> entry Y p q /\
       entry Y' q p = (fun old => Cadd old (Copp y)) <$> entry Y q p /\
       forall a b, ~ (a = p \/ a = q) \/ ~ (b = p \/ b = q) ->
                   entry Y' a b = entry Y a b).
Proof.
  intros Ht Hs. assert (plain_line br) as Hp by (split; assumption).
  split; [apply add_branch_plain; assumption|].
  intros n Y' Hsq H. rewrite add_branch_plain in H by assumption.
  destruct (add_branch_pi_entries _ _ _ _ Hsq H) as (y & p & q & Hy & Hpi & Hpj & E).
  exists y, p, q. repeat split; try assumption.
  all: try (rewrite E; unfold add_if; repeat case_decide; try reflexivity;
            exfalso; intuition congruence).
  intros a b Hab. rewrite E. unfold add_if.
  repeat case_decide; try reflexivity; exfalso; intuition congruence.
Qed.

Lemma unity_tap_branch_is_pi_model_witness :
  br_tap line01 = 1 /\ br_shift_deg line01 = 0 /\
  add_branch (zeros 2) line01 = add_branch_pi (zeros 2) line01.
Proof.
  split; [reflexivity|]. split; [reflexivity|].
  apply (unity_tap_branch_is_pi_model (zeros 2) line01); reflexivity.
Defined.

(** C7: when every branch has [tap = 1.0] and [shift_deg = 0.0], with
    any shunts, the matrix returned by [build_ybus] is symmetric:
    [Y[i,j] = Y[j,i]] for all subscripts [i], [j]. *)
Theorem ybus_symmetric_without_transformers (net : Network) (Y : matrix) :
  Forall (fun br => br_tap br = 1 /\ br_shift_deg br = 0) (branches net) ->
  build_ybus net = Ok Y ->
  forall i j : Z, mat_get Y i j = mat_get Y j i.
Proof.
  intros HF H i j.
  pose proof (build_ybus_square _ _ H) as Hsq.
  unfold build_ybus in H. apply bind_Ok in H as (Y1 & H1 & H2).
  destruct (foldM_branches_mirror (nbus net) _ _ _ HF (square_zeros _) (mirror_zeros _) H1)
    as [Hsq1 Hm1].
  destruct (foldM_shunts_mirror (nbus net) _ _ _ Hsq1 Hm1 H2) as [_ Hm].
  rewrite !(mat_get_entry (nbus net)) by assumption.
  destruct (py_pos (nbus net) i) as [p|], (py_pos (nbus net) j) as [q|];
    try reflexivity.
  rewrite (Hm p q). reflexivity.
Qed.

Lemma ybus_symmetric_without_transformers_witness :
  Forall (fun br => br_tap br = 1 /\ br_shift_deg br = 0)
    (branches (two_bus (slack_bus 0) (pq_bus 1 0 0))) /\
  build_ybus (two_bus (slack_bus 0) (pq_bus 1 0 0)) = Ok Y_line01 /\
  forall i j : Z, mat_get Y_line01 i j = mat_get Y_line01 j i.
Proof.
  assert (Forall (fun br => br_tap br = 1 /\ br_shift_deg br = 0)
            (branches (two_bus (slack_bus 0) (pq_bus 1 0 0)))) as HF.
  { repeat constructor. }
  assert (build_ybus (two_bus (slack_bus 0) (pq_bus 1 0 0)) = Ok Y_line01) as HY.
  { apply build_ybus_line01; reflexivity. }
  split; [exact HF|]. split; [exact HY|].
  exact (ybus_symmetric_without_transformers _ _ HF HY).
Defined.

Lemma Branch_init_short (i j : Z) (b tap shift_deg : R) :
  Branch_init i j 0 0 b tap shift_deg = Ok (mkBranch i j 0 0 b tap shift_deg) <->
  (0 <= i)%Z /\ (0 <= j)%Z /\ i <> j /\ 0 <= b /\ 0 <= tap /\ 0 <= shift_deg <= 360.
Proof.
  unfold Branch_init, py_assert, Rleb.
  destruct (Z.leb_spec 0 i), (Z.leb_spec 0 j), (Z.eqb_spec i j); cbn;
    try (split; [discriminate | intros; exfalso; lia]).
  destruct (Rle_dec 0 0) as [_|Hn]; [|exfalso; lra]. cbn.
  destruct (Rle_dec 0 b); cbn; [|split; [discriminate | intros; exfalso; tauto]].
  destruct (Rle_dec 0 tap); cbn; [|split; [discriminate | intros; exfalso; tauto]].
  destruct (Rle_dec 0 shift_deg), (Rle_dec shift_deg 360); cbn;
    try (split; [discriminate | intros; exfalso; tauto]).
  split; [intros _; tauto | reflexivity].
Qed.

(** C9 (as amended): [Branch.__init__] accepts [r = 0] together with
    [x = 0], and a network with such a branch never gets a matrix from
    [build_ybus]: the builder raises.  The exception is the division by
    zero when every branch ahead of the zero-impedance one has both
    endpoints inside the bus range; otherwise a branch ahead of it may
    raise its index error first. *)
Theorem zero_impedance_branch_fails (net : Network) (pre post : list Branch) (br : Branch) :
  branches net = pre ++ br :: post ->
  br_r br = 0 -> br_x br = 0 ->
  (Branch_init (br_i br) (br_j br) 0 0 (br_b br) (br_tap br) (br_shift_deg br) = Ok br <->
     (0 <= br_i br)%Z /\ (0 <= br_j br)%Z /\ br_i br <> br_j br /\
     0 <= br_b br /\ 0 <= br_tap br /\ 0 <= br_shift_deg br <= 360) /\
  (exists e, build_ybus net = Raise e /\ (e = ZeroDivisionError \/ e = IndexError)) /\
  (Forall (endpoints_in_range (nbus net)) pre ->
   build_ybus net = Raise ZeroDivisionError).
Proof.
  intros Hbr Hr Hx. assert (zero_impedance br) as Hz by (split; assumption).
  split; [|split].
  - destruct br as [i j r x b tap sh]. cbn in *. subst r x. apply Branch_init_short.
  - unfold build_ybus.
    destruct (foldM_add_branch_short (branches net) br (zeros (nbus net))) as (e & He & Hk).
    { rewrite Hbr. apply elem_of_app. right. apply elem_of_cons. auto. }
    { assumption. }
    exists e. rewrite He. auto.
  - intros HF. unfold build_ybus. rewrite Hbr.
    rewrite (foldM_add_branch_short_first (nbus net)); auto using square_zeros.
Qed.

Lemma zero_impedance_branch_fails_witness :
  branches net_short = [] ++ mkBranch 0 1 0 0 0 1 0 :: [] /\
  build_ybus net_short = Raise ZeroDivisionError.
Proof.
  split; [reflexivity|].
  apply (zero_impedance_branch_fails net_short [] [] (mkBranch 0 1 0 0 0 1 0));
    [reflexivity | reflexivity | reflexivity | constructor].
Defined.

(** C9 as stated fails: here the first branch leaves the bus range, and
    the builder raises its index error before it reaches the
    zero-impedance branch. *)
Lemma short_after_dangling_branch :
  (exists br, br ∈ branches net_short_after_dangling /\ br_r br = 0 /\ br_x br = 0) /\
  build_ybus net_short_after_dangling = Raise IndexError.
Proof.
  split.
  - exists (mkBranch 0 1 0 0 0 1 0). split; [|split; reflexivity].
    unfold net_short_after_dangling. cbn. set_solver.
  - unfold build_ybus, net_short_after_dangling, nbus. cbn [branches buses length foldM].
    rewrite add_branch_plain by (split; reflexivity).
    unfold add_branch_pi. cbn [br_r br_x br_i br_j br_b].
    rewrite py_cdiv_nonzero by (cbn; lra).
    rcbv. reflexivity.
Qed.

(** ** The monad of the solver *)

Lemma M_bind_eq {A B} (m : M A) (f : A -> M B) (s : store) :
  (m ≫= f) s =
    match m s with
    | (Raise e, s') => (Raise e, s')
    | (Ok a, s') => f a s'
    end.
Proof. reflexivity. Qed.

(** Unfolds the primitives of [M] in the goal. *)
Ltac unfoldM :=
  unfold mbind, M_bind, mret, M_ret, gets, lift, put_Vm, put_Va, put_Q_spec,
    put_PV_active, put_PV_conv.

Lemma keeps_ret {A} (a : A) : keeps_network (mret a : M A).
Proof. intros s. reflexivity. Qed.

Lemma keeps_lift {A} (r : res A) : keeps_network (lift r).
Proof. intros s. reflexivity. Qed.

Lemma keeps_gets {A} (f : store -> A) : keeps_network (gets f).
Proof. intros s. reflexivity. Qed.

Lemma keeps_put_Vm (v : list R) : keeps_network (put_Vm v).
Proof. intros s. reflexivity. Qed.

Lemma keeps_put_Va (v : list R) : keeps_network (put_Va v).
Proof. intros s. reflexivity. Qed.

Lemma keeps_put_Q_spec (v : list R) : keeps_network (put_Q_spec v).
Proof. intros s. reflexivity. Qed.

Lemma keeps_put_PV_active (X : gset Z) : keeps_network (put_PV_active X).
Proof. intros s. reflexivity. Qed.

Lemma keeps_put_PV_conv (X : gset Z) : keeps_network (put_PV_conv X).
Proof. intros s. reflexivity. Qed.

Lemma keeps_bind {A B} (m : M A) (f : A -> M B) :
  keeps_network m -> (forall a, keeps_network (f a)) -> keeps_network (m ≫= f).
Proof.
  intros Hm Hf s. rewrite M_bind_eq. specialize (Hm s).
  destruct (m s) as [[e|a] s']; cbn in *; [assumption|].
  rewrite Hf. assumption.
Qed.

Lemma keeps_forM_ {A} (l : list A) (body : A -> M unit) :
  (forall x, keeps_network (body x)) -> keeps_network (forM_ l body).
Proof.
  intros Hb. induction l as [|x l IH]; cbn.
  - apply keeps_ret.
  - apply keeps_bind; [apply Hb | intros _; exact IH].
Qed.

Create HintDb keeps.
#[local] Hint Resolve keeps_ret keeps_lift keeps_gets keeps_put_Vm keeps_put_Va
  keeps_put_Q_spec keeps_put_PV_active keeps_put_PV_conv : keeps.

Ltac keeps_step :=
  first
    [ solve [auto with keeps]
    | apply keeps_forM_; intros ?
    | apply keeps_bind; [|intros ?] ].

Lemma keeps_setup : keeps_network setup.
Proof. unfold setup. repeat keeps_step. Qed.

Lemma keeps_convert (k : Z) (lim : R) (b : Bus) : keeps_network (convert k lim b).
Proof. unfold convert. repeat keeps_step. Qed.

Lemma keeps_enforce_one (Q : list R) (k : Z) : keeps_network (enforce_one Q k).
Proof.
  unfold enforce_one. repeat keeps_step.
  match goal with v : option R |- _ => destruct v end;
    [apply keeps_convert | apply keeps_ret].
Qed.

#[local] Hint Resolve keeps_convert keeps_enforce_one : keeps.

Lemma keeps_enforce_limits (Q : list R) : keeps_network (enforce_limits Q).
Proof. unfold enforce_limits. repeat keeps_step. Qed.

#[local] Hint Resolve keeps_enforce_limits : keeps.

Lemma keeps_assess (e : env) : keeps_network (assess e).
Proof. unfold assess. repeat (cbv zeta; keeps_step). Qed.

Lemma keeps_reimpose_one (k : Z) : keeps_network (reimpose_one k).
Proof. unfold reimpose_one. repeat keeps_step. Qed.

#[local] Hint Resolve keeps_assess keeps_reimpose_one : keeps.

Lemma keeps_newton_update (e : env) (a : assessment) :
  keeps_network (newton_update e a).
Proof. unfold newton_update. repeat (cbv zeta; keeps_step). Qed.

Lemma keeps_iteration (cfg : LoadFlow) (e : env) (it : Z) :
  keeps_network (iteration cfg e it).
Proof.
  unfold iteration.
  apply keeps_bind; [apply keeps_assess | intros a].
  apply keeps_bind; [apply keeps_lift | intros mx].
  destruct (Rltb mx (tol cfg)).
  - repeat keeps_step.
  - apply keeps_bind; [apply keeps_newton_update | intros _; apply keeps_ret].
Qed.

Lemma keeps_loop (cfg : LoadFlow) (e : env) (fuel : nat) (it : Z)
    (last : option (list R * list R)) :
  keeps_network (loop cfg e fuel it last).
Proof.
  revert it last. induction fuel as [|fuel IH]; intros it last; cbn.
  - destruct last; repeat keeps_step.
  - apply keeps_bind; [apply keeps_iteration | intros [r|pw]].
    + apply keeps_ret.
    + apply IH.
Qed.

Lemma keeps_solve (cfg : LoadFlow) : keeps_network (solve cfg).
Proof.
  unfold solve. apply keeps_bind; [apply keeps_setup | intros e; apply keeps_loop].
Qed.


(** ** What a pass leaves in place *)

Lemma convert_run (k : Z) (lim : R) (b : Bus) (s : store) :
  let s1 := mkStore (network s) (Vm s) (Va s) (Q_spec s)
              (PV_active s ∖ {[k]}) (PV_conv s ∪ {[k]}) in
  convert k lim b s =
    match setitem (Q_spec s) k lim with
    | Raise e => (Raise e, s1)
    | Ok qs' =>
        (py_assert (bool_decide (bus_type b = PV)),
         mkStore (network s) (Vm s) (Va s) qs'
           (PV_active s ∖ {[k]}) (PV_conv s ∪ {[k]}))
    end.
Proof.
  cbv zeta. unfold convert. unfoldM. cbn.
  destruct (setitem (Q_spec s) k lim) as [e|qs']; reflexivity.
Qed.

Lemma enforce_one_run (Q : list R) (k : Z) (s : store) :
  enforce_one Q k s =
    match getitem (buses (network s)) k with
    | Raise e => (Raise e, s)
    | Ok b =>
        match violated_limit b Q k with
        | Raise e => (Raise e, s)
        | Ok None => (Ok tt, s)
        | Ok (Some lim) => convert k lim b s
        end
    end.
Proof.
  unfold enforce_one. unfoldM.
  destruct (getitem (buses (network s)) k) as [e|b]; [reflexivity|].
  destruct (violated_limit b Q k) as [e|[lim|]]; reflexivity.
Qed.

(** What one pass of the limit loop does to the store, whatever its
    outcome: nothing, or the move of [k] from one set to the other. *)
Lemma enforce_one_sets (Q : list R) (k : Z) (s : store) (r : res unit) (s' : store) :
  enforce_one Q k s = (r, s') ->
  network s' = network s /\ Vm s' = Vm s /\ Va s' = Va s /\
  ((PV_active s' = PV_active s /\ PV_conv s' = PV_conv s) \/
   (PV_active s' = PV_active s ∖ {[k]} /\ PV_conv s' = PV_conv s ∪ {[k]})).
Proof.
  rewrite enforce_one_run.
  destruct (getitem (buses (network s)) k) as [e|b]; [intros [= <- <-]; auto 6|].
  destruct (violated_limit b Q k) as [e|[lim|]];
    [intros [= <- <-]; auto 6 | | intros [= <- <-]; auto 6].
  rewrite convert_run. cbv zeta.
  destruct (setitem (Q_spec s) k lim) as [e|qs']; intros [= <- <-]; cbn; auto 6.
Qed.

Lemma forM_enforce_frame (Q : list R) (ks : list Z) (s : store) (r : res unit) (s' : store) :
  forM_ ks (enforce_one Q) s = (r, s') -> Vm s' = Vm s /\ Va s' = Va s.
Proof.
  revert s. induction ks as [|k ks IH]; intros s; cbn.
  - intros [= <- <-]. auto.
  - rewrite M_bind_eq. destruct (enforce_one Q k s) as [[e|[]] s1] eqn:E.
    + intros [= <- <-]. apply enforce_one_sets in E. tauto.
    + intros H. apply IH in H as [-> ->]. apply enforce_one_sets in E. tauto.
Qed.

Lemma assess_Ok (e : env) (s : store) (a : assessment) (s' : store) :
  assess e s = (Ok a, s') ->
  Vm s' = Vm s /\ Va s' = Va s /\
  a_P a = fst (injections (e_Y e) (Vm s) (Va s)) /\
  a_Q a = snd (injections (e_Y e) (Vm s) (Va s)) /\
  enforce_limits (a_Q a) s = (Ok tt, s') /\
  a_p_rows a = p_rows (e_n e) (e_slack e) /\
  a_q_rows a = q_rows (e_pq e) (PV_conv s') /\
  mismatch_vector (e_P_spec e) (Q_spec s') (a_P a) (a_Q a) (a_p_rows a) (a_q_rows a)
    = Ok (a_mismatch a).
Proof.
  unfold assess. unfoldM. cbv beta iota zeta.
  destruct (enforce_limits _ s) as [[e1|[]] s1] eqn:E; [discriminate|].
  destruct (mismatch_vector _ _ _ _ _ _) as [e2|mm] eqn:Em; [discriminate|].
  intros [= <- <-]. cbn [a_P a_Q a_p_rows a_q_rows a_mismatch].
  pose proof E as E'. unfold enforce_limits in E'. revert E'. unfoldM.
  intros E'. apply forM_enforce_frame in E' as [-> ->]. auto 10.
Qed.

(** A pass that neither returns nor raises. *)
Lemma iteration_continues (cfg : LoadFlow) (e : env) (it : Z) (s s' : store)
    (pw : list R * list R) :
  iteration cfg e it s = (Ok (inr pw), s') <->
  exists a s1 mx,
    assess e s = (Ok a, s1) /\ max_abs (a_mismatch a) = Ok mx /\
    ~ mx < tol cfg /\ newton_update e a s1 = (Ok tt, s') /\ pw = (a_P a, a_Q a).
Proof.
  unfold iteration. rewrite M_bind_eq.
  destruct (assess e s) as [[e1|a] s1].
  { split; [discriminate | intros (a & s2 & mx & [=] & _)]. }
  rewrite M_bind_eq. unfold lift at 1.
  destruct (max_abs (a_mismatch a)) as [e2|mx] eqn:Emx.
  { split; [discriminate | intros (a' & s2 & mx & [= <- <-] & H & _)]. congruence. }
  unfold Rltb. destruct (Rlt_dec mx (tol cfg)) as [Hlt|Hge].
  - split; [discriminate|]. intros (a' & s2 & mx' & [= <- <-] & H & Hn & _).
    rewrite Emx in H. injection H as <-. contradiction.
  - rewrite M_bind_eq.
    destruct (newton_update e a s1) as [[e3|[]] s2] eqn:En.
    + split; [discriminate|]. intros (a' & s3 & mx' & [= <- <-] & _ & _ & H & _). congruence.
    + split.
      * intros [= <- <-]. exists a, s1, mx. auto.
      * intros (a' & s3 & mx' & [= <- <-] & _ & _ & H & ->).
        rewrite En in H. injection H as <-. reflexivity.
Qed.

(** A pass that returns. *)
Lemma iteration_converges (cfg : LoadFlow) (e : env) (it : Z) (s s' : store)
    (r : LoadFlowResult) :
  iteration cfg e it s = (Ok (inl r), s') <->
  exists a mx,
    assess e s = (Ok a, s') /\ max_abs (a_mismatch a) = Ok mx /\ mx < tol cfg /\
    r = mkResult (Vm s') (Va s') (a_P a) (a_Q a) it true.
Proof.
  unfold iteration. rewrite M_bind_eq.
  destruct (assess e s) as [[e1|a] s1].
  { split; [discriminate | intros (a & mx & [=] & _)]. }
  rewrite M_bind_eq. unfold lift at 1.
  destruct (max_abs (a_mismatch a)) as [e2|mx] eqn:Emx.
  { split; [discriminate | intros (a' & mx & [= <- <-] & H & _)]. congruence. }
  unfold Rltb. destruct (Rlt_dec mx (tol cfg)) as [Hlt|Hge].
  - unfoldM. split.
    + intros [= <- <-]. exists a, mx. auto.
    + intros (a' & mx' & [= <- <-] & _ & _ & ->). reflexivity.
  - rewrite M_bind_eq.
    destruct (newton_update e a s1) as [[e3|[]] s2] eqn:En.
    + split; [discriminate|]. intros (a' & mx' & [= <- <-] & H & Hlt & _).
      rewrite Emx in H. injection H as <-. contradiction.
    + split; [discriminate|]. intros (a' & mx' & [= <- <-] & H & Hlt & _).
      rewrite Emx in H. injection H as <-. contradiction.
Qed.

(** ** The loop *)

Lemma loop_passes (cfg : LoadFlow) (e : env) (k rest : nat) :
  forall (it : Z) (s : store) (last : option (list R * list R))
         (s' : store) (last' : option (list R * list R)),
    passes cfg e k it s last = Some (s', last') ->
    loop cfg e (k + rest) it last s = loop cfg e rest (it + Z.of_nat k)%Z last' s'.
Proof.
  induction k as [|k IH]; intros it s last s' last' H; cbn in H.
  - injection H as <- <-. cbn. rewrite Z.add_0_r. reflexivity.
  - cbn [Nat.add loop]. rewrite M_bind_eq.
    destruct (iteration cfg e it s) as [[e1|[r|pw]] s1]; try discriminate.
    rewrite (IH _ _ _ _ _ H). f_equal. lia.
Qed.

Lemma passes_snoc (cfg : LoadFlow) (e : env) (k : nat) :
  forall (it : Z) (s : store) (last : option (list R * list R))
         (s' : store) (last' : option (list R * list R)),
    passes cfg e (S k) it s last = Some (s', last') ->
    exists s1 l1 pw,
      passes cfg e k it s last = Some (s1, l1) /\
      iteration cfg e (it + Z.of_nat k)%Z s1 = (Ok (inr pw), s') /\
      last' = Some pw.
Proof.
  induction k as [|k IH]; intros it s last s' last' H.
  - cbn in H. destruct (iteration cfg e it s) as [[e1|[r|pw]] s1] eqn:E; try discriminate.
    injection H as <- <-. exists s, last, pw. cbn. rewrite Z.add_0_r. auto.
  - change (passes cfg e (S (S k)) it s last)
      with (match iteration cfg e it s with
            | (Ok (inr pw), s') => passes cfg e (S k) (it + 1)%Z s' (Some pw)
            | _ => None
            end) in H.
    destruct (iteration cfg e it s) as [[e1|[r|pw]] s1] eqn:E; try discriminate.
    apply IH in H as (s2 & l2 & pw' & H2 & Hit & ->).
    exists s2, l2, pw'. change (passes cfg e (S k) it s last)
      with (match iteration cfg e it s with
            | (Ok (inr pw), s') => passes cfg e k (it + 1)%Z s' (Some pw)
            | _ => None
            end).
    rewrite E. split; [assumption|].
    split; [|reflexivity]. rewrite <- Hit. f_equal. lia.
Qed.

Lemma loop_end (cfg : LoadFlow) (e : env) (it : Z) (pw : list R * list R) (s : store) :
  loop cfg e 0 it (Some pw) s =
    (Ok (mkResult (Vm s) (Va s) (fst pw) (snd pw) (max_iter cfg) false), s).
Proof. reflexivity. Qed.

(** ** Non-negative mismatch norm *)

Lemma foldl_Rmax_ge (l : list R) (x : R) : x <= foldl Rmax x l.
Proof.
  revert x. induction l as [|y l IH]; intros x; cbn; [lra|].
  eapply Rle_trans; [apply (Rmax_l x y) | apply IH].
Qed.

Lemma max_abs_nonneg (m : list R) (mx : R) : max_abs m = Ok mx -> 0 <= mx.
Proof.
  unfold max_abs, np_max. destruct m as [|x m]; cbn; [discriminate|].
  intros [= <-]. eapply Rle_trans; [apply Rabs_pos | apply foldl_Rmax_ge].
Qed.

Lemma loop_never_converges (cfg : LoadFlow) (e : env) (fuel : nat) :
  tol cfg <= 0 ->
  forall (it : Z) (last : option (list R * list R)) (s s' : store) (r : LoadFlowResult),
    loop cfg e fuel it last s = (Ok r, s') ->
    converged r = false /\ iterations r = max_iter cfg.
Proof.
  intros Htol. induction fuel as [|fuel IH]; intros it last s s' r H.
  - cbn in H. destruct last as [pw|]; [|discriminate].
    cbn in H. injection H as <- <-. auto.
  - cbn [loop] in H. rewrite M_bind_eq in H.
    destruct (iteration cfg e it s) as [[e1|[r1|pw]] s1] eqn:E; [discriminate| |].
    + apply iteration_converges in E as (a & mx & _ & Hmx & Hlt & _).
      apply max_abs_nonneg in Hmx. lra.
    + eapply IH; eassumption.
Qed.

(** ** Setup *)

Lemma setup_run (s : store) :
  setup s =
    match build_ybus (network s) with
    | Raise e => (Raise e, s)
    | Ok Y =>
        match slack_index (network s) with
        | Raise e => (Raise e, s)
        | Ok slack =>
            (Ok (mkEnv Y (map (map Cre) Y) (map (map Cim) Y) (nbus (network s)) slack
                   (pq_indices (network s)) (bus_P <$> buses (network s))),
             mkStore (network s)
               (bus_V <$> buses (network s))
               ((fun b => deg2rad (bus_theta_deg b)) <$> buses (network s))
               ((fun b => if decide (bus_type b = PQ) then bus_Q b else 0)
                  <$> buses (network s))
               (list_to_set (pv_indices (network s))) ∅)
        end
    end.
Proof.
  unfold setup. unfoldM.
  destruct (build_ybus (network s)) as [e|Y]; [reflexivity|].
  destruct (slack_index (network s)) as [e|slack]; reflexivity.
Qed.

(** ** Claims on the loop *)

(** C1: at the first iteration whose mismatch vector [[dP; dQ]] has a
    maximum absolute entry strictly below the tolerance, [solve] stops
    and returns [converged = True] with [iterations] equal to the
    0-based index [k] of that iteration, the number of Newton updates
    completed before; for [k = 0] this is a network whose initial state
    already satisfies the tolerance. *)
Theorem convergence_reports_iteration_index
    (cfg : LoadFlow) (net : Network) (e : env) (s0 : store)
    (k : nat) (sk : store) (lastk : option (list R * list R))
    (a : assessment) (sk' : store) (mx : R) :
  setup (frame net) = (Ok e, s0) ->
  passes cfg e k 0 s0 None = Some (sk, lastk) ->
  (Z.of_nat k < max_iter cfg)%Z ->
  assess e sk = (Ok a, sk') ->
  max_abs (a_mismatch a) = Ok mx ->
  mx < tol cfg ->
  LoadFlow_solve cfg net =
    Ok (mkResult (Vm sk) (Va sk) (a_P a) (a_Q a) (Z.of_nat k) true).
Proof.
  intros Hsetup Hpasses Hk Hassess Hmx Hlt.
  unfold LoadFlow_solve, solve. rewrite M_bind_eq, Hsetup.
  assert (exists rest, Z.to_nat (max_iter cfg) = (k + S rest)%nat) as [rest ->].
  { exists (Z.to_nat (max_iter cfg) - S k)%nat. lia. }
  rewrite (loop_passes _ _ _ _ _ _ _ _ _ Hpasses).
  cbn [loop]. rewrite M_bind_eq.
  assert (iteration cfg e (0 + Z.of_nat k) sk =
            (Ok (inl (mkResult (Vm sk') (Va sk') (a_P a) (a_Q a) (0 + Z.of_nat k) true)), sk'))
    as ->.
  { apply iteration_converges. exists a, mx. auto. }
  apply assess_Ok in Hassess as (-> & -> & _). reflexivity.
Qed.


(** C5 (as amended): neither [LoadFlow.__init__] nor [solve] checks the
    configuration.  With a non-positive maximum iteration count [solve]
    raises without running an iteration: the exception of the setup, or
    the unbound [P] of the final return.  A non-positive tolerance is
    not rejected: [solve] iterates with it and never reports
    convergence, so whenever it returns, it returns [converged = False]
    with [iterations = max_iter]. *)
Theorem nonpositive_configuration_not_checked (cfg : LoadFlow) (net : Network) :
  tol cfg <= 0 \/ (max_iter cfg <= 0)%Z ->
  LoadFlow_init (tol cfg) (max_iter cfg) (verbose cfg) = Ok cfg /\
  ((max_iter cfg <= 0)%Z ->
   exists ex, LoadFlow_solve cfg net = Raise ex /\
              (ex = UnboundLocalError \/ fst (setup (frame net)) = Raise ex)) /\
  (tol cfg <= 0 ->
   forall r, LoadFlow_solve cfg net = Ok r ->
             converged r = false /\ iterations r = max_iter cfg).
Proof.
  intros _. split; [destruct cfg; reflexivity|]. split.
  - intros Hle. unfold LoadFlow_solve, solve. rewrite M_bind_eq.
    destruct (setup (frame net)) as [[ex|e] s0].
    + exists ex. auto.
    + replace (Z.to_nat (max_iter cfg)) with 0%nat by lia.
      exists UnboundLocalError. auto.
  - intros Htol r. unfold LoadFlow_solve, solve. rewrite M_bind_eq.
    destruct (setup (frame net)) as [[ex|e] s0]; [discriminate|].
    destruct (loop cfg e _ 0 None s0) as [r' s'] eqn:E. cbn. intros ->.
    eapply loop_never_converges; eassumption.
Qed.

(** ** Evaluating the phases *)

Lemma enforce_limits_empty (Q : list R) (s : store) :
  PV_active s = ∅ -> enforce_limits Q s = (Ok tt, s).
Proof.
  intros H. unfold enforce_limits. unfoldM. rewrite H, elements_empty. reflexivity.
Qed.

Lemma enforce_limits_free (Q : list R) (s : store) (k : Z) (b : Bus) :
  PV_active s = {[k]} ->
  getitem (buses (network s)) k = Ok b ->
  bus_Qmin b = None -> bus_Qmax b = None ->
  enforce_limits Q s = (Ok tt, s).
Proof.
  intros H Hb Hmin Hmax. unfold enforce_limits. unfoldM.
  rewrite H, elements_singleton. cbn [forM_]. unfoldM.
  rewrite enforce_one_run, Hb. unfold violated_limit, limit_check.
  rewrite Hmin, Hmax. reflexivity.
Qed.

Lemma assess_run (e : env) (s s1 : store) (mm : list R) :
  enforce_limits (snd (injections (e_Y e) (Vm s) (Va s))) s = (Ok tt, s1) ->
  mismatch_vector (e_P_spec e) (Q_spec s1)
    (fst (injections (e_Y e) (Vm s) (Va s))) (snd (injections (e_Y e) (Vm s) (Va s)))
    (p_rows (e_n e) (e_slack e)) (q_rows (e_pq e) (PV_conv s1)) = Ok mm ->
  assess e s =
    (Ok (mkAssessment (fst (injections (e_Y e) (Vm s) (Va s)))
           (snd (injections (e_Y e) (Vm s) (Va s)))
           (p_rows (e_n e) (e_slack e)) (q_rows (e_pq e) (PV_conv s1)) mm), s1).
Proof.
  intros He Hm. unfold assess. unfoldM. cbv beta iota zeta.
  rewrite He, Hm. reflexivity.
Qed.

Lemma newton_update_run (e : env) (a : assessment) (s : store)
    (J : list (list R)) (dx va' vm' : list R) :
  jacobian (mkJacInput (e_G e) (e_B e) (Vm s) (Va s) (a_P a) (a_Q a))
    (a_p_rows a) (a_q_rows a) = Ok J ->
  linalg_solve J (a_mismatch a) = Ok dx ->
  fancy_iadd (Va s) (a_p_rows a) (take (length (a_p_rows a)) dx) = Ok va' ->
  fancy_iadd (Vm s) (a_q_rows a) (drop (length (a_p_rows a)) dx) = Ok vm' ->
  newton_update e a s =
    forM_ (elements (PV_active s)) reimpose_one
      (mkStore (network s) vm' va' (Q_spec s) (PV_active s) (PV_conv s)).
Proof.
  intros HJ Hdx Hva Hvm. unfold newton_update. unfoldM. cbv beta iota zeta.
  rewrite HJ, Hdx, Hva, Hvm. reflexivity.
Qed.

Lemma reimpose_singleton (s : store) (k : Z) (b : Bus) (vm' : list R) :
  PV_active s = {[k]} ->
  getitem (buses (network s)) k = Ok b ->
  setitem (Vm s) k (bus_V b) = Ok vm' ->
  forM_ (elements (PV_active s)) reimpose_one s =
    (Ok tt, mkStore (network s) vm' (Va s) (Q_spec s) (PV_active s) (PV_conv s)).
Proof.
  intros H Hb Hset. rewrite H, elements_singleton. cbn [forM_].
  unfold reimpose_one. unfoldM. rewrite Hb, Hset, H. reflexivity.
Qed.

Lemma newton_update_singleton (e : env) (a : assessment) (s : store)
    (J : list (list R)) (dx va' vm' : list R) (k : Z) (b : Bus) (vm'' : list R) :
  jacobian (mkJacInput (e_G e) (e_B e) (Vm s) (Va s) (a_P a) (a_Q a))
    (a_p_rows a) (a_q_rows a) = Ok J ->
  linalg_solve J (a_mismatch a) = Ok dx ->
  fancy_iadd (Va s) (a_p_rows a) (take (length (a_p_rows a)) dx) = Ok va' ->
  fancy_iadd (Vm s) (a_q_rows a) (drop (length (a_p_rows a)) dx) = Ok vm' ->
  PV_active s = {[k]} ->
  getitem (buses (network s)) k = Ok b ->
  setitem vm' k (bus_V b) = Ok vm'' ->
  newton_update e a s =
    (Ok tt, mkStore (network s) vm'' va' (Q_spec s) (PV_active s) (PV_conv s)).
Proof.
  intros HJ Hdx Hva Hvm Hact Hb Hset.
  rewrite (newton_update_run _ _ _ _ _ _ _ HJ Hdx Hva Hvm).
  exact (reimpose_singleton
           (mkStore (network s) vm' va' (Q_spec s) (PV_active s) (PV_conv s))
           k b vm'' Hact Hb Hset).
Qed.

(** The loop, once the iteration that converges is known. *)
Lemma loop_converges (cfg : LoadFlow) (e : env) (k rest : nat) (s0 sk sk' : store)
    (lastk : option (list R * list R)) (a : assessment) (mx : R) :
  passes cfg e k 0 s0 None = Some (sk, lastk) ->
  assess e sk = (Ok a, sk') ->
  max_abs (a_mismatch a) = Ok mx ->
  mx < tol cfg ->
  loop cfg e (k + S rest) 0 None s0 =
    (Ok (mkResult (Vm sk) (Va sk) (a_P a) (a_Q a) (Z.of_nat k) true), sk').
Proof.
  intros Hpasses Hassess Hmx Hlt.
  rewrite (loop_passes _ _ _ _ _ _ _ _ _ Hpasses).
  cbn [loop]. rewrite M_bind_eq.
  assert (iteration cfg e (0 + Z.of_nat k) sk =
            (Ok (inl (mkResult (Vm sk') (Va sk') (a_P a) (a_Q a) (0 + Z.of_nat k) true)), sk'))
    as ->.
  { apply iteration_converges. exists a, mx. auto. }
  apply assess_Ok in Hassess as (-> & -> & _). reflexivity.
Qed.

(** ** The flat start on the lossless line *)

Lemma deg2rad_0 : deg2rad 0 = 0.
Proof. unfold deg2rad. lra. Qed.

Lemma phasor_flat (m : R) : Cmul (RtoC m) (Cexp (Cmul Cj (RtoC 0))) = (m, 0).
Proof.
  unfold Cmul, Cexp, Cj, RtoC. cbn.
  replace (0 * 0 - 1 * 0) with 0 by lra.
  replace (0 * 0 + 1 * 0) with 0 by lra.
  rewrite exp_0, cos_0, sin_0. f_equal; lra.
Qed.

Lemma injections_flat :
  injections Y_line01 [1; 1] [0; 0] = ([0; 0], [0; 0]).
Proof.
  unfold injections, phasors. cbn [zip_with]. rewrite !phasor_flat.
  rcbv. repeat f_equal; lra.
Qed.

Lemma max_abs_zeros2 : max_abs [0 - 0; 0 - 0] = Ok 0.
Proof.
  unfold max_abs, np_max. cbn. replace (0 - 0) with 0 by lra.
  rewrite Rabs_R0, Rmax_left by lra. reflexivity.
Qed.

Lemma max_abs_zeros3 : max_abs [0 - 0; 0 - 0; 0 - 0] = Ok 0.
Proof.
  unfold max_abs, np_max. cbn. replace (0 - 0) with 0 by lra.
  rewrite Rabs_R0. repeat (rewrite (Rmax_left 0 0) by lra). reflexivity.
Qed.

Lemma max_abs_one : max_abs [1 - 0] = Ok 1.
Proof.
  unfold max_abs, np_max. cbn. replace (1 - 0) with 1 by lra.
  rewrite Rabs_R1. reflexivity.
Qed.

(** Unfolds the example stores and environments in a flat-start goal. *)
Ltac flat_start :=
  cbn [e_Y e_G e_B e_n e_slack e_pq e_P_spec line_env
       network Vm Va Q_spec PV_active PV_conv flat_store];
  rewrite ?injections_flat; cbn [fst snd].

Lemma setup_idle :
  setup (frame net_idle) =
    (Ok (line_env 0 [1%Z] [0; 0]), flat_store net_idle [0; 0] ∅).
Proof.
  rewrite setup_run. cbn [network frame].
  rewrite build_ybus_line01 by reflexivity.
  cbn. rewrite !deg2rad_0. reflexivity.
Qed.

Lemma assess_idle :
  assess (line_env 0 [1%Z] [0; 0]) (flat_store net_idle [0; 0] ∅) =
    (Ok (mkAssessment [0; 0] [0; 0] [1%Z] [1%Z] [0 - 0; 0 - 0]),
     flat_store net_idle [0; 0] ∅).
Proof.
  erewrite assess_run.
  - flat_start. do 3 f_equal.
  - apply enforce_limits_empty. reflexivity.
  - flat_start.
    replace (q_rows [1%Z] ∅) with [1%Z] by (vm_compute; reflexivity).
    replace (p_rows 2 0) with [1%Z] by (vm_compute; reflexivity).
    rcbv. reflexivity.
Qed.

Lemma setup_gen :
  setup (frame net_gen) =
    (Ok (line_env 0 [] [0; 1]), flat_store net_gen [0; 0] {[1%Z]}).
Proof.
  rewrite setup_run. cbn [network frame].
  rewrite build_ybus_line01 by reflexivity.
  cbn. rewrite !deg2rad_0. reflexivity.
Qed.

Lemma assess_gen :
  assess (line_env 0 [] [0; 1]) (flat_store net_gen [0; 0] {[1%Z]}) =
    (Ok (mkAssessment [0; 0] [0; 0] [1%Z] [] [1 - 0]),
     flat_store net_gen [0; 0] {[1%Z]}).
Proof.
  erewrite assess_run.
  - flat_start. do 3 f_equal.
  - eapply (enforce_limits_free _ _ 1%Z); reflexivity.
  - flat_start.
    replace (q_rows [] ∅) with (@nil Z) by (vm_compute; reflexivity).
    replace (p_rows 2 0) with [1%Z] by (vm_compute; reflexivity).
    rcbv. reflexivity.
Qed.

Lemma newton_update_gen :
  newton_update (line_env 0 [] [0; 1]) (mkAssessment [0; 0] [0; 0] [1%Z] [] [1 - 0])
    (flat_store net_gen [0; 0] {[1%Z]}) =
  (Ok tt, mkStore net_gen [1; 1] [0; 1] [0; 0] {[1%Z]} ∅).
Proof.
  eapply eq_trans.
  { eapply (newton_update_singleton _ _ _ _ _ _ _ 1%Z).
    - rcbv. reflexivity.
    - unfold linalg_solve. cbn [a_mismatch length zip_with app gauss find_pivot].
      rewrite Reqb_false by lra. cbn. reflexivity.
    - rcbv. reflexivity.
    - rcbv. reflexivity.
    - reflexivity.
    - reflexivity.
    - rcbv. reflexivity. }
  cbn. repeat f_equal. field.
Qed.

(** One pass on [net_gen], for any tolerance that the mismatch of 1 p.u.
    does not satisfy. *)
Lemma passes_gen (t : R) (v : bool) :
  t <= 1 ->
  passes (mkLoadFlow t 1 v) (line_env 0 [] [0; 1]) 1 0
    (flat_store net_gen [0; 0] {[1%Z]}) None =
  Some (mkStore net_gen [1; 1] [0; 1] [0; 0] {[1%Z]} ∅, Some ([0; 0], [0; 0])).
Proof.
  intros Ht. cbn [passes].
  assert (iteration (mkLoadFlow t 1 v) (line_env 0 [] [0; 1]) 0
            (flat_store net_gen [0; 0] {[1%Z]}) =
          (Ok (inr ([0; 0], [0; 0])), mkStore net_gen [1; 1] [0; 1] [0; 0] {[1%Z]} ∅))
    as ->; [|reflexivity].
  apply iteration_continues.
  exists (mkAssessment [0; 0] [0; 0] [1%Z] [] [1 - 0]),
    (flat_store net_gen [0; 0] {[1%Z]}), 1.
  split; [apply assess_gen|]. split; [apply max_abs_one|].
  split; [cbn; lra|]. split; [apply newton_update_gen | reflexivity].
Qed.

Lemma solve_gen_one_pass (t : R) (v : bool) :
  t <= 1 ->
  LoadFlow_solve (mkLoadFlow t 1 v) net_gen =
    Ok (mkResult [1; 1] [0; 1] [0; 0] [0; 0] 1 false).
Proof.
  intros Ht. unfold LoadFlow_solve, solve. rewrite M_bind_eq, setup_gen.
  change (Z.to_nat (max_iter (mkLoadFlow t 1 v))) with (1 + 0)%nat.
  rewrite (loop_passes _ _ _ _ _ _ _ _ _ (passes_gen t v Ht)), loop_end.
  reflexivity.
Qed.

Lemma tol_default_pos : 0 < tol cfg_default.
Proof. unfold cfg_default. cbn [tol]. lra. Qed.

Lemma convergence_reports_iteration_index_witness :
  setup (frame net_idle) =
    (Ok (line_env 0 [1%Z] [0; 0]), flat_store net_idle [0; 0] ∅) /\
  (Z.of_nat 0 < max_iter cfg_default)%Z /\
  0 < tol cfg_default /\
  LoadFlow_solve cfg_default net_idle = Ok (flat_result 0 true).
Proof.
  split; [apply setup_idle|]. split; [reflexivity|].
  pose proof tol_default_pos as Htol.
  split; [exact Htol|].
  exact (convergence_reports_iteration_index cfg_default net_idle _ _ 0 _ None _ _ 0
           setup_idle eq_refl eq_refl assess_idle max_abs_zeros2 Htol).
Defined.


Lemma nonpositive_configuration_not_checked_witness :
  (tol cfg_zero_tol <= 0 \/ (max_iter cfg_zero_tol <= 0)%Z) /\
  LoadFlow_init 0 1 false = Ok cfg_zero_tol /\
  forall r, LoadFlow_solve cfg_zero_tol net_gen = Ok r ->
            converged r = false /\ iterations r = 1%Z.
Proof.
  assert (tol cfg_zero_tol <= 0) as Ht by (cbn; lra).
  split; [left; exact Ht|].
  destruct (nonpositive_configuration_not_checked cfg_zero_tol net_gen (or_introl Ht))
    as (Hinit & _ & Hsolve).
  split; [exact Hinit | exact (Hsolve Ht)].
Defined.

(** C5 as stated fails: a tolerance of zero is stored by the constructor
    and [solve] runs with it: on [net_gen] it performs a Newton update
    (the angle of bus 1 moves from 0 to 1) and returns a result. *)
Lemma zero_tolerance_is_accepted :
  tol cfg_zero_tol <= 0 /\
  LoadFlow_init 0 1 false = Ok cfg_zero_tol /\
  LoadFlow_solve cfg_zero_tol net_gen =
    Ok (mkResult [1; 1] [0; 1] [0; 0] [0; 0] 1 false).
Proof.
  split; [cbn; lra|]. split; [reflexivity|].
  apply solve_gen_one_pass. lra.
Qed.

(** ** Indices that are not positions *)

Lemma setup_far_slack :
  setup (frame net_far_slack) =
    (Ok (line_env 5 [1%Z] [0; 0]), flat_store net_far_slack [0; 0] ∅).
Proof.
  rewrite setup_run. cbn [network frame].
  rewrite build_ybus_line01 by reflexivity.
  cbn. rewrite !deg2rad_0. reflexivity.
Qed.

Lemma assess_far_slack :
  assess (line_env 5 [1%Z] [0; 0]) (flat_store net_far_slack [0; 0] ∅) =
    (Ok (mkAssessment [0; 0] [0; 0] [0%Z; 1%Z] [1%Z] [0 - 0; 0 - 0; 0 - 0]),
     flat_store net_far_slack [0; 0] ∅).
Proof.
  erewrite assess_run.
  - flat_start. do 3 f_equal.
  - apply enforce_limits_empty. reflexivity.
  - flat_start.
    replace (q_rows [1%Z] ∅) with [1%Z] by (vm_compute; reflexivity).
    replace (p_rows 2 5) with [0%Z; 1%Z] by (vm_compute; reflexivity).
    rcbv. reflexivity.
Qed.

Lemma solve_far_slack :
  LoadFlow_solve cfg_default net_far_slack = Ok (flat_result 0 true).
Proof.
  unfold LoadFlow_solve, solve. rewrite M_bind_eq, setup_far_slack.
  change (Z.to_nat (max_iter cfg_default)) with (0 + S 99)%nat.
  rewrite (loop_converges cfg_default _ 0 99 _ _ _ None _ 0
             eq_refl assess_far_slack max_abs_zeros3 tol_default_pos).
  reflexivity.
Qed.

Lemma setup_swapped :
  setup (frame net_swapped) =
    (Ok (line_env 0 [1%Z] [- (1 / 2); 0]),
     flat_store net_swapped [- (1 / 5); 0] ∅).
Proof.
  rewrite setup_run. cbn [network frame].
  rewrite build_ybus_line01 by reflexivity.
  cbn. rewrite !deg2rad_0. reflexivity.
Qed.

Lemma assess_swapped :
  assess (line_env 0 [1%Z] [- (1 / 2); 0]) (flat_store net_swapped [- (1 / 5); 0] ∅) =
    (Ok (mkAssessment [0; 0] [0; 0] [1%Z] [1%Z] [0 - 0; 0 - 0]),
     flat_store net_swapped [- (1 / 5); 0] ∅).
Proof.
  erewrite assess_run.
  - flat_start. do 3 f_equal.
  - apply enforce_limits_empty. reflexivity.
  - flat_start.
    replace (q_rows [1%Z] ∅) with [1%Z] by (vm_compute; reflexivity).
    replace (p_rows 2 0) with [1%Z] by (vm_compute; reflexivity).
    rcbv. reflexivity.
Qed.

Lemma solve_swapped :
  LoadFlow_solve cfg_default net_swapped = Ok (flat_result 0 true).
Proof.
  unfold LoadFlow_solve, solve. rewrite M_bind_eq, setup_swapped.
  change (Z.to_nat (max_iter cfg_default)) with (0 + S 99)%nat.
  rewrite (loop_converges cfg_default _ 0 99 _ _ _ None _ 0
             eq_refl assess_swapped max_abs_zeros2 tol_default_pos).
  reflexivity.
Qed.

(** ** The limit test *)

Lemma limit_check_Some (lim : option R) (test : R -> R -> bool) (Q : list R) (k : Z) (l : R) :
  limit_check lim test Q k = Ok (Some l) ->
  lim = Some l /\ exists q, getitem Q k = Ok q /\ test q l = true.
Proof.
  unfold limit_check. destruct lim as [l'|]; [|discriminate].
  destruct (getitem Q k) as [e|q]; cbn; [discriminate|].
  destruct (test q l') eqn:E; [|discriminate].
  intros [= <-]. eauto.
Qed.

Lemma limit_check_None (lim : option R) (test : R -> R -> bool) (Q : list R) (k : Z) :
  limit_check lim test Q k = Ok None ->
  forall l q, lim = Some l -> getitem Q k = Ok q -> test q l = false.
Proof.
  unfold limit_check. destruct lim as [l'|]; [|discriminate].
  destruct (getitem Q k) as [e|q']; cbn; [discriminate|].
  destruct (test q' l') eqn:E; [discriminate|].
  intros _ l q [= <-] [= <-]. exact E.
Qed.

Lemma violated_limit_Some (b : Bus) (Q : list R) (k : Z) (lim : R) :
  violated_limit b Q k = Ok (Some lim) ->
  exists q, getitem Q k = Ok q /\ trigger b q /\ violated b q lim.
Proof.
  unfold violated_limit.
  destruct (limit_check (bus_Qmin b) Rltb Q k) as [e|[l|]] eqn:E1; cbn; [discriminate| |].
  - intros [= <-]. apply limit_check_Some in E1 as (Hmin & q & Hq & Ht).
    apply Rltb_spec in Ht. exists q. split; [assumption|].
    split; [left; eauto | left; auto].
  - intros E2. apply limit_check_Some in E2 as (Hmax & q & Hq & Ht).
    apply Rltb_spec in Ht. exists q. split; [assumption|].
    split; [right; exists lim; split; [assumption | lra] | right; split; [assumption | lra]].
Qed.

Lemma violated_limit_None (b : Bus) (Q : list R) (k : Z) :
  violated_limit b Q k = Ok None ->
  forall q, getitem Q k = Ok q -> ~ trigger b q.
Proof.
  unfold violated_limit.
  destruct (limit_check (bus_Qmin b) Rltb Q k) as [e|[l|]] eqn:E1; cbn; try discriminate.
  intros E2 q Hq [(l & Hl & Hlt) | (l & Hl & Hgt)].
  - pose proof (limit_check_None _ _ _ _ E1 l q Hl Hq) as Hf.
    rewrite (Rltb_true _ _ Hlt) in Hf. discriminate.
  - pose proof (limit_check_None _ _ _ _ E2 l q Hl Hq) as Hf. cbn in Hf.
    rewrite Rltb_true in Hf by lra. discriminate.
Qed.

(** The pass of the limit loop for [k], when it does not raise. *)
Lemma enforce_one_Ok (Q : list R) (k : Z) (s s' : store) :
  enforce_one Q k s = (Ok tt, s') ->
  exists b,
    getitem (buses (network s)) k = Ok b /\
    ((exists q lim,
        getitem Q k = Ok q /\ trigger b q /\ violated b q lim /\
        PV_active s' = PV_active s ∖ {[k]} /\
        PV_conv s' = PV_conv s ∪ {[k]} /\
        getitem (Q_spec s') k = Ok lim) \/
     ((forall q, getitem Q k = Ok q -> ~ trigger b q) /\ s' = s)).
Proof.
  rewrite enforce_one_run.
  destruct (getitem (buses (network s)) k) as [e|b]; [discriminate|].
  exists b. split; [reflexivity|].
  destruct (violated_limit b Q k) as [e|[lim|]] eqn:E; [discriminate| |].
  - left. apply violated_limit_Some in E as (q & Hq & Ht & Hv).
    exists q, lim. rewrite convert_run in H. cbv zeta in H.
    destruct (setitem (Q_spec s) k lim) as [e|qs'] eqn:Es; [discriminate|].
    injection H as _ <-. cbn. repeat split; try assumption.
    eapply getitem_setitem; eassumption.
  - right. injection H as <-. split; [|reflexivity].
    apply violated_limit_None. assumption.
Qed.

(** ** The two sets along a run *)

Lemma reimpose_frame (l : list Z) (s : store) (r : res unit) (s' : store) :
  forM_ l reimpose_one s = (r, s') ->
  network s' = network s /\ PV_active s' = PV_active s /\
  PV_conv s' = PV_conv s /\ Q_spec s' = Q_spec s.
Proof.
  revert s. induction l as [|k l IH]; intros s; cbn [forM_].
  - unfoldM. intros [= <- <-]. auto.
  - rewrite M_bind_eq. unfold reimpose_one at 1. unfoldM.
    destruct (getitem (buses (network s)) k) as [e|b]; [intros [= <- <-]; auto|].
    destruct (setitem (Vm s) k (bus_V b)) as [e|vm']; [intros [= <- <-]; auto|].
    intros H. apply IH in H. cbn in H. exact H.
Qed.

Lemma newton_update_frame (e : env) (a : assessment) (s : store) (r : res unit) (s' : store) :
  newton_update e a s = (r, s') ->
  network s' = network s /\ PV_active s' = PV_active s /\
  PV_conv s' = PV_conv s /\ Q_spec s' = Q_spec s.
Proof.
  unfold newton_update. unfoldM. cbv beta iota zeta.
  destruct (jacobian _ _ _) as [e1|J]; [intros [= <- <-]; auto|].
  destruct (linalg_solve _ _) as [e1|dx]; [intros [= <- <-]; auto|].
  destruct (fancy_iadd (Va s) _ _) as [e1|va']; [intros [= <- <-]; auto|].
  destruct (fancy_iadd (Vm s) _ _) as [e1|vm']; [intros [= <- <-]; auto|].
  intros H. apply reimpose_frame in H. cbn in H. exact H.
Qed.

Lemma solve_step_sets (e : env) (s s' : store) :
  solve_step e s s' ->
  network s' = network s /\
  ((PV_active s' = PV_active s /\ PV_conv s' = PV_conv s) \/
   (exists k, k ∈ PV_active s /\
              PV_active s' = PV_active s ∖ {[k]} /\ PV_conv s' = PV_conv s ∪ {[k]})).
Proof.
  intros [s1 k r s1' Hk H | s1 a r s1' H].
  - apply enforce_one_sets in H as (Hn & _ & _ & [H | H]); split; eauto.
  - apply newton_update_frame in H as (Hn & Ha & Hc & _). auto.
Qed.

Lemma solve_step_inv (e : env) (pv0 : gset Z) (s s' : store) :
  PV_inv pv0 s -> solve_step e s s' -> PV_inv pv0 s' /\ PV_le s s'.
Proof.
  intros [Hd Hu] Hstep.
  apply solve_step_sets in Hstep as (_ & [[Ha Hc] | (k & Hk & Ha & Hc)]);
    unfold PV_inv, PV_le; rewrite Ha, Hc.
  - set_solver.
  - split; [split|]; [set_solver | | set_solver].
    rewrite <- Hu. apply set_eq. intros x.
    destruct (decide (x = k)) as [->|]; set_solver.
Qed.

Lemma rtc_solve_step_inv (e : env) (pv0 : gset Z) (s s' : store) :
  PV_inv pv0 s -> rtc (solve_step e) s s' ->
  PV_inv pv0 s' /\ PV_le s s' /\ network s' = network s.
Proof.
  intros Hinv Hrtc. induction Hrtc as [s|s s1 s2 Hstep _ IH].
  - split; [assumption|]. split; [split; reflexivity | reflexivity].
  - destruct (solve_step_inv _ _ _ _ Hinv Hstep) as [Hinv1 [Ha Hc]].
    destruct (IH Hinv1) as (Hinv2 & [Ha' Hc'] & Hn).
    split; [assumption|]. split; [split; set_solver|].
    rewrite Hn. apply solve_step_sets in Hstep. tauto.
Qed.

(** ** The run of [solve] as a sequence of steps *)

Lemma forM_enforce_steps (e : env) (Q : list R) (ks : list Z) :
  forall (s : store) (r : res unit) (s' : store),
    Q = snd (injections (e_Y e) (Vm s) (Va s)) ->
    NoDup ks -> (forall k, k ∈ ks -> k ∈ PV_active s) ->
    forM_ ks (enforce_one Q) s = (r, s') ->
    rtc (solve_step e) s s'.
Proof.
  induction ks as [|k ks IH]; intros s r s' HQ Hnd Hin; cbn [forM_].
  - unfoldM. intros [= <- <-]. constructor.
  - rewrite M_bind_eq. destruct (enforce_one Q k s) as [r1 s1] eqn:E.
    assert (solve_step e s s1) as Hstep.
    { apply (step_enforce e s k r1 s1); [apply Hin; set_solver|]. rewrite <- HQ. exact E. }
    apply NoDup_cons in Hnd as [Hk Hnd].
    destruct r1 as [e1|[]].
    + intros [= <- <-]. eapply rtc_l; [exact Hstep | constructor].
    + intros H. eapply rtc_l; [exact Hstep|].
      pose proof (enforce_one_sets _ _ _ _ _ E) as (_ & HVm & HVa & Hsets).
      apply (IH s1 r s'); [rewrite HVm, HVa; exact HQ | exact Hnd | | exact H].
      intros k' Hk'. assert (k' ∈ PV_active s) as Hk's by (apply Hin; set_solver).
      destruct Hsets as [[-> _] | [-> _]]; [assumption|].
      apply elem_of_difference. split; [assumption|]. set_solver.
Qed.

Lemma assess_steps (e : env) (s : store) (r : res assessment) (s' : store) :
  assess e s = (r, s') -> rtc (solve_step e) s s'.
Proof.
  unfold assess. unfoldM. cbv beta iota zeta.
  destruct (enforce_limits _ s) as [r1 s1] eqn:E.
  assert (rtc (solve_step e) s s1) as Hrtc.
  { unfold enforce_limits in E. revert E. unfoldM. intros E.
    eapply forM_enforce_steps;
      [reflexivity | apply (NoDup_elements (PV_active s)) | | exact E].
    intros k Hk. apply elem_of_elements. exact Hk. }
  destruct r1 as [e1|[]]; [intros [= <- <-]; exact Hrtc|].
  destruct (mismatch_vector _ _ _ _ _ _); intros [= <- <-]; exact Hrtc.
Qed.

Lemma iteration_steps (cfg : LoadFlow) (e : env) (it : Z) (s : store)
    (r : res (LoadFlowResult + list R * list R)) (s' : store) :
  iteration cfg e it s = (r, s') -> rtc (solve_step e) s s'.
Proof.
  unfold iteration. rewrite M_bind_eq.
  destruct (assess e s) as [r1 s1] eqn:E. apply assess_steps in E.
  destruct r1 as [e1|a]; [intros [= <- <-]; exact E|].
  rewrite M_bind_eq. unfold lift at 1.
  destruct (max_abs (a_mismatch a)) as [e1|mx]; [intros [= <- <-]; exact E|].
  destruct (Rltb mx (tol cfg)).
  - unfoldM. intros [= <- <-]. exact E.
  - rewrite M_bind_eq. destruct (newton_update e a s1) as [r2 s2] eqn:E2.
    assert (rtc (solve_step e) s s2) as Hrtc.
    { eapply rtc_r; [exact E|]. eapply step_update. exact E2. }
    destruct r2 as [e2|[]]; unfoldM; intros [= <- <-]; exact Hrtc.
Qed.

Lemma loop_steps (cfg : LoadFlow) (e : env) (fuel : nat) :
  forall (it : Z) (last : option (list R * list R)) (s : store)
         (r : res LoadFlowResult) (s' : store),
    loop cfg e fuel it last s = (r, s') -> rtc (solve_step e) s s'.
Proof.
  induction fuel as [|fuel IH]; intros it last s r s'; cbn [loop].
  - destruct last as [pw|]; unfoldM; intros [= <- <-]; constructor.
  - rewrite M_bind_eq. destruct (iteration cfg e it s) as [r1 s1] eqn:E.
    apply iteration_steps in E.
    destruct r1 as [e1|[res|pw]].
    + intros [= <- <-]. exact E.
    + unfoldM. intros [= <- <-]. exact E.
    + intros H. apply IH in H. etransitivity; eassumption.
Qed.

Lemma setup_sets (net : Network) (e : env) (s0 : store) :
  setup (frame net) = (Ok e, s0) ->
  network s0 = net /\
  PV_active s0 = list_to_set (pv_indices net) /\ PV_conv s0 = ∅.
Proof.
  rewrite setup_run. cbn [network frame].
  destruct (build_ybus net) as [e1|Y]; [discriminate|].
  destruct (slack_index net) as [e1|slack]; [discriminate|].
  intros [= <- <-]. auto.
Qed.


Lemma setup_limited :
  setup (frame net_limited) =
    (Ok (line_env 0 [] [0; 1]), flat_store net_limited [0; 0] {[1%Z]}).
Proof.
  rewrite setup_run. cbn [network frame].
  rewrite build_ybus_line01 by reflexivity.
  cbn. rewrite !deg2rad_0. reflexivity.
Qed.

Lemma enforce_one_limited :
  enforce_one [0; 0] 1 (flat_store net_limited [0; 0] {[1%Z]}) =
    (Ok tt, mkStore net_limited [1; 1] [0; 0] [0; -1] ({[1%Z]} ∖ {[1%Z]}) (∅ ∪ {[1%Z]})).
Proof.
  rewrite enforce_one_run.
  change (getitem (buses (network (flat_store net_limited [0; 0] {[1%Z]}))) 1)
    with (Ok limited_gen).
  cbv beta iota.
  assert (violated_limit limited_gen [0; 0] 1 = Ok (Some (-1))) as ->.
  { rcbv. rewrite Rltb_true by lra. reflexivity. }
  rewrite convert_run. reflexivity.
Qed.


(** ** Indices outside the bus range *)

Lemma getitem_out_of_range {A} (l : list A) (k : Z) :
  py_pos (length l) k = None -> getitem l k = Raise IndexError.
Proof. intros H. unfold getitem. rewrite H. reflexivity. Qed.

Lemma np_take_Raise (v : list R) (rows : list Z) (ex : exn) :
  np_take v rows = Raise ex -> ex = IndexError.
Proof.
  unfold np_take. induction rows as [|k rows IH]; cbn; [discriminate|].
  destruct (getitem v k) as [e|x] eqn:E; cbn.
  - intros [= <-]. apply getitem_Raise in E. tauto.
  - destruct (mapR (getitem v) rows) as [e|xs]; cbn; [|discriminate].
    intros [= <-]. apply IH. reflexivity.
Qed.

Lemma np_take_out_of_range (v : list R) (rows : list Z) (k : Z) :
  k ∈ rows -> py_pos (length v) k = None -> np_take v rows = Raise IndexError.
Proof.
  intros Hin Hk. unfold np_take. induction rows as [|m rows IH]; [inversion Hin|].
  cbn. destruct (getitem v m) as [e|x] eqn:E; cbn.
  - apply getitem_Raise in E as [-> _]. reflexivity.
  - apply elem_of_cons in Hin as [<- | Hin].
    + rewrite getitem_out_of_range in E by assumption. discriminate.
    + rewrite (IH Hin). reflexivity.
Qed.

Lemma mismatch_vector_Raise (ps qs P Q : list R) (pr qr : list Z) (ex : exn) :
  mismatch_vector ps qs P Q pr qr = Raise ex -> ex = IndexError.
Proof.
  unfold mismatch_vector. intros H.
  apply bind_Raise in H as [H | (a & _ & H)]; [eapply np_take_Raise; eassumption|].
  apply bind_Raise in H as [H | (b & _ & H)]; [eapply np_take_Raise; eassumption|].
  apply bind_Raise in H as [H | (c & _ & H)]; [eapply np_take_Raise; eassumption|].
  apply bind_Raise in H as [H | (d & _ & H)]; [eapply np_take_Raise; eassumption|].
  discriminate.
Qed.

Lemma mismatch_vector_out_of_range (ps qs P Q : list R) (pr qr : list Z) (k : Z) :
  k ∈ qr -> py_pos (length qs) k = None ->
  mismatch_vector ps qs P Q pr qr = Raise IndexError.
Proof.
  intros Hin Hk.
  destruct (mismatch_vector ps qs P Q pr qr) as [ex|mm] eqn:E.
  - apply mismatch_vector_Raise in E as ->. reflexivity.
  - unfold mismatch_vector in E.
    apply bind_Ok in E as (a & _ & E). apply bind_Ok in E as (b & _ & E).
    apply bind_Ok in E as (c & Hc & _).
    rewrite (np_take_out_of_range qs qr k Hin Hk) in Hc. discriminate.
Qed.

Lemma elem_of_q_rows (pq : list Z) (conv : gset Z) (k : Z) :
  k ∈ q_rows pq conv <-> k ∈ pq \/ k ∈ conv.
Proof.
  unfold q_rows. rewrite merge_sort_Permutation, elem_of_elements.
  rewrite elem_of_union, elem_of_list_to_set. reflexivity.
Qed.

Lemma enforce_one_Raise (Q : list R) (k : Z) (s : store) (ex : exn) (s' : store) :
  enforce_one Q k s = (Raise ex, s') -> ex = IndexError \/ ex = AssertionError.
Proof.
  rewrite enforce_one_run.
  destruct (getitem (buses (network s)) k) as [e|b] eqn:Eb.
  { intros [= <- _]. apply getitem_Raise in Eb. tauto. }
  destruct (violated_limit b Q k) as [e|[lim|]] eqn:Ev.
  - intros [= <- _]. left. unfold violated_limit, limit_check in Ev.
    destruct (bus_Qmin b) as [l|].
    + destruct (getitem Q k) as [e'|q] eqn:Eq; cbn in Ev.
      * injection Ev as <-. apply getitem_Raise in Eq. tauto.
      * destruct (Rltb q l); cbn in Ev; [discriminate|].
        destruct (bus_Qmax b); cbn in Ev; [|discriminate].
        destruct (Rltb r q); discriminate.
    + cbn in Ev. destruct (bus_Qmax b) as [l|]; [|discriminate].
      destruct (getitem Q k) as [e'|q] eqn:Eq; cbn in Ev.
      * injection Ev as <-. apply getitem_Raise in Eq. tauto.
      * destruct (Rltb l q); discriminate.
  - rewrite convert_run. cbv zeta.
    destruct (setitem (Q_spec s) k lim) as [e|qs'] eqn:Es.
    + intros [= <- _]. left. unfold setitem in Es.
      destruct (py_pos _ _); congruence.
    + unfold py_assert. destruct (bool_decide _); [discriminate|].
      intros [= <- _]. auto.
  - discriminate.
Qed.

Lemma enforce_one_Q_spec_length (Q : list R) (k : Z) (s : store) (r : res unit) (s' : store) :
  enforce_one Q k s = (r, s') -> length (Q_spec s') = length (Q_spec s).
Proof.
  rewrite enforce_one_run.
  destruct (getitem (buses (network s)) k) as [e|b]; [intros [= _ <-]; reflexivity|].
  destruct (violated_limit b Q k) as [e|[lim|]];
    [intros [= _ <-]; reflexivity | | intros [= _ <-]; reflexivity].
  rewrite convert_run. cbv zeta.
  destruct (setitem (Q_spec s) k lim) as [e|qs'] eqn:Es; intros [= _ <-]; cbn;
    [reflexivity|].
  eapply setitem_length; eassumption.
Qed.

Lemma forM_enforce_outcome (Q : list R) (ks : list Z) :
  forall (s : store) (r : res unit) (s' : store),
    forM_ ks (enforce_one Q) s = (r, s') ->
    length (Q_spec s') = length (Q_spec s) /\
    (forall ex, r = Raise ex -> ex = IndexError \/ ex = AssertionError) /\
    ((exists k, k ∈ ks /\ py_pos (length (buses (network s))) k = None) ->
     exists ex, r = Raise ex).
Proof.
  induction ks as [|k ks IH]; intros s r s'; cbn [forM_].
  - unfoldM. intros [= <- <-]. split; [reflexivity|]. split; [discriminate|].
    intros (k & Hk & _). inversion Hk.
  - rewrite M_bind_eq. destruct (enforce_one Q k s) as [r1 s1] eqn:E.
    pose proof (enforce_one_Q_spec_length _ _ _ _ _ E) as Hlen.
    pose proof (enforce_one_sets _ _ _ _ _ E) as (Hn & _).
    destruct r1 as [e1|[]].
    + intros [= <- <-]. split; [exact Hlen|]. split; [|eauto].
      intros ex [= <-]. eapply enforce_one_Raise; eassumption.
    + intros H. destruct (IH _ _ _ H) as (Hlen' & Hkind & Hbad).
      split; [congruence|]. split; [exact Hkind|].
      intros (k' & Hk' & Hout). apply elem_of_cons in Hk' as [-> | Hk'].
      * rewrite enforce_one_run, (getitem_out_of_range _ _ Hout) in E. discriminate.
      * apply Hbad. exists k'. rewrite Hn. auto.
Qed.

Lemma elem_of_idx_of_type (t : BusType) (bs : list Bus) (b : Bus) :
  b ∈ bs -> bus_type b = t -> bus_idx b ∈ idx_of_type t bs.
Proof.
  intros Hin Ht. unfold idx_of_type. apply list_elem_of_fmap. exists b.
  split; [reflexivity|]. apply list_elem_of_filter. auto.
Qed.

(** With a PV or PQ index outside the bus range, the first part of an
    iteration raises. *)
Lemma assess_out_of_range (net : Network) (e : env) (s0 : store) (b : Bus)
    (r : res assessment) (s1 : store) :
  setup (frame net) = (Ok e, s0) ->
  b ∈ buses net -> bus_type b <> SLACK ->
  py_pos (nbus net) (bus_idx b) = None ->
  assess e s0 = (r, s1) ->
  exists ex, r = Raise ex /\ (ex = IndexError \/ ex = AssertionError).
Proof.
  intros Hsetup Hin Htype Hout.
  rewrite setup_run in Hsetup. cbn [network frame] in Hsetup.
  destruct (build_ybus net) as [e1|Y]; [discriminate|].
  destruct (slack_index net) as [e1|slack]; [discriminate|].
  injection Hsetup as <- <-.
  unfold assess. unfoldM. cbv beta iota zeta.
  cbn [Vm Va e_Y e_n e_slack e_pq e_P_spec PV_active].
  match goal with
  | |- context [enforce_limits ?Q ?s] =>
      destruct (enforce_limits Q s) as [r1 s2] eqn:E
  end.
  unfold enforce_limits in E. revert E. unfoldM. cbn [PV_active]. intros E.
  apply forM_enforce_outcome in E as (Hlen & Hkind & Hbad).
  cbn [Q_spec network] in Hlen, Hbad. rewrite length_fmap in Hlen.
  destruct r1 as [ex|[]].
  { intros [= <- _]. exists ex. split; [reflexivity | apply Hkind; reflexivity]. }
  destruct (bus_type b) eqn:Et; [contradiction| |].
  - exfalso. destruct Hbad as [ex Hex]; [|discriminate].
    exists (bus_idx b). split; [|exact Hout].
    apply elem_of_elements, elem_of_list_to_set.
    apply elem_of_idx_of_type; assumption.
  - rewrite (mismatch_vector_out_of_range _ _ _ _ _ _ (bus_idx b)).
    + intros [= <- _]. eauto.
    + apply elem_of_q_rows. left. apply elem_of_idx_of_type; assumption.
    + rewrite Hlen. exact Hout.
Qed.

Lemma solve_out_of_range (cfg : LoadFlow) (net : Network) (b : Bus) :
  b ∈ buses net -> bus_type b <> SLACK ->
  py_pos (nbus net) (bus_idx b) = None ->
  exists ex,
    LoadFlow_solve cfg net = Raise ex /\
    (forall e s0, setup (frame net) = (Ok e, s0) -> (0 < max_iter cfg)%Z ->
                  ex = IndexError \/ ex = AssertionError).
Proof.
  intros Hin Htype Hout. unfold LoadFlow_solve, solve. rewrite M_bind_eq.
  destruct (setup (frame net)) as [[ex|e] s0] eqn:Hsetup.
  { exists ex. split; [reflexivity | discriminate]. }
  destruct (Z.to_nat (max_iter cfg)) as [|n] eqn:En.
  { exists UnboundLocalError. split; [reflexivity|]. intros _ _ _ Hpos. lia. }
  cbn [loop]. rewrite M_bind_eq. unfold iteration. rewrite M_bind_eq.
  destruct (assess e s0) as [r s1] eqn:Ea.
  destruct (assess_out_of_range _ _ _ _ _ _ Hsetup Hin Htype Hout Ea) as (ex & -> & Hex).
  exists ex. split; [reflexivity | intros; exact Hex].
Qed.

(** C10 (as amended): the working vectors [Vm], [Va], [P_spec], [Q_spec]
    are built in list order, and [build_ybus] sees the buses only through
    their count, while the slack index and the PV and PQ index sets hold
    values of the [idx] fields and are used as subscripts of those
    vectors.  So [solve] is right only when every [idx] is the position
    of its bus: on [net_swapped], whose [idx] values are the positions
    swapped, it reports convergence at the flat start although the load
    draws 0.5 p.u.; and a PV or PQ bus whose [idx] is outside the bus
    range makes [solve] raise: once the setup has succeeded and an
    iteration is allowed, the index error of the first iteration (or the
    assertion error of a conversion ahead of it).  For a Slack bus no
    such failure follows. *)
Theorem bus_idx_used_as_position (cfg : LoadFlow) (net : Network) :
  (forall e s0, setup (frame net) = (Ok e, s0) ->
     Vm s0 = bus_V <$> buses net /\
     Va s0 = (fun b => deg2rad (bus_theta_deg b)) <$> buses net /\
     e_P_spec e = bus_P <$> buses net /\
     Q_spec s0 = (fun b => if decide (bus_type b = PQ) then bus_Q b else 0) <$> buses net /\
     PV_active s0 = list_to_set (bus_idx <$> filter (fun b => bus_type b = PV) (buses net)) /\
     e_pq e = bus_idx <$> filter (fun b => bus_type b = PQ) (buses net) /\
     slack_index net = Ok (e_slack e)) /\
  (forall net', length (buses net') = length (buses net) ->
                branches net' = branches net -> shunts net' = shunts net ->
                build_ybus net' = build_ybus net) /\
  (forall b, b ∈ buses net -> bus_type b <> SLACK ->
             py_pos (nbus net) (bus_idx b) = None ->
     exists ex,
       LoadFlow_solve cfg net = Raise ex /\
       (forall e s0, setup (frame net) = (Ok e, s0) -> (0 < max_iter cfg)%Z ->
                     ex = IndexError \/ ex = AssertionError)) /\
  (bus_idx <$> buses net_swapped ≡ₚ [0%Z; 1%Z] /\
   LoadFlow_solve cfg_default net_swapped = Ok (flat_result 0 true) /\
   exists b, b ∈ buses net_swapped /\ bus_type b = PQ /\
             forall p, p ∈ r_P (flat_result 0 true) ->
                       tol cfg_default <= Rabs (bus_P b - p)).
Proof.
  split; [|split; [|split]].
  - intros e s0. rewrite setup_run. cbn [network frame].
    destruct (build_ybus net) as [e1|Y]; [discriminate|].
    destruct (slack_index net) as [e1|slack]; [discriminate|].
    intros [= <- <-]. cbn. auto 10.
  - intros net' Hn Hb Hs. unfold build_ybus, nbus. rewrite Hn, Hb, Hs. reflexivity.
  - intros b. apply solve_out_of_range.
  - split; [apply Permutation_swap|]. split; [apply solve_swapped|].
    exists (pq_bus 1 (- (1 / 2)) (- (1 / 5))). split; [apply list_elem_of_here|].
    split; [reflexivity|]. intros p Hp.
    assert (p = 0) as ->.
    { cbn in Hp. apply elem_of_cons in Hp as [-> | Hp]; [reflexivity|].
      apply elem_of_cons in Hp as [-> | Hp]; [reflexivity | inversion Hp]. }
    unfold cfg_default. cbn [tol bus_P pq_bus].
    unfold Rabs. destruct (Rcase_abs _); lra.
Qed.

Lemma bus_idx_used_as_position_witness :
  pq_bus 7 0 0 ∈ buses net_far_load /\
  py_pos (nbus net_far_load) (bus_idx (pq_bus 7 0 0)) = None /\
  exists ex, LoadFlow_solve cfg_default net_far_load = Raise ex.
Proof.
  assert (pq_bus 7 0 0 ∈ buses net_far_load) as Hin.
  { apply list_elem_of_further, list_elem_of_here. }
  split; [exact Hin|]. split; [reflexivity|].
  destruct (bus_idx_used_as_position cfg_default net_far_load) as (_ & _ & H & _).
  destruct (H (pq_bus 7 0 0) Hin ltac:(discriminate) eq_refl) as (ex & Hex & _).
  exists ex. exact Hex.
Defined.

(** C10 as stated fails: the slack bus of [net_far_slack] carries index 5
    in a network of two buses, and no subscript fails: [solve] returns a
    result, with both buses among the angle unknowns. *)
Lemma far_slack_index_does_not_fail :
  (exists b, b ∈ buses net_far_slack /\
             (Z.of_nat (nbus net_far_slack) <= bus_idx b)%Z) /\
  LoadFlow_solve cfg_default net_far_slack = Ok (flat_result 0 true).
Proof.
  split; [|apply solve_far_slack].
  exists (slack_bus 5). split; [apply list_elem_of_here|]. cbn. lia.
Qed.

(* ================================================================== *)
(** * Further properties of the admittance matrix *)

Lemma add_branch_Ok_inv (n : nat) (Y : matrix) (br : Branch) (Y' : matrix) :
  square n Y -> add_branch Y br = Ok Y' -> branch_ok n br /\ square n Y'.
Proof.
  intros Hsq H. split; [|eapply add_branch_square; eassumption].
  split.
  - intros Hz. rewrite add_branch_zero in H by assumption. discriminate.
  - unfold add_branch in H.
    apply bind_Ok in H as (y & _ & H).
    apply bind_Ok in H as (Y1 & H1 & H).
    apply bind_Ok in H as (Y2 & H2 & _).
    pose proof (mat_iadd_square _ _ _ _ _ _ Hsq H1) as Hsq1.
    destruct (mat_iadd_Ok _ _ _ _ _ _ Hsq H1) as (p & _ & _ & _ & Hp & _).
    destruct (mat_iadd_Ok _ _ _ _ _ _ Hsq1 H2) as (q & _ & _ & _ & Hq & _).
    split; eauto.
Qed.

Lemma foldM_add_branch_Ok (n : nat) (brs : list Branch) :
  forall Y, square n Y ->
    (forall Y', foldM add_branch Y brs = Ok Y' -> square n Y' /\ Forall (branch_ok n) brs) /\
    (Forall (branch_ok n) brs -> exists Y', foldM add_branch Y brs = Ok Y').
Proof.
  induction brs as [|br brs IH]; intros Y Hsq; cbn.
  - split; [intros Y' [= <-]; auto | eauto].
  - split.
    + intros Y' H. apply bind_Ok in H as (Y1 & H1 & H).
      destruct (add_branch_Ok_inv _ _ _ _ Hsq H1) as [Hok Hsq1].
      destruct (proj1 (IH Y1 Hsq1) Y' H) as [Hsq' HF]. auto.
    + intros HF. apply Forall_cons in HF as [[Hz Hr] HF].
      destruct (add_branch_in_range n Y br Hsq Hr Hz) as [Y1 H1].
      rewrite H1. cbn. apply (IH Y1); [|assumption].
      eapply add_branch_square; eassumption.
Qed.

Lemma add_shunt_Ok_inv (n : nat) (Y : matrix) (sh : Shunt) (Y' : matrix) :
  square n Y -> add_shunt Y sh = Ok Y' -> shunt_in_range n sh /\ square n Y'.
Proof.
  intros Hsq H. unfold add_shunt in H. split; [|eapply mat_iadd_square; eassumption].
  destruct (mat_iadd_Ok _ _ _ _ _ _ Hsq H) as (p & _ & _ & _ & Hp & _).
  unfold shunt_in_range. eauto.
Qed.

Lemma foldM_add_shunt_Ok (n : nat) (shs : list Shunt) :
  forall Y, square n Y ->
    (forall Y', foldM add_shunt Y shs = Ok Y' -> square n Y' /\ Forall (shunt_in_range n) shs) /\
    (Forall (shunt_in_range n) shs -> exists Y', foldM add_shunt Y shs = Ok Y').
Proof.
  induction shs as [|sh shs IH]; intros Y Hsq; cbn.
  - split; [intros Y' [= <-]; auto | eauto].
  - split.
    + intros Y' H. apply bind_Ok in H as (Y1 & H1 & H).
      destruct (add_shunt_Ok_inv _ _ _ _ Hsq H1) as [Hok Hsq1].
      destruct (proj1 (IH Y1 Hsq1) Y' H) as [Hsq' HF]. auto.
    + intros HF. apply Forall_cons in HF as [Hr HF].
      destruct (mat_iadd_in_range n Y (sh_k sh) (sh_k sh) (sh_g sh, sh_b sh) Hsq Hr Hr)
        as [Y1 H1].
      unfold add_shunt. rewrite H1. cbn. apply (IH Y1); [|assumption].
      eapply mat_iadd_square; eassumption.
Qed.

Lemma foldM_add_shunt_Raise (shs : list Shunt) (Y : matrix) (ex : exn) :
  foldM add_shunt Y shs = Raise ex -> ex = IndexError.
Proof.
  revert Y. induction shs as [|sh shs IH]; intros Y; cbn; [discriminate|].
  intros H. apply bind_Raise in H as [H | (Y1 & _ & H)].
  - unfold add_shunt in H. eapply mat_iadd_Raise; eassumption.
  - eapply IH; eassumption.
Qed.

Lemma foldM_add_branch_Raise (brs : list Branch) (Y : matrix) (ex : exn) :
  foldM add_branch Y brs = Raise ex -> ex = ZeroDivisionError \/ ex = IndexError.
Proof.
  revert Y. induction brs as [|br brs IH]; intros Y; cbn; [discriminate|].
  intros H. apply bind_Raise in H as [H | (Y1 & _ & H)].
  - apply add_branch_Raise in H as [[-> _] | ->]; auto.
  - eapply IH; eassumption.
Qed.


(** ** Transformers without phase shift *)

Lemma tap_ratio_no_shift (br : Branch) :
  br_shift_deg br = 0 -> tap_ratio br = (br_tap br, 0).
Proof.
  intros Hs. unfold tap_ratio, Cmul, Cexp, RtoC, Cj, deg2rad. cbn.
  rewrite Hs.
  replace (0 * (0 * (PI / 180)) - 1 * 0) with 0 by lra.
  replace (0 * 0 + 1 * (0 * (PI / 180))) with 0 by lra.
  rewrite exp_0, cos_0, sin_0. f_equal; lra.
Qed.

Lemma Cquot_conj_real (z : C) (t : R) : Cquot z (Cconj (t, 0)) = Cquot z (t, 0).
Proof.
  unfold Cquot, Cconj. cbn. replace (- 0) with 0 by lra. reflexivity.
Qed.

Lemma add_branch_entries (n : nat) (Y : matrix) (br : Branch) (Y' : matrix) :
  square n Y -> add_branch Y br = Ok Y' ->
  exists y p q,
    py_cdiv C1 (br_r br, br_x br) = Ok y /\
    py_pos n (br_i br) = Some p /\ py_pos n (br_j br) = Some q /\
    forall a b,
      entry Y' a b =
        add_if (a = q /\ b = p) (Cquot (Copp y) (tap_ratio br))
          (add_if (a = p /\ b = q) (Cquot (Copp y) (Cconj (tap_ratio br)))
             (add_if (a = q /\ b = q) (Cadd y (line_charging br))
                (add_if (a = p /\ b = p)
                   (Cquot (Cadd y (line_charging br)) (RtoC (Cabs (tap_ratio br) ^ 2)))
                   (entry Y a b)))).
Proof.
  intros Hsq H. unfold add_branch in H.
  apply bind_Ok in H as (y & Hy & H).
  apply bind_Ok in H as (Y1 & H1 & H).
  apply bind_Ok in H as (Y2 & H2 & H).
  apply bind_Ok in H as (Y3 & H3 & H4).
  pose proof (mat_iadd_square _ _ _ _ _ _ Hsq H1) as Hsq1.
  pose proof (mat_iadd_square _ _ _ _ _ _ Hsq1 H2) as Hsq2.
  pose proof (mat_iadd_square _ _ _ _ _ _ Hsq2 H3) as Hsq3.
  destruct (mat_iadd_entry _ _ _ _ _ _ Hsq H1) as (p & p' & Hp & Hp' & E1).
  destruct (mat_iadd_entry _ _ _ _ _ _ Hsq1 H2) as (q & q' & Hq & Hq' & E2).
  destruct (mat_iadd_entry _ _ _ _ _ _ Hsq2 H3) as (p3 & q3 & Hp3 & Hq3 & E3).
  destruct (mat_iadd_entry _ _ _ _ _ _ Hsq3 H4) as (q4 & p4 & Hq4 & Hp4 & E4).
  assert (p' = p) as -> by congruence. assert (q' = q) as -> by congruence.
  assert (p3 = p) as -> by congruence. assert (q3 = q) as -> by congruence.
  assert (p4 = p) as -> by congruence. assert (q4 = q) as -> by congruence.
  exists y, p, q. repeat split; try assumption.
  intros a b. rewrite E4, E3, E2, E1. reflexivity.
Qed.

Lemma add_branch_no_shift_mirror (n : nat) (Y : matrix) (br : Branch) (Y' : matrix) :
  br_shift_deg br = 0 ->
  square n Y -> mirror_equal Y -> add_branch Y br = Ok Y' -> mirror_equal Y'.
Proof.
  intros Hs Hsq Hm H.
  destruct (add_branch_entries _ _ _ _ Hsq H) as (y & p & q & _ & _ & _ & E).
  intros a b. rewrite !E, (Hm a b).
  rewrite (tap_ratio_no_shift br Hs), Cquot_conj_real. unfold add_if.
  destruct (decide (a = p)), (decide (b = p)), (decide (a = q)), (decide (b = q));
    subst; repeat case_decide; try reflexivity; exfalso; intuition congruence.
Qed.

Lemma build_ybus_mirror (net : Network) (Y : matrix) :
  Forall (fun br => br_shift_deg br = 0 /\ br_tap br <> 0) (branches net) ->
  build_ybus net = Ok Y ->
  square (nbus net) Y /\ mirror_equal Y.
Proof.
  intros HF H.
  unfold build_ybus in H. apply bind_Ok in H as (Y1 & H1 & H2).
  assert (square (nbus net) Y1 /\ mirror_equal Y1) as [Hsq1 Hm1].
  { clear H2. pose proof (square_zeros (nbus net)) as Hsq.
    pose proof (mirror_zeros (nbus net)) as Hm.
    revert H1 Hsq Hm. generalize (zeros (nbus net)) as Y0.
    induction HF as [|br brs [Hs _] _ IH]; intros Y0 H Hsq Hm.
    - cbn in H. injection H as <-. auto.
    - cbn in H. apply bind_Ok in H as (Y2 & H2 & H).
      apply (IH Y2 H).
      + eapply add_branch_square; eassumption.
      + eapply add_branch_no_shift_mirror; eassumption. }
  eapply foldM_shunts_mirror; eassumption.
Qed.

(** X2: without phase shift the matrix of [build_ybus] is symmetric
    whatever the tap ratios (non-zero) and the shunts: the tap enters
    [Y[i,j]] and [Y[j,i]] through the same real divisor. *)
Theorem ybus_symmetric_without_phase_shift (net : Network) (Y : matrix) :
  Forall (fun br => br_shift_deg br = 0 /\ br_tap br <> 0) (branches net) ->
  build_ybus net = Ok Y ->
  forall i j : Z, mat_get Y i j = mat_get Y j i.
Proof.
  intros HF H i j.
  destruct (build_ybus_mirror _ _ HF H) as [Hsq Hm].
  rewrite !(mat_get_entry (nbus net)) by assumption.
  destruct (py_pos (nbus net) i) as [p|], (py_pos (nbus net) j) as [q|];
    try reflexivity.
  rewrite (Hm p q). reflexivity.
Qed.

Lemma build_ybus_transformer_Ok : exists Y, build_ybus net_transformer = Ok Y.
Proof.
  unfold build_ybus, net_transformer, nbus. cbn [buses branches shunts length].
  destruct (proj2 (foldM_add_branch_Ok 2 [mkBranch 0 1 0 1 0 2 0] (zeros 2) (square_zeros 2)))
    as [Y1 H1].
  { repeat constructor; cbn; try (eexists; reflexivity). intros [_ Hx]. cbn in Hx. lra. }
  rewrite H1. cbn.
  destruct (proj1 (foldM_add_branch_Ok 2 _ _ (square_zeros 2)) _ H1) as [Hsq1 _].
  apply (proj2 (foldM_add_shunt_Ok 2 [mkShunt 1 0 (1 / 10)] Y1 Hsq1)).
  repeat constructor. eexists; reflexivity.
Qed.

Lemma ybus_symmetric_without_phase_shift_witness :
  Forall (fun br => br_shift_deg br = 0 /\ br_tap br <> 0) (branches net_transformer) /\
  exists Y, build_ybus net_transformer = Ok Y /\
            forall i j : Z, mat_get Y i j = mat_get Y j i.
Proof.
  assert (Forall (fun br => br_shift_deg br = 0 /\ br_tap br <> 0)
            (branches net_transformer)) as HF.
  { repeat constructor. cbn. lra. }
  split; [exact HF|].
  destruct build_ybus_transformer_Ok as [Y HY].
  exists Y. split; [exact HY|].
  exact (ybus_symmetric_without_phase_shift net_transformer Y HF HY).
Defined.

(** ** Shunts *)

Lemma foldM_add_shunt_entries (n : nat) (shs : list Shunt) :
  forall Y Y', square n Y -> foldM add_shunt Y shs = Ok Y' ->
    forall p q,
      entry Y' p q =
        if decide (p = q) then shunt_sum n p shs <$> entry Y p q else entry Y p q.
Proof.
  induction shs as [|sh shs IH]; intros Y Y' Hsq H p q.
  - cbn in H. injection H as <-. cbn. case_decide; [|reflexivity].
    destruct (entry Y p q); reflexivity.
  - cbn [foldM] in H. apply bind_Ok in H as (Y1 & H1 & H).
    unfold add_shunt in H1.
    pose proof (mat_iadd_square _ _ _ _ _ _ Hsq H1) as Hsq1.
    destruct (mat_iadd_entry _ _ _ _ _ _ Hsq H1) as (p0 & p0' & Hp0 & Hp0' & E).
    assert (p0' = p0) as -> by congruence.
    rewrite (IH Y1 Y' Hsq1 H p q), E. unfold shunt_sum. cbn [foldl]. rewrite Hp0.
    destruct (decide (p = q)) as [->|Hpq];
      [|case_decide as Hc; [destruct Hc; congruence | reflexivity]].
    destruct (decide (q = p0 /\ q = p0)) as [[-> _]|Hne].
    + destruct (decide (Some p0 = Some p0)); [|congruence].
      destruct (entry Y p0 p0); reflexivity.
    + destruct (decide (Some p0 = Some q)) as [[= ->]|_]; [tauto | reflexivity].
Qed.

(** X3: the shunts of a network touch the diagonal of the admittance
    matrix only: off the diagonal the matrix is the one of the network
    without its shunts, and the diagonal entry of a bus is that entry
    plus the admittances [g + jb] of the shunts connected to the bus. *)
Theorem shunts_touch_the_diagonal_only (net : Network) (Y : matrix) :
  build_ybus net = Ok Y ->
  exists Y0,
    build_ybus (mkNetwork (buses net) (branches net) [] (base_mva net)) = Ok Y0 /\
    forall p q,
      entry Y p q =
        if decide (p = q)
        then shunt_sum (nbus net) p (shunts net) <$> entry Y0 p q
        else entry Y0 p q.
Proof.
  unfold build_ybus, nbus. cbn [buses branches shunts]. intros H.
  apply bind_Ok in H as (Y0 & H0 & H).
  exists Y0. rewrite H0. split; [reflexivity|].
  destruct (proj1 (foldM_add_branch_Ok _ _ _ (square_zeros _)) _ H0) as [Hsq0 _].
  exact (foldM_add_shunt_entries _ _ _ _ Hsq0 H).
Qed.

Lemma shunts_touch_the_diagonal_only_witness :
  exists Y Y0,
    build_ybus net_transformer = Ok Y /\
    build_ybus (mkNetwork (buses net_transformer) (branches net_transformer) []
                  (base_mva net_transformer)) = Ok Y0 /\
    entry Y 0 1 = entry Y0 0 1.
Proof.
  destruct build_ybus_transformer_Ok as [Y HY].
  destruct (shunts_touch_the_diagonal_only net_transformer Y HY) as (Y0 & HY0 & E).
  exists Y, Y0. split; [exact HY|]. split; [exact HY0|].
  exact (E 0%nat 1%nat).
Defined.

(** ** Row sums *)

Lemma Cadd_swap (s u v : C) : Cadd (Cadd u s) v = Cadd (Cadd u v) s.
Proof. unfold Cadd. cbn. f_equal; lra. Qed.

Lemma Csum_insert_add (row : list C) (q : nat) (old v : C) :
  row !! q = Some old ->
  Csum (<[q := Cadd old v]> row) = Cadd (Csum row) v.
Proof.
  revert q. induction row as [|x row IH]; intros q Hq; [discriminate|].
  destruct q as [|q]; cbn in Hq.
  - injection Hq as ->. apply Cadd_swap.
  - pose proof (IH q Hq) as E.
    transitivity (Cadd x (Cadd (Csum row) v)); [exact (f_equal (Cadd x) E)|].
    change (Csum (x :: row)) with (Cadd x (Csum row)).
    unfold Cadd. cbn. f_equal; lra.
Qed.

Lemma mat_iadd_row_sum (n : nat) (Y : matrix) (i j : Z) (v : C) (Y' : matrix) :
  square n Y -> mat_iadd Y i j v = Ok Y' ->
  exists p,
    py_pos n i = Some p /\
    forall a row', Y' !! a = Some row' ->
      exists row, Y !! a = Some row /\
        Csum row' = if decide (a = p) then Cadd (Csum row) v else Csum row.
Proof.
  intros Hsq H.
  destruct (mat_iadd_Ok _ _ _ _ _ _ Hsq H) as (p & q & row & old & Hp & Hq & Hrow & Hold & ->).
  exists p. split; [assumption|]. intros a row' Ha.
  assert (p < length Y)%nat as HpY by (eapply lookup_lt_Some; eassumption).
  destruct (decide (a = p)) as [->|Hne].
  - rewrite list_lookup_insert_eq in Ha by assumption. injection Ha as <-.
    exists row. split; [assumption|]. apply Csum_insert_add. assumption.
  - rewrite list_lookup_insert_ne in Ha by congruence. eauto.
Qed.

Lemma add_branch_bare_row_sums (n : nat) (Y : matrix) (br : Branch) (Y' : matrix) :
  bare_line br -> square n Y ->
  Forall (fun row => Csum row = C0) Y ->
  add_branch Y br = Ok Y' ->
  Forall (fun row => Csum row = C0) Y'.
Proof.
  intros [Hp Hb] Hsq HF H. rewrite add_branch_plain in H by assumption.
  unfold add_branch_pi in H. rewrite Hb in H.
  apply bind_Ok in H as (y & Hy & H).
  apply bind_Ok in H as (Y1 & H1 & H).
  apply bind_Ok in H as (Y2 & H2 & H).
  apply bind_Ok in H as (Y3 & H3 & H4).
  pose proof (mat_iadd_square _ _ _ _ _ _ Hsq H1) as Hsq1.
  pose proof (mat_iadd_square _ _ _ _ _ _ Hsq1 H2) as Hsq2.
  pose proof (mat_iadd_square _ _ _ _ _ _ Hsq2 H3) as Hsq3.
  destruct (mat_iadd_row_sum _ _ _ _ _ _ Hsq H1) as (p & Hp1 & E1).
  destruct (mat_iadd_row_sum _ _ _ _ _ _ Hsq1 H2) as (q & Hq2 & E2).
  destruct (mat_iadd_row_sum _ _ _ _ _ _ Hsq2 H3) as (p3 & Hp3 & E3).
  destruct (mat_iadd_row_sum _ _ _ _ _ _ Hsq3 H4) as (q4 & Hq4 & E4).
  assert (p3 = p) as -> by congruence. assert (q4 = q) as -> by congruence.
  rewrite Forall_lookup in HF. apply Forall_lookup. intros a row4 Ha4.
  destruct (E4 _ _ Ha4) as (row3 & Ha3 & S4).
  destruct (E3 _ _ Ha3) as (row2 & Ha2 & S3).
  destruct (E2 _ _ Ha2) as (row1 & Ha1 & S2).
  destruct (E1 _ _ Ha1) as (row0 & Ha0 & S1).
  pose proof (HF _ _ Ha0) as S0.
  rewrite S4, S3, S2, S1, S0. destruct y as [yr yi].
  unfold Cadd, Copp, C0. cbn.
  repeat case_decide; cbn; f_equal; lra.
Qed.

Lemma Csum_scale (row : list C) (c : C) :
  Csum (flip Cmul c <$> row) = Cmul (Csum row) c.
Proof.
  induction row as [|x row IH].
  - unfold Cmul, C0. cbn. f_equal; lra.
  - change (Csum (flip Cmul c <$> (x :: row)))
      with (Cadd (Cmul x c) (Csum (flip Cmul c <$> row))).
    rewrite IH. change (Csum (x :: row)) with (Cadd x (Csum row)).
    unfold Cmul, Cadd. cbn. f_equal; lra.
Qed.

Lemma zeros_row_sums (n : nat) : Forall (fun row => Csum row = C0) (zeros n).
Proof.
  unfold zeros. apply Forall_replicate.
  induction n as [|n IH]; [reflexivity|].
  change (Csum (replicate (S n) C0)) with (Cadd C0 (Csum (replicate n C0))).
  rewrite IH. unfold Cadd, C0. cbn. f_equal; lra.
Qed.

Lemma bare_row_sums (net : Network) (Y : matrix) :
  Forall (fun br => (br_tap br = 1 /\ br_shift_deg br = 0) /\ br_b br = 0) (branches net) ->
  shunts net = [] ->
  build_ybus net = Ok Y ->
  Forall (fun row => Csum row = C0) Y.
Proof.
  intros HF Hsh H.
  unfold build_ybus in H. rewrite Hsh in H. cbn in H.
  apply bind_Ok in H as (Y1 & H1 & [= <-]).
  pose proof (square_zeros (nbus net)) as Hsq0.
  pose proof (zeros_row_sums (nbus net)) as Hz.
  revert H1 Hsq0 Hz. generalize (zeros (nbus net)) as Y0.
  induction HF as [|br brs Hbr _ IH]; intros Y0 H1 Hsq0 Hz.
  - cbn in H1. injection H1 as <-. exact Hz.
  - cbn in H1. apply bind_Ok in H1 as (Y2 & H2 & H1).
    apply (IH Y2 H1).
    + eapply add_branch_square; eassumption.
    + eapply add_branch_bare_row_sums; eassumption.
Qed.

Lemma injections_uniform (n : nat) (Y : matrix) (v th : R) :
  square n Y -> Forall (fun row => Csum row = C0) Y ->
  injections Y (replicate n v) (replicate n th) = (replicate n 0, replicate n 0).
Proof.
  intros [HlenY HFlen] Hrows.
  unfold injections, phasors. rewrite zip_with_replicate.
  set (c := Cmul (RtoC v) (Cexp (Cmul Cj (RtoC th)))).
  assert (matvec Y (replicate n c) = replicate n (0, 0)) as ->.
  { unfold matvec.
    transitivity (replicate (length Y) ((0, 0) : C)); [|rewrite HlenY; reflexivity].
    apply const_fmap. intros i row Hrow.
    rewrite Forall_lookup in HFlen, Hrows.
    rewrite zip_with_replicate_r_eq by (eapply HFlen; eassumption).
    rewrite Csum_scale, (Hrows _ _ Hrow).
    unfold Cmul, C0. cbn. f_equal; lra. }
  rewrite zip_with_replicate, !fmap_replicate.
  f_equal; f_equal; unfold Cre, Cim, Cmul, Cconj; cbn; lra.
Qed.



(* ================================================================== *)
(** * Further properties of the network queries *)

Lemma elem_of_idx_of_type_iff (t : BusType) (bs : list Bus) (k : Z) :
  k ∈ idx_of_type t bs <-> exists b, b ∈ bs /\ bus_type b = t /\ bus_idx b = k.
Proof.
  unfold idx_of_type. rewrite list_elem_of_fmap. split.
  - intros (b & -> & Hb). apply list_elem_of_filter in Hb as [Ht Hin]. eauto.
  - intros (b & Hin & Ht & <-). exists b. split; [reflexivity|].
    apply list_elem_of_filter. auto.
Qed.

Lemma classification_count (bs : list Bus) :
  (length (idx_of_type PV bs) + length (idx_of_type PQ bs) +
   length (filter (fun b => bus_type b = SLACK) bs))%nat = length bs.
Proof.
  unfold idx_of_type. rewrite !length_fmap.
  induction bs as [|b bs IH]; [reflexivity|].
  rewrite (filter_cons (fun b0 : Bus => bus_type b0 = PV)),
    (filter_cons (fun b0 : Bus => bus_type b0 = PQ)),
    (filter_cons (fun b0 : Bus => bus_type b0 = SLACK)).
  destruct (bus_type b) eqn:E;
    repeat case_decide; try congruence; cbn; lia.
Qed.

Lemma NoDup_fmap_elem_inj {A B} (f : A -> B) (l : list A) (x y : A) :
  NoDup (f <$> l) -> x ∈ l -> y ∈ l -> f x = f y -> x = y.
Proof.
  induction l as [|a l IH]; intros Hnd Hx Hy Hf; [inversion Hx|].
  cbn in Hnd. apply NoDup_cons in Hnd as [Ha Hnd].
  apply elem_of_cons in Hx as [-> | Hx]; apply elem_of_cons in Hy as [-> | Hy].
  - reflexivity.
  - exfalso. apply Ha. rewrite Hf. apply list_elem_of_fmap. eauto.
  - exfalso. apply Ha. rewrite <- Hf. apply list_elem_of_fmap. eauto.
  - auto.
Qed.

Lemma NoDup_idx_of_type (t : BusType) (bs : list Bus) :
  NoDup (bus_idx <$> bs) -> NoDup (idx_of_type t bs).
Proof.
  unfold idx_of_type. induction bs as [|b bs IH]; [constructor|].
  rewrite fmap_cons. intros Hnd. apply NoDup_cons in Hnd as [Hb Hnd].
  rewrite (filter_cons (fun b0 : Bus => bus_type b0 = t)). case_decide; [|auto].
  rewrite fmap_cons. apply NoDup_cons. split; [|auto].
  intros Hin. apply Hb. apply list_elem_of_fmap in Hin as (b' & -> & Hin).
  apply list_elem_of_filter in Hin as [_ Hin]. apply list_elem_of_fmap. eauto.
Qed.

(** X5: the three queries classify every bus once: the PV list, the PQ
    list and the Slack-type buses together are as many as the buses, a
    list holds exactly the indices of the buses of its type, in list
    order; and when no two buses share an index, the PV and PQ lists are
    duplicate-free and disjoint and the slack index is in neither. *)
Theorem bus_classification (net : Network) :
  (length (pv_indices net) + length (pq_indices net) +
   length (filter (fun b => bus_type b = SLACK) (buses net)))%nat = nbus net /\
  (forall k, k ∈ pv_indices net <->
             exists b, b ∈ buses net /\ bus_type b = PV /\ bus_idx b = k) /\
  (forall k, k ∈ pq_indices net <->
             exists b, b ∈ buses net /\ bus_type b = PQ /\ bus_idx b = k) /\
  (NoDup (bus_idx <$> buses net) ->
   NoDup (pv_indices net) /\ NoDup (pq_indices net) /\
   (forall k, k ∈ pv_indices net -> k ∉ pq_indices net) /\
   (forall s, slack_index net = Ok s ->
              (s ∉ pv_indices net) /\ (s ∉ pq_indices net))).
Proof.
  split; [apply classification_count|].
  split; [intros k; apply elem_of_idx_of_type_iff|].
  split; [intros k; apply elem_of_idx_of_type_iff|].
  intros Hnd. split; [apply NoDup_idx_of_type; assumption|].
  split; [apply NoDup_idx_of_type; assumption|].
  assert (forall t1 t2 k, t1 <> t2 ->
            k ∈ idx_of_type t1 (buses net) -> k ∉ idx_of_type t2 (buses net)) as Hdisj.
  { intros t1 t2 k Hne H1 H2.
    apply elem_of_idx_of_type_iff in H1 as (b1 & Hin1 & Ht1 & Hk1).
    apply elem_of_idx_of_type_iff in H2 as (b2 & Hin2 & Ht2 & Hk2).
    assert (b1 = b2) by (eapply NoDup_fmap_elem_inj; eauto; congruence).
    congruence. }
  split; [intros k; apply Hdisj; discriminate|].
  intros s Hs. unfold slack_index in Hs.
  apply first_slack_Ok in Hs as (pre & b & post & Hbs & _ & Hb & Hi).
  assert (s ∈ idx_of_type SLACK (buses net)) as Hin.
  { apply elem_of_idx_of_type_iff. exists b. rewrite Hbs.
    split; [|auto]. apply elem_of_app. right. apply list_elem_of_here. }
  split; apply (Hdisj SLACK); try discriminate; exact Hin.
Qed.

Lemma bus_classification_witness :
  NoDup (bus_idx <$> buses net_gen) /\
  slack_index net_gen = Ok 0%Z /\
  (0%Z ∉ pv_indices net_gen) /\ (0%Z ∉ pq_indices net_gen).
Proof.
  assert (NoDup (bus_idx <$> buses net_gen)) as Hnd.
  { cbn. apply NoDup_cons. split; [set_solver|]. apply NoDup_singleton. }
  split; [exact Hnd|]. split; [reflexivity|].
  destruct (bus_classification net_gen) as (_ & _ & _ & H).
  destruct (H Hnd) as (_ & _ & _ & Hs).
  exact (Hs 0%Z eq_refl).
Defined.

(** ** The unknowns *)

Lemma StronglySorted_seqZ (m n : Z) : StronglySorted Z.lt (seqZ m n).
Proof.
  destruct (decide (n <= 0)%Z) as [Hn|Hn].
  { rewrite seqZ_nil by assumption. constructor. }
  rewrite <- (Z2Nat.id n) by lia. generalize (Z.to_nat n) as k. clear. intros k.
  revert m. induction k as [|k IH]; intros m.
  - rewrite seqZ_nil by lia. constructor.
  - rewrite seqZ_cons by lia.
    replace (Z.pred (Z.of_nat (S k))) with (Z.of_nat k) by lia.
    constructor; [apply IH|].
    apply Forall_seqZ. intros m' Hm'. lia.
Qed.

Lemma StronglySorted_filter_lt (P : Z -> Prop) `{forall x, Decision (P x)} (l : list Z) :
  StronglySorted Z.lt l -> StronglySorted Z.lt (filter P l).
Proof.
  induction 1 as [|x l Hl IH Hx]; [constructor|].
  rewrite filter_cons. case_decide; [|assumption].
  constructor; [assumption|].
  rewrite Forall_forall in Hx. apply Forall_forall. intros y Hy.
  apply Hx. apply list_elem_of_filter in Hy. tauto.
Qed.

Lemma filter_all {A} (P : A -> Prop) `{forall x, Decision (P x)} (l : list A) :
  Forall P l -> filter P l = l.
Proof.
  induction 1 as [|x l Hx _ IH]; [reflexivity|].
  rewrite filter_cons_True by assumption. f_equal. exact IH.
Qed.

Lemma length_filter_ne (l : list Z) (x : Z) :
  NoDup l -> x ∈ l -> S (length (filter (fun k => k ≠ x) l)) = length l.
Proof.
  induction l as [|y l IH]; intros Hnd Hx; [inversion Hx|].
  apply NoDup_cons in Hnd as [Hy Hnd]. rewrite filter_cons.
  destruct (decide (y = x)) as [->|Hne].
  - rewrite decide_False by tauto. cbn. f_equal.
    f_equal. apply filter_all. rewrite Forall_forall.
    intros z Hz ->. contradiction.
  - rewrite decide_True by assumption. cbn. f_equal. apply IH; [assumption|].
    apply elem_of_cons in Hx as [-> | Hx]; [congruence | assumption].
Qed.

(** X6: the angle unknowns are the positions [0 .. n-1] other than the
    slack index, ascending and without duplicates, [n - 1] of them when
    the slack index is one of the positions (all [n] otherwise); the
    magnitude unknowns are exactly the PQ indices and the converted PV
    indices, ascending and without duplicates. *)
Theorem unknowns_are_ordered_sets (n : nat) (slack : Z) (pq : list Z) (conv : gset Z) :
  (forall k, k ∈ p_rows n slack <-> (0 <= k < Z.of_nat n)%Z /\ k <> slack) /\
  StronglySorted Z.lt (p_rows n slack) /\
  NoDup (p_rows n slack) /\
  length (p_rows n slack) =
    (if decide (0 <= slack < Z.of_nat n)%Z then n - 1 else n)%nat /\
  (forall k, k ∈ q_rows pq conv <-> k ∈ pq \/ k ∈ conv) /\
  StronglySorted Z.le (q_rows pq conv) /\
  NoDup (q_rows pq conv).
Proof.
  unfold p_rows. split; [|split; [|split; [|split; [|split; [|split]]]]].
  - intros k. rewrite list_elem_of_filter, elem_of_seqZ. split; intros; intuition lia.
  - apply StronglySorted_filter_lt, StronglySorted_seqZ.
  - apply NoDup_filter, NoDup_seqZ.
  - case_decide as Hs.
    + pose proof (length_filter_ne (seqZ 0 (Z.of_nat n)) slack (NoDup_seqZ _ _)) as Hlen.
      rewrite length_seqZ in Hlen.
      assert (slack ∈ seqZ 0 (Z.of_nat n)) as Hin by (apply elem_of_seqZ; lia).
      specialize (Hlen Hin). lia.
    + rewrite filter_all; [rewrite length_seqZ; lia|].
      apply Forall_seqZ. intros k Hk. lia.
  - intros k. apply elem_of_q_rows.
  - unfold q_rows. apply StronglySorted_merge_sort; apply _.
  - unfold q_rows. rewrite merge_sort_Permutation. apply NoDup_elements.
Qed.

(** * Further properties of the solver *)

(** ** The flags of a result *)

Lemma loop_flags (cfg : LoadFlow) (e : env) (fuel : nat) :
  forall (it : Z) (last : option (list R * list R)) (s s' : store) (r : LoadFlowResult),
    loop cfg e fuel it last s = (Ok r, s') ->
    (converged r = true /\ (it <= iterations r < it + Z.of_nat fuel)%Z) \/
    (converged r = false /\ iterations r = max_iter cfg /\ (last = None -> fuel <> O)).
Proof.
  induction fuel as [|fuel IH]; intros it last s s' r H.
  - cbn in H. destruct last as [pw|]; [|discriminate].
    cbn in H. injection H as <- <-. right. cbn. split; [reflexivity|].
    split; [reflexivity | discriminate].
  - cbn [loop] in H. rewrite M_bind_eq in H.
    destruct (iteration cfg e it s) as [[e1|[r1|pw]] s1] eqn:E; [discriminate| |].
    + unfold mret, M_ret in H. injection H as <- <-.
      apply iteration_converges in E as (a & mx & _ & _ & _ & ->).
      left. cbn. split; [reflexivity | lia].
    + apply IH in H as [[Hc Hit] | (Hc & Hit & _)].
      * left. split; [exact Hc | lia].
      * right. split; [exact Hc|]. split; [exact Hit | discriminate].
Qed.

Lemma solve_idle :
  LoadFlow_solve cfg_default net_idle = Ok (flat_result 0 true).
Proof.
  unfold LoadFlow_solve, solve. rewrite M_bind_eq, setup_idle.
  change (Z.to_nat (max_iter cfg_default)) with (0 + S 99)%nat.
  rewrite (loop_converges cfg_default _ 0 99 _ _ _ None _ 0
             eq_refl assess_idle max_abs_zeros2 tol_default_pos).
  reflexivity.
Qed.

(** X7: a result of [solve] exists only when at least one iteration is
    allowed; when it reports convergence, [iterations] is the index of
    an iteration that ran, so it lies in [0 .. max_iter - 1]; when it
    does not, [iterations] is [max_iter] itself. *)
Theorem result_flags_agree (cfg : LoadFlow) (net : Network) (r : LoadFlowResult) :
  LoadFlow_solve cfg net = Ok r ->
  (0 < max_iter cfg)%Z /\
  if converged r then (0 <= iterations r < max_iter cfg)%Z
  else iterations r = max_iter cfg.
Proof.
  unfold LoadFlow_solve, solve. rewrite M_bind_eq.
  destruct (setup (frame net)) as [[ex|e] s0]; [discriminate|].
  destruct (loop cfg e (Z.to_nat (max_iter cfg)) 0 None s0) as [r' s'] eqn:E.
  cbn [fst]. intros ->.
  apply loop_flags in E as [[Hc Hit] | (Hc & Hit & Hfuel)]; rewrite Hc.
  - split; lia.
  - specialize (Hfuel eq_refl). split; [lia | exact Hit].
Qed.

Lemma result_flags_agree_witness :
  (0 < max_iter cfg_default)%Z /\
  if converged (flat_result 0 true)
  then (0 <= iterations (flat_result 0 true) < max_iter cfg_default)%Z
  else iterations (flat_result 0 true) = max_iter cfg_default.
Proof.
  exact (result_flags_agree cfg_default net_idle (flat_result 0 true) solve_idle).
Defined.

(** ** Invariants of the loop *)

Section loop_invariant.
Variable cfg : LoadFlow.
Variable e : env.
(** A property of the store and one of the computed powers. *)
Variable I : store -> Prop.
Variable W : list R * list R -> Prop.
Hypothesis assess_keeps :
  forall s a s1, I s -> assess e s = (Ok a, s1) -> I s1 /\ W (a_P a, a_Q a).
Hypothesis update_keeps :
  forall s a s1 s2, I s -> assess e s = (Ok a, s1) ->
                    newton_update e a s1 = (Ok tt, s2) -> I s2.

Lemma loop_invariant (fuel : nat) :
  forall (it : Z) (last : option (list R * list R)) (s s' : store) (r : LoadFlowResult),
    I s -> (forall pw, last = Some pw -> W pw) ->
    loop cfg e fuel it last s = (Ok r, s') ->
    I s' /\ r_Vm r = Vm s' /\ r_Va r = Va s' /\ W (r_P r, r_Q r).
Proof.
  induction fuel as [|fuel IH]; intros it last s s' r HI Hlast H.
  - cbn in H. destruct last as [pw|]; [|discriminate].
    cbn in H. injection H as <- <-. cbn.
    specialize (Hlast pw eq_refl). destruct pw. auto.
  - cbn [loop] in H. rewrite M_bind_eq in H.
    destruct (iteration cfg e it s) as [[e1|[r1|pw]] s1] eqn:E; [discriminate| |].
    + unfold mret, M_ret in H. injection H as <- <-.
      apply iteration_converges in E as (a & mx & Ha & _ & _ & ->).
      destruct (assess_keeps _ _ _ HI Ha) as [HI' HW]. cbn. auto.
    + apply iteration_continues in E as (a & s2 & mx & Ha & _ & _ & Hu & ->).
      destruct (assess_keeps _ _ _ HI Ha) as [HI' HW].
      apply (IH _ _ _ _ _ (update_keeps _ _ _ _ HI Ha Hu)) in H; [exact H|].
      intros pw [= <-]. exact HW.
Qed.
End loop_invariant.

(** ** The sizes of the working vectors *)

Lemma injections_length (Y : matrix) (vm va : list R) (n : nat) :
  length Y = n -> length vm = n -> length va = n ->
  length (fst (injections Y vm va)) = n /\ length (snd (injections Y vm va)) = n.
Proof.
  intros HY Hvm Hva. unfold injections, phasors, matvec. cbn [fst snd].
  rewrite !length_fmap, !length_zip_with, !length_fmap. lia.
Qed.

Lemma foldM_setitem_Ok (l : list (Z * R)) :
  forall (v v' : list R),
    foldM (fun w kd => setitem w (fst kd) (snd kd)) v l = Ok v' ->
    length v' = length v /\
    forall p, (forall kd, kd ∈ l -> py_pos (length v) (fst kd) <> Some p) ->
              v' !! p = v !! p.
Proof.
  induction l as [|[k d] l IH]; intros v v' H; cbn in H.
  - injection H as <-. auto.
  - destruct (setitem v k d) as [ex|v1] eqn:E; cbn in H; [discriminate|].
    apply IH in H as [Hlen Hsame].
    pose proof (setitem_length _ _ _ _ E) as Hlen1.
    split; [congruence|]. intros p Hp.
    rewrite Hsame.
    + apply setitem_Ok in E as (q & Hq & ->).
      apply list_lookup_insert_ne. intros ->.
      apply (Hp (k, d)); [apply list_elem_of_here | exact Hq].
    + intros kd Hkd. rewrite Hlen1. apply Hp. apply list_elem_of_further. exact Hkd.
Qed.

Lemma fancy_iadd_Ok (v : list R) (cols : list Z) (d v' : list R) :
  fancy_iadd v cols d = Ok v' ->
  length v' = length v /\
  forall p, (forall k, k ∈ cols -> py_pos (length v) k <> Some p) -> v' !! p = v !! p.
Proof.
  unfold fancy_iadd. intros H. apply bind_Ok in H as (old & _ & H).
  apply foldM_setitem_Ok in H as [Hlen Hsame].
  split; [exact Hlen|]. intros p Hp. apply Hsame.
  intros [k x] Hkd. apply Hp. cbn. eapply elem_of_zip_l. exact Hkd.
Qed.

Lemma reimpose_one_run (k : Z) (s : store) :
  reimpose_one k s =
    match getitem (buses (network s)) k with
    | Raise ex => (Raise ex, s)
    | Ok b =>
        match setitem (Vm s) k (bus_V b) with
        | Raise ex => (Raise ex, s)
        | Ok vm' =>
            (Ok tt, mkStore (network s) vm' (Va s) (Q_spec s) (PV_active s) (PV_conv s))
        end
    end.
Proof.
  unfold reimpose_one. unfoldM.
  destruct (getitem (buses (network s)) k) as [ex|b]; [reflexivity|].
  destruct (setitem (Vm s) k (bus_V b)) as [ex|vm']; reflexivity.
Qed.

Lemma reimpose_vectors (l : list Z) :
  forall (s : store) (r : res unit) (s' : store),
    forM_ l reimpose_one s = (r, s') ->
    Va s' = Va s /\ length (Vm s') = length (Vm s) /\
    forall p, (forall k, k ∈ l -> py_pos (length (Vm s)) k <> Some p) ->
              Vm s' !! p = Vm s !! p.
Proof.
  induction l as [|k l IH]; intros s r s'; cbn [forM_].
  - unfoldM. intros [= <- <-]. auto.
  - rewrite M_bind_eq, reimpose_one_run.
    destruct (getitem (buses (network s)) k) as [ex|b]; [intros [= <- <-]; auto|].
    destruct (setitem (Vm s) k (bus_V b)) as [ex|vm'] eqn:E; [intros [= <- <-]; auto|].
    intros H. apply IH in H as (HVa & Hlen & Hsame). cbn in HVa, Hlen, Hsame.
    pose proof (setitem_length _ _ _ _ E) as Hlen1.
    split; [exact HVa|]. split; [congruence|]. intros p Hp.
    rewrite Hsame.
    + apply setitem_Ok in E as (q & Hq & ->).
      apply list_lookup_insert_ne. intros ->.
      apply (Hp k); [apply list_elem_of_here | exact Hq].
    + intros k' Hk'. rewrite Hlen1. apply Hp. apply list_elem_of_further. exact Hk'.
Qed.

Lemma newton_update_vectors (e : env) (a : assessment) (s : store) (r : res unit)
    (s' : store) :
  newton_update e a s = (r, s') ->
  length (Vm s') = length (Vm s) /\ length (Va s') = length (Va s) /\
  (forall p, (forall k, k ∈ a_p_rows a -> py_pos (length (Va s)) k <> Some p) ->
             Va s' !! p = Va s !! p) /\
  (forall p, (forall k, k ∈ a_q_rows a -> py_pos (length (Vm s)) k <> Some p) ->
             (forall k, k ∈ PV_active s -> py_pos (length (Vm s)) k <> Some p) ->
             Vm s' !! p = Vm s !! p).
Proof.
  unfold newton_update. unfoldM. cbv beta iota zeta.
  destruct (jacobian _ _ _) as [e1|J]; [intros [= <- <-]; auto|].
  destruct (linalg_solve _ _) as [e1|dx]; [intros [= <- <-]; auto|].
  destruct (fancy_iadd (Va s) _ _) as [e1|va'] eqn:Eva; [intros [= <- <-]; auto|].
  apply fancy_iadd_Ok in Eva as [Hlva Hva].
  destruct (fancy_iadd (Vm s) _ _) as [e1|vm'] eqn:Evm; [intros [= <- <-]; cbn; auto|].
  apply fancy_iadd_Ok in Evm as [Hlvm Hvm].
  intros H. apply reimpose_vectors in H as (HVa & Hlen & Hsame).
  cbn in HVa, Hlen, Hsame. rewrite HVa.
  split; [congruence|]. split; [exact Hlva|]. split; [exact Hva|].
  intros p Hq Hact. rewrite Hsame.
  - apply Hvm. exact Hq.
  - intros k Hk. rewrite Hlvm. apply Hact. apply elem_of_elements. exact Hk.
Qed.

Lemma enforce_limits_vectors (Q : list R) (s : store) (r : res unit) (s' : store) :
  enforce_limits Q s = (r, s') ->
  network s' = network s /\ Vm s' = Vm s /\ Va s' = Va s /\
  length (Q_spec s') = length (Q_spec s).
Proof.
  intros H. pose proof (keeps_enforce_limits Q s) as Hn. rewrite H in Hn. cbn in Hn.
  unfold enforce_limits in H. revert H. unfoldM. intros H.
  pose proof (forM_enforce_frame _ _ _ _ _ H) as [HVm HVa].
  apply forM_enforce_outcome in H as (Hlen & _). auto.
Qed.


Lemma setup_Ok (net : Network) (e : env) (s0 : store) :
  setup (frame net) = (Ok e, s0) ->
  exists Y slack,
    build_ybus net = Ok Y /\ slack_index net = Ok slack /\
    e = mkEnv Y (map (map Cre) Y) (map (map Cim) Y) (nbus net) slack
          (pq_indices net) (bus_P <$> buses net) /\
    s0 = mkStore net (bus_V <$> buses net)
           ((fun b => deg2rad (bus_theta_deg b)) <$> buses net)
           ((fun b => if decide (bus_type b = PQ) then bus_Q b else 0) <$> buses net)
           (list_to_set (pv_indices net)) ∅.
Proof.
  rewrite setup_run. cbn [network frame].
  destruct (build_ybus net) as [e1|Y]; [discriminate|].
  destruct (slack_index net) as [e1|slack]; [discriminate|].
  intros [= <- <-]. exists Y, slack. auto.
Qed.

Lemma setup_sized (net : Network) (e : env) (s0 : store) :
  setup (frame net) = (Ok e, s0) ->
  sized net s0 /\ length (e_Y e) = nbus net /\ e_n e = nbus net.
Proof.
  intros (Y & slack & HY & _ & -> & ->)%setup_Ok.
  unfold sized. cbn. rewrite !length_fmap.
  apply build_ybus_square in HY as [HY _]. auto 10.
Qed.

Lemma assess_sized (net : Network) (e : env) (s : store) (a : assessment) (s1 : store) :
  length (e_Y e) = nbus net ->
  sized net s -> assess e s = (Ok a, s1) ->
  sized net s1 /\ length (a_P a) = nbus net /\ length (a_Q a) = nbus net.
Proof.
  intros HY (Hn & HVm & HVa & HQ) H.
  apply assess_Ok in H as (HVm1 & HVa1 & HP & HQ1 & He & _).
  apply enforce_limits_vectors in He as (Hn1 & _ & _ & Hlen).
  destruct (injections_length (e_Y e) (Vm s) (Va s) (nbus net) HY HVm HVa) as [H1 H2].
  unfold sized. rewrite HVm1, HVa1, HP, HQ1. split; [|auto].
  split; [congruence|]. split; [exact HVm|]. split; [exact HVa | congruence].
Qed.

Lemma newton_update_sized (net : Network) (e : env) (a : assessment) (s : store)
    (r : res unit) (s' : store) :
  sized net s -> newton_update e a s = (r, s') -> sized net s'.
Proof.
  intros (Hn & HVm & HVa & HQ) H.
  pose proof (newton_update_frame _ _ _ _ _ H) as (Hn' & _ & _ & HQ').
  apply newton_update_vectors in H as (HVm' & HVa' & _).
  unfold sized. rewrite Hn', HQ', HVm', HVa'. auto.
Qed.

Lemma solve_Ok (cfg : LoadFlow) (net : Network) (r : LoadFlowResult) (s_end : store) :
  solve cfg (frame net) = (Ok r, s_end) ->
  exists e s0,
    setup (frame net) = (Ok e, s0) /\
    loop cfg e (Z.to_nat (max_iter cfg)) 0 None s0 = (Ok r, s_end).
Proof.
  unfold solve. rewrite M_bind_eq.
  destruct (setup (frame net)) as [[ex|e] s0]; [discriminate|]. eauto.
Qed.

Lemma LoadFlow_solve_Ok (cfg : LoadFlow) (net : Network) (r : LoadFlowResult) :
  LoadFlow_solve cfg net = Ok r -> exists s_end, solve cfg (frame net) = (Ok r, s_end).
Proof.
  unfold LoadFlow_solve. destruct (solve cfg (frame net)) as [r' s'].
  cbn. intros ->. eauto.
Qed.

(** X8: the four vectors of a result have one entry per bus of the
    network, in list order, whether the run converged or not. *)
Theorem result_has_one_entry_per_bus (cfg : LoadFlow) (net : Network) (r : LoadFlowResult) :
  LoadFlow_solve cfg net = Ok r ->
  length (r_Vm r) = nbus net /\ length (r_Va r) = nbus net /\
  length (r_P r) = nbus net /\ length (r_Q r) = nbus net.
Proof.
  intros (s_end & (e & s0 & Hsetup & Hloop)%solve_Ok)%LoadFlow_solve_Ok.
  apply setup_sized in Hsetup as (Hs0 & HY & _).
  apply (loop_invariant cfg e (sized net)
           (fun pw => length (fst pw) = nbus net /\ length (snd pw) = nbus net))
    in Hloop as (Hs & -> & -> & HP & HQ).
  - destruct Hs as (_ & ? & ? & _). auto.
  - intros s a s1 Hs Ha. apply (assess_sized net) in Ha as (? & ? & ?); auto.
  - intros s a s1 s2 Hs Ha Hu. apply (assess_sized net) in Ha as (Hs1 & _); [|assumption..].
    eapply newton_update_sized; eassumption.
  - exact Hs0.
  - discriminate.
Qed.

Lemma result_has_one_entry_per_bus_witness :
  length (r_Vm (mkResult [1; 1] [0; 1] [0; 0] [0; 0] 1 false)) = nbus net_gen /\
  length (r_Va (mkResult [1; 1] [0; 1] [0; 0] [0; 0] 1 false)) = nbus net_gen /\
  length (r_P (mkResult [1; 1] [0; 1] [0; 0] [0; 0] 1 false)) = nbus net_gen /\
  length (r_Q (mkResult [1; 1] [0; 1] [0; 0] [0; 0] 1 false)) = nbus net_gen.
Proof.
  assert (1e-8 <= 1) as Ht by lra.
  exact (result_has_one_entry_per_bus cfg_one_pass net_gen _
           (solve_gen_one_pass 1e-8 false Ht)).
Defined.

(** ** Voltage setpoints *)

Lemma rtc_solve_step_le (e : env) (s s' : store) :
  rtc (solve_step e) s s' ->
  PV_active s' ⊆ PV_active s /\ PV_conv s ⊆ PV_conv s'.
Proof.
  intros Hrtc. induction Hrtc as [s|s s1 s2 Hstep _ [IHa IHc]]; [split; reflexivity|].
  apply solve_step_sets in Hstep as (_ & [[Ha Hc] | (k & _ & Ha & Hc)]);
    rewrite Ha in IHa; rewrite Hc in IHc; split; set_solver.
Qed.

Lemma reimpose_setpoint (l : list Z) :
  forall (s s' : store),
    forM_ l reimpose_one s = (Ok tt, s') ->
    length (Vm s) = nbus (network s) ->
    (forall p, at_setpoint (network s) (Vm s) p -> at_setpoint (network s) (Vm s') p) /\
    (forall k p, k ∈ l -> py_pos (nbus (network s)) k = Some p ->
                 at_setpoint (network s) (Vm s') p).
Proof.
  induction l as [|k l IH]; intros s s'; cbn [forM_].
  - unfoldM. intros [= <-] _. split; [auto|]. intros k p Hk. inversion Hk.
  - rewrite M_bind_eq, reimpose_one_run.
    destruct (getitem (buses (network s)) k) as [ex|b] eqn:Eb; [discriminate|].
    destruct (setitem (Vm s) k (bus_V b)) as [ex|vm'] eqn:E; [discriminate|].
    intros H Hlen.
    pose proof (setitem_length _ _ _ _ E) as Hlen1.
    apply IH in H as [Hkeep Hset]; cbn [network Vm] in *; [|congruence].
    apply setitem_Ok in E as (q & Hq & ->).
    apply getitem_Ok in Eb as (q' & Hq' & Hb).
    rewrite Hlen in Hq. change (length (buses (network s))) with (nbus (network s)) in Hq'.
    assert (q' = q) as -> by congruence.
    assert (at_setpoint (network s) (<[q:=bus_V b]> (Vm s)) q) as Hat.
    { unfold at_setpoint. rewrite Hb. cbn.
      apply list_lookup_insert_eq. rewrite Hlen. eapply py_pos_lt; eassumption. }
    split.
    + intros p Hp. apply Hkeep. destruct (decide (p = q)) as [->|Hne]; [exact Hat|].
      unfold at_setpoint in *. rewrite list_lookup_insert_ne by congruence. exact Hp.
    + intros k' p Hk' Hp. apply elem_of_cons in Hk' as [-> | Hk'].
      * apply Hkeep. assert (p = q) as -> by congruence. exact Hat.
      * eapply Hset; eassumption.
Qed.

Lemma newton_update_setpoint (e : env) (a : assessment) (s s' : store) :
  newton_update e a s = (Ok tt, s') ->
  length (Vm s) = nbus (network s) ->
  forall k p, k ∈ PV_active s -> py_pos (nbus (network s)) k = Some p ->
              at_setpoint (network s) (Vm s') p.
Proof.
  unfold newton_update. unfoldM. cbv beta iota zeta.
  destruct (jacobian _ _ _) as [e1|J]; [discriminate|].
  destruct (linalg_solve _ _) as [e1|dx]; [discriminate|].
  destruct (fancy_iadd (Va s) _ _) as [e1|va']; [discriminate|].
  destruct (fancy_iadd (Vm s) _ _) as [e1|vm'] eqn:Evm; [discriminate|].
  apply fancy_iadd_Ok in Evm as [Hlvm _].
  intros H Hlen k p Hk Hp.
  apply reimpose_setpoint in H as [_ Hset]; cbn [network Vm] in *; [|congruence].
  apply (Hset k p); [apply elem_of_elements; exact Hk | exact Hp].
Qed.

Lemma enforce_one_no_limits (Q : list R) (k : Z) (s : store) (r : res unit) (s' : store) :
  Forall no_limits (buses (network s)) ->
  enforce_one Q k s = (r, s') -> s' = s.
Proof.
  intros Hno. rewrite enforce_one_run.
  destruct (getitem (buses (network s)) k) as [ex|b] eqn:Eb; [intros [= _ <-]; reflexivity|].
  apply getitem_Ok in Eb as (p & _ & Hb).
  apply list_elem_of_lookup_2 in Hb.
  rewrite Forall_forall in Hno. destruct (Hno b Hb) as [Hmin Hmax].
  unfold violated_limit, limit_check. rewrite Hmin, Hmax. cbn.
  intros [= _ <-]. reflexivity.
Qed.

Lemma enforce_limits_no_limits (Q : list R) (s : store) (r : res unit) (s' : store) :
  Forall no_limits (buses (network s)) ->
  enforce_limits Q s = (r, s') -> s' = s.
Proof.
  intros Hno. unfold enforce_limits. unfoldM.
  generalize (elements (PV_active s)) as ks. intros ks.
  induction ks as [|k ks IH]; cbn [forM_].
  - unfoldM. intros [= _ <-]. reflexivity.
  - rewrite M_bind_eq. destruct (enforce_one Q k s) as [r1 s1] eqn:E.
    apply enforce_one_no_limits in E as ->; [|exact Hno].
    destruct r1 as [ex|[]]; [intros [= _ <-]; reflexivity | exact IH].
Qed.

Lemma solve_gen_one_pass_store (t : R) (v : bool) :
  t <= 1 ->
  solve (mkLoadFlow t 1 v) (frame net_gen) =
    (Ok (mkResult [1; 1] [0; 1] [0; 0] [0; 0] 1 false),
     mkStore net_gen [1; 1] [0; 1] [0; 0] {[1%Z]} ∅).
Proof.
  intros Ht. unfold solve. rewrite M_bind_eq, setup_gen.
  change (Z.to_nat (max_iter (mkLoadFlow t 1 v))) with (1 + 0)%nat.
  rewrite (loop_passes _ _ _ _ _ _ _ _ _ (passes_gen t v Ht)), loop_end.
  reflexivity.
Qed.

(** X9: in every result of [solve], the magnitude at the position of
    each index still in [PV_active] when the call ends is the setpoint
    [V] of the bus at that position: the Newton update moves only the
    PQ and converted positions or is overwritten by the re-imposition
    of lines 186 and 187.  When no bus defines a reactive limit, no PV
    index is ever converted, so this holds for every PV index. *)
Theorem active_generators_hold_their_setpoint
    (cfg : LoadFlow) (net : Network) (r : LoadFlowResult) (s_end : store) :
  solve cfg (frame net) = (Ok r, s_end) ->
  (forall k p, k ∈ PV_active s_end -> py_pos (nbus net) k = Some p ->
               r_Vm r !! p = bus_V <$> buses net !! p) /\
  (Forall no_limits (buses net) ->
   PV_active s_end = list_to_set (pv_indices net)).
Proof.
  intros (e & s0 & Hsetup & Hloop)%solve_Ok.
  pose proof (setup_sized _ _ _ Hsetup) as (Hs0 & HY & _).
  apply setup_Ok in Hsetup as (Y & slack & _ & _ & _ & Hs0eq).
  split.
  - apply (loop_invariant cfg e (fun s => sized net s /\ holds_setpoints net s)
             (fun _ => True)) in Hloop as ((_ & Hhold) & -> & _).
    + exact Hhold.
    + intros s a s1 [Hs Hh] Ha. split; [|exact I].
      pose proof (rtc_solve_step_le _ _ _ (assess_steps _ _ _ _ Ha)) as [Hact _].
      pose proof (assess_Ok _ _ _ _ Ha) as (HVm & _).
      apply (assess_sized net) in Ha as (Hs1 & _); [|assumption..].
      split; [exact Hs1|]. intros k p Hk Hp. rewrite HVm. apply (Hh k p); [|exact Hp].
      apply Hact. exact Hk.
    + intros s a s1 s2 [Hs Hh] Ha Hu.
      apply (assess_sized net) in Ha as (Hs1 & _); [|assumption..].
      split; [eapply newton_update_sized; eassumption|].
      pose proof (newton_update_frame _ _ _ _ _ Hu) as (_ & Hact & _).
      destruct Hs1 as (Hn & HVm & _).
      intros k p Hk Hp. rewrite Hact in Hk. rewrite <- Hn.
      apply (newton_update_setpoint _ _ _ _ Hu) with k; rewrite ?Hn; assumption.
    + split; [exact Hs0|]. intros k p _ _. unfold at_setpoint.
      rewrite Hs0eq. cbn [Vm]. apply list_lookup_fmap.
    + discriminate.
  - intros Hno.
    apply (loop_invariant cfg e
             (fun s => network s = net /\ PV_active s = list_to_set (pv_indices net))
             (fun _ => True)) in Hloop as ((_ & Hact) & _).
    + exact Hact.
    + intros s a s1 [Hn Hact] Ha. split; [|exact I].
      apply assess_Ok in Ha as (_ & _ & _ & _ & He & _).
      apply enforce_limits_no_limits in He as ->; [auto | rewrite Hn; exact Hno].
    + intros s a s1 s2 [Hn Hact] Ha Hu.
      apply assess_Ok in Ha as (_ & _ & _ & _ & He & _).
      apply enforce_limits_no_limits in He as ->; [|rewrite Hn; exact Hno].
      apply newton_update_frame in Hu as (-> & -> & _). auto.
    + rewrite Hs0eq. cbn. auto.
    + discriminate.
Qed.

Lemma active_generators_hold_their_setpoint_witness :
  (forall k p,
     k ∈ PV_active (mkStore net_gen [1; 1] [0; 1] [0; 0] {[1%Z]} ∅) ->
     py_pos (nbus net_gen) k = Some p ->
     r_Vm (mkResult [1; 1] [0; 1] [0; 0] [0; 0] 1 false) !! p =
       bus_V <$> buses net_gen !! p) /\
  (Forall no_limits (buses net_gen) ->
   PV_active (mkStore net_gen [1; 1] [0; 1] [0; 0] {[1%Z]} ∅) =
     list_to_set (pv_indices net_gen)).
Proof.
  assert (1e-8 <= 1) as Ht by lra.
  exact (active_generators_hold_their_setpoint cfg_one_pass net_gen _ _
           (solve_gen_one_pass_store 1e-8 false Ht)).
Defined.

(** ** The slack bus *)

Lemma py_pos_nonneg (n : nat) (k : Z) :
  (0 <= k < Z.of_nat n)%Z -> py_pos n k = Some (Z.to_nat k).
Proof.
  intros H. unfold py_pos.
  assert ((0 <=? k)%Z && (k <? Z.of_nat n)%Z = true) as ->; [|reflexivity].
  apply andb_true_iff. split; [apply Z.leb_le | apply Z.ltb_lt]; lia.
Qed.

Lemma elem_of_p_rows (n : nat) (slack k : Z) :
  k ∈ p_rows n slack <-> (0 <= k < Z.of_nat n)%Z /\ k <> slack.
Proof.
  unfold p_rows. rewrite list_elem_of_filter, elem_of_seqZ. split; intros; intuition lia.
Qed.

Lemma p_rows_miss_slack (n : nat) (slack k : Z) :
  (0 <= slack)%Z -> k ∈ p_rows n slack -> py_pos n k <> Some (Z.to_nat slack).
Proof.
  intros Hs [Hk Hne]%elem_of_p_rows. rewrite py_pos_nonneg by exact Hk.
  intros [= H]. apply Hne. lia.
Qed.

Lemma q_rows_unaliased (net : Network) (conv : gset Z) (p : nat) (k : Z) :
  unaliased net p -> conv ⊆ list_to_set (pv_indices net) ->
  k ∈ q_rows (pq_indices net) conv -> py_pos (nbus net) k <> Some p.
Proof.
  intros Hun Hconv [Hk | Hk]%elem_of_q_rows.
  - apply elem_of_idx_of_type_iff in Hk as (b & Hb & Ht & <-).
    apply Hun; [exact Hb | congruence].
  - apply Hconv, elem_of_list_to_set, elem_of_idx_of_type_iff in Hk as (b & Hb & Ht & <-).
    apply Hun; [exact Hb | congruence].
Qed.

Lemma active_unaliased (net : Network) (act : gset Z) (p : nat) (k : Z) :
  unaliased net p -> act ⊆ list_to_set (pv_indices net) ->
  k ∈ act -> py_pos (nbus net) k <> Some p.
Proof.
  intros Hun Hact Hk.
  apply Hact, elem_of_list_to_set, elem_of_idx_of_type_iff in Hk as (b & Hb & Ht & <-).
  apply Hun; [exact Hb | congruence].
Qed.

(** X10: when the slack index is a position [0 <= slack < nbus], the
    angle at that position is never an unknown: in every result it is
    the angle the slack bus position was given, in radians.  The
    magnitude at that position is the setpoint found there as well,
    provided no PV or PQ bus carries an index denoting it. *)
Theorem slack_voltage_is_kept (cfg : LoadFlow) (net : Network) (slack : Z)
    (r : LoadFlowResult) :
  slack_index net = Ok slack ->
  (0 <= slack < Z.of_nat (nbus net))%Z ->
  LoadFlow_solve cfg net = Ok r ->
  r_Va r !! Z.to_nat slack =
    (fun b => deg2rad (bus_theta_deg b)) <$> buses net !! Z.to_nat slack /\
  (unaliased net (Z.to_nat slack) ->
   r_Vm r !! Z.to_nat slack = bus_V <$> buses net !! Z.to_nat slack).
Proof.
  intros Hslack Hrange (s_end & (e & s0 & Hsetup & Hloop)%solve_Ok)%LoadFlow_solve_Ok.
  pose proof (setup_sized _ _ _ Hsetup) as (Hs0 & HY & _).
  pose proof (setup_sets _ _ _ Hsetup) as (_ & Hact0 & Hconv0).
  apply setup_Ok in Hsetup as (Y & slack' & _ & Hslack' & He & Hs0eq).
  assert (slack' = slack) as -> by congruence.
  set (sp := Z.to_nat slack).
  set (pv0 := list_to_set (pv_indices net) : gset Z).
  apply (loop_invariant cfg e
           (fun s => sized net s /\ PV_inv pv0 s /\
                     Va s !! sp = Va s0 !! sp /\
                     (unaliased net sp -> Vm s !! sp = Vm s0 !! sp))
           (fun _ => True)) in Hloop as ((_ & _ & HVa & HVm) & -> & -> & _).
  - rewrite HVa. split.
    + rewrite Hs0eq. cbn [Va]. apply list_lookup_fmap.
    + intros Hun. rewrite (HVm Hun), Hs0eq. cbn [Vm]. apply list_lookup_fmap.
  - intros s a s1 (Hs & Hinv & HVa & HVm) Ha. split; [|exact I].
    pose proof (assess_steps _ _ _ _ Ha) as Hrtc.
    apply (rtc_solve_step_inv _ _ _ _ Hinv) in Hrtc as (Hinv1 & _).
    pose proof (assess_Ok _ _ _ _ Ha) as (-> & -> & _).
    apply (assess_sized net) in Ha as (Hs1 & _); auto.
  - intros s a s1 s2 (Hs & Hinv & HVa & HVm) Ha Hu.
    pose proof (assess_steps _ _ _ _ Ha) as Hrtc.
    apply (rtc_solve_step_inv _ _ _ _ Hinv) in Hrtc as (Hinv1 & _).
    pose proof (assess_Ok _ _ _ _ Ha) as (HVm1 & HVa1 & _ & _ & _ & Hpr & Hqr & _).
    apply (assess_sized net) in Ha as (Hs1 & _); [|assumption..].
    split; [eapply newton_update_sized; eassumption|].
    pose proof (newton_update_frame _ _ _ _ _ Hu) as (_ & Hact & Hconv & _).
    split; [unfold PV_inv; rewrite Hact, Hconv; exact Hinv1|].
    destruct Hs1 as (_ & HlVm & HlVa & _).
    apply newton_update_vectors in Hu as (_ & _ & HVa2 & HVm2).
    rewrite HlVa in HVa2. rewrite HlVm in HVm2. rewrite Hpr in HVa2. rewrite Hqr in HVm2.
    destruct Hinv1 as [_ Hu1].
    split.
    + rewrite HVa2, HVa1; [exact HVa|]. rewrite He. cbn [e_n e_slack].
      intros k. apply p_rows_miss_slack. lia.
    + intros Hun. rewrite HVm2, HVm1; [exact (HVm Hun) | |].
      * rewrite He. cbn [e_pq]. intros k. apply q_rows_unaliased; [exact Hun|].
        fold pv0. rewrite <- Hu1. set_solver.
      * intros k. apply active_unaliased; [exact Hun|].
        fold pv0. rewrite <- Hu1. set_solver.
  - split; [exact Hs0|]. split; [|auto].
    split; rewrite Hact0, Hconv0; [set_solver | fold pv0; set_solver].
  - discriminate.
Qed.

Lemma slack_voltage_is_kept_witness :
  r_Va (flat_result 0 true) !! Z.to_nat 0 =
    (fun b => deg2rad (bus_theta_deg b)) <$> buses net_idle !! Z.to_nat 0 /\
  (unaliased net_idle (Z.to_nat 0) ->
   r_Vm (flat_result 0 true) !! Z.to_nat 0 = bus_V <$> buses net_idle !! Z.to_nat 0).
Proof.
  apply (slack_voltage_is_kept cfg_default net_idle 0 (flat_result 0 true)).
  - reflexivity.
  - cbn. lia.
  - exact solve_idle.
Defined.

(** ** The exceptions of [solve] *)

Lemma mapR_Raise {A B} (f : A -> res B) (l : list A) (ex : exn) :
  mapR f l = Raise ex -> exists x, x ∈ l /\ f x = Raise ex.
Proof.
  induction l as [|x l IH]; cbn; [discriminate|].
  intros [H | (y & _ & H)]%bind_Raise.
  - exists x. split; [apply list_elem_of_here | exact H].
  - apply bind_Raise in H as [H | (ys & _ & H)]; [|discriminate].
    destruct (IH H) as (x' & Hin & Hx'). exists x'.
    split; [apply list_elem_of_further; exact Hin | exact Hx'].
Qed.

Lemma mapR_length {A B} (f : A -> res B) (l : list A) (ys : list B) :
  mapR f l = Ok ys -> length ys = length l.
Proof.
  revert ys. induction l as [|x l IH]; intros ys; cbn.
  - intros [= <-]. reflexivity.
  - intros (y & _ & H)%bind_Ok. apply bind_Ok in H as (ys' & H' & [= <-]).
    cbn. f_equal. apply IH. exact H'.
Qed.

Lemma mapR_safe {A B} (f : A -> res B) (l : list A) :
  (forall x, x ∈ l -> exists y, f x = Ok y) -> exists ys, mapR f l = Ok ys.
Proof.
  induction l as [|x l IH]; intros H; cbn; [eauto|].
  destruct (H x) as [y ->]; [apply list_elem_of_here|].
  destruct IH as [ys ->]; [intros x' Hx'; apply H, list_elem_of_further, Hx'|].
  cbn. eauto.
Qed.

Lemma mat_get_Raise {A} (Y : list (list A)) (i j : Z) (ex : exn) :
  mat_get Y i j = Raise ex -> ex = IndexError.
Proof.
  unfold mat_get. intros [H | (row & _ & H)]%bind_Raise;
    apply getitem_Raise in H as [-> _]; reflexivity.
Qed.

Lemma dth_Raise (x : jac_input) (k m : Z) (ex : exn) :
  dth x k m = Raise ex -> ex = IndexError.
Proof.
  unfold dth. intros [H | (a & _ & H)]%bind_Raise.
  - apply getitem_Raise in H as [-> _]. reflexivity.
  - apply bind_Raise in H as [H | (b & _ & H)]; [|discriminate].
    apply getitem_Raise in H as [-> _]. reflexivity.
Qed.

(** Splits a failed sequence of subscript reads into the read that failed. *)
Ltac index_raise H :=
  repeat
    match type of H with
    | mbind _ _ = Raise _ => apply bind_Raise in H as [H | (? & _ & H)]
    | (if ?c then _ else _) = Raise _ => destruct c
    | getitem _ _ = Raise _ => apply getitem_Raise in H as [-> _]; reflexivity
    | mat_get _ _ _ = Raise _ => apply mat_get_Raise in H as ->; reflexivity
    | dth _ _ _ = Raise _ => apply dth_Raise in H as ->; reflexivity
    | Ok _ = Raise _ => discriminate H
    end.

Lemma H_entry_Raise (x : jac_input) (k m : Z) (ex : exn) :
  H_entry x k m = Raise ex -> ex = IndexError.
Proof. unfold H_entry. intros H. index_raise H. Qed.

Lemma N_entry_Raise (x : jac_input) (k m : Z) (ex : exn) :
  N_entry x k m = Raise ex -> ex = IndexError.
Proof. unfold N_entry. intros H. index_raise H. Qed.

Lemma M_entry_Raise (x : jac_input) (k m : Z) (ex : exn) :
  M_entry x k m = Raise ex -> ex = IndexError.
Proof. unfold M_entry. intros H. index_raise H. Qed.

Lemma L_entry_Raise (x : jac_input) (k m : Z) (ex : exn) :
  L_entry x k m = Raise ex -> ex = IndexError.
Proof. unfold L_entry. intros H. index_raise H. Qed.

Lemma list_index_Raise (l : list Z) (k : Z) (ex : exn) :
  list_index l k = Raise ex -> ex = ValueError /\ k ∉ l.
Proof.
  induction l as [|m l IH]; cbn.
  - intros [= <-]. split; [reflexivity | apply not_elem_of_nil].
  - destruct (m =? k)%Z eqn:E; [discriminate|].
    destruct (list_index l k) as [e1|i]; cbn; [|discriminate].
    intros [= <-]. destruct (IH eq_refl) as [-> Hk]. split; [reflexivity|].
    apply not_elem_of_cons. split; [|exact Hk]. apply Z.eqb_neq in E. congruence.
Qed.

Lemma list_index_safe (l : list Z) (k : Z) :
  k ∈ l -> exists i, list_index l k = Ok i.
Proof.
  intros Hk. destruct (list_index l k) as [ex|i] eqn:E; [|eauto].
  apply list_index_Raise in E as [_ Hn]. contradiction.
Qed.

Lemma jacobian_Raise (x : jac_input) (pr qr : list Z) (ex : exn) :
  jacobian x pr qr = Raise ex -> ex = IndexError \/ ex = ValueError.
Proof.
  unfold jacobian. intros [H | (top & _ & H)]%bind_Raise.
  - apply mapR_Raise in H as (k & _ & H). unfold HN_row in H.
    apply bind_Raise in H as [H | (? & _ & H)];
      [apply list_index_Raise in H as [-> _]; auto|].
    apply bind_Raise in H as [H | (? & _ & H)].
    { apply mapR_Raise in H as (m & _ & H). apply H_entry_Raise in H. auto. }
    apply bind_Raise in H as [H | (? & _ & H)]; [|discriminate].
    apply mapR_Raise in H as (m & _ & H). apply N_entry_Raise in H. auto.
  - apply bind_Raise in H as [H | (bottom & _ & H)]; [|discriminate].
    apply mapR_Raise in H as (k & _ & H). unfold ML_row in H.
    apply bind_Raise in H as [H | (? & _ & H)];
      [apply list_index_Raise in H as [-> _]; auto|].
    apply bind_Raise in H as [H | (? & _ & H)].
    { apply mapR_Raise in H as (m & _ & H). apply M_entry_Raise in H. auto. }
    apply bind_Raise in H as [H | (? & _ & H)];
      [apply list_index_Raise in H as [-> _]; auto|].
    apply bind_Raise in H as [H | (? & _ & H)]; [|discriminate].
    apply mapR_Raise in H as (m & _ & H). apply L_entry_Raise in H. auto.
Qed.

Lemma linalg_solve_Raise (J : list (list R)) (b : list R) (ex : exn) :
  linalg_solve J b = Raise ex -> ex = LinAlgError.
Proof.
  unfold linalg_solve. destruct (gauss _ _); [discriminate|]. intros [= <-]. reflexivity.
Qed.

Lemma setitem_Raise {A} (l : list A) (k : Z) (a : A) (ex : exn) :
  setitem l k a = Raise ex -> ex = IndexError /\ py_pos (length l) k = None.
Proof.
  unfold setitem. destruct (py_pos (length l) k); [discriminate|].
  intros [= <-]. auto.
Qed.

Lemma foldM_setitem_Raise (l : list (Z * R)) (v : list R) (ex : exn) :
  foldM (fun w kd => setitem w (fst kd) (snd kd)) v l = Raise ex -> ex = IndexError.
Proof.
  revert v. induction l as [|[k d] l IH]; intros v; cbn; [discriminate|].
  intros [H | (v1 & _ & H)]%bind_Raise.
  - apply setitem_Raise in H as [-> _]. reflexivity.
  - eapply IH. exact H.
Qed.

Lemma fancy_iadd_Raise (v : list R) (cols : list Z) (d : list R) (ex : exn) :
  fancy_iadd v cols d = Raise ex -> ex = IndexError.
Proof.
  unfold fancy_iadd. intros [H | (old & _ & H)]%bind_Raise.
  - eapply np_take_Raise. exact H.
  - eapply foldM_setitem_Raise. exact H.
Qed.

Lemma reimpose_Raise (l : list Z) :
  forall (s : store) (ex : exn) (s' : store),
    forM_ l reimpose_one s = (Raise ex, s') -> ex = IndexError.
Proof.
  induction l as [|k l IH]; intros s ex s'; cbn [forM_].
  - unfoldM. discriminate.
  - rewrite M_bind_eq, reimpose_one_run.
    destruct (getitem (buses (network s)) k) as [e1|b] eqn:Eb.
    { intros [= <- _]. apply getitem_Raise in Eb as [-> _]. reflexivity. }
    destruct (setitem (Vm s) k (bus_V b)) as [e1|vm'] eqn:E.
    { intros [= <- _]. apply setitem_Raise in E as [-> _]. reflexivity. }
    apply IH.
Qed.

Lemma newton_update_Raise (e : env) (a : assessment) (s : store) (ex : exn) (s' : store) :
  newton_update e a s = (Raise ex, s') ->
  ex = IndexError \/ ex = ValueError \/ ex = LinAlgError.
Proof.
  unfold newton_update. unfoldM. cbv beta iota zeta.
  destruct (jacobian _ _ _) as [e1|J] eqn:EJ.
  { intros [= <- _]. apply jacobian_Raise in EJ. tauto. }
  destruct (linalg_solve _ _) as [e1|dx] eqn:Ed.
  { intros [= <- _]. apply linalg_solve_Raise in Ed. tauto. }
  destruct (fancy_iadd (Va s) _ _) as [e1|va'] eqn:Eva.
  { intros [= <- _]. apply fancy_iadd_Raise in Eva. tauto. }
  destruct (fancy_iadd (Vm s) _ _) as [e1|vm'] eqn:Evm.
  { intros [= <- _]. apply fancy_iadd_Raise in Evm. tauto. }
  intros H. apply reimpose_Raise in H. tauto.
Qed.

Lemma max_abs_Raise (m : list R) (ex : exn) :
  max_abs m = Raise ex -> ex = ValueError /\ m = [].
Proof.
  unfold max_abs, np_max. destruct m; cbn; [|discriminate]. intros [= <-]. auto.
Qed.

Lemma assess_Raise (e : env) (s : store) (ex : exn) (s' : store) :
  assess e s = (Raise ex, s') -> ex = IndexError \/ ex = AssertionError.
Proof.
  unfold assess. unfoldM. cbv beta iota zeta.
  destruct (enforce_limits _ s) as [[e1|[]] s1] eqn:E.
  - intros [= <- _]. unfold enforce_limits in E. revert E. unfoldM. intros E.
    apply forM_enforce_outcome in E as (_ & Hkind & _). apply Hkind. reflexivity.
  - destruct (mismatch_vector _ _ _ _ _ _) as [e2|mm] eqn:Em; [|discriminate].
    intros [= <- _]. apply mismatch_vector_Raise in Em. auto.
Qed.

Lemma iteration_Raise (cfg : LoadFlow) (e : env) (it : Z) (s : store) (ex : exn)
    (s' : store) :
  iteration cfg e it s = (Raise ex, s') ->
  (assess e s = (Raise ex, s')) \/
  (exists a, assess e s = (Ok a, s') /\ a_mismatch a = [] /\ ex = ValueError) \/
  (exists a s1, assess e s = (Ok a, s1) /\ a_mismatch a <> [] /\
                newton_update e a s1 = (Raise ex, s')).
Proof.
  unfold iteration. rewrite M_bind_eq.
  destruct (assess e s) as [[e1|a] s1] eqn:Ea; [intros [= <- <-]; auto|].
  rewrite M_bind_eq. unfold lift at 1.
  destruct (max_abs (a_mismatch a)) as [e2|mx] eqn:Emx.
  { intros [= <- <-]. apply max_abs_Raise in Emx as [-> Hm]. right. left. eauto. }
  destruct (Rltb mx (tol cfg)); [unfoldM; discriminate|].
  rewrite M_bind_eq. destruct (newton_update e a s1) as [[e3|[]] s2] eqn:En;
    [|unfoldM; discriminate].
  intros [= <- <-]. right. right. exists a, s1. split; [reflexivity|].
  split; [|exact En]. intros Hm. rewrite Hm in Emx. discriminate.
Qed.

Lemma iteration_Raise_exn (cfg : LoadFlow) (e : env) (it : Z) (s : store) (ex : exn)
    (s' : store) :
  iteration cfg e it s = (Raise ex, s') -> iteration_exn ex.
Proof.
  unfold iteration_exn.
  intros [H | [(a & _ & _ & ->) | (a & s1 & _ & _ & H)]]%iteration_Raise.
  - apply assess_Raise in H. tauto.
  - tauto.
  - apply newton_update_Raise in H. tauto.
Qed.

Section loop_failure.
Variable cfg : LoadFlow.
Variable e : env.
Variable I : store -> Prop.
Variable E : exn -> Prop.
Hypothesis update_keeps :
  forall s a s1 s2, I s -> assess e s = (Ok a, s1) ->
                    newton_update e a s1 = (Ok tt, s2) -> I s2.
Hypothesis iteration_fails :
  forall it s ex s', I s -> iteration cfg e it s = (Raise ex, s') -> E ex.

Lemma loop_failure (fuel : nat) :
  forall (it : Z) (last : option (list R * list R)) (s s' : store) (ex : exn),
    I s -> loop cfg e fuel it last s = (Raise ex, s') ->
    E ex \/ (ex = UnboundLocalError /\ fuel = O /\ last = None).
Proof.
  induction fuel as [|fuel IH]; intros it last s s' ex HI H.
  - cbn in H. destruct last as [pw|]; [discriminate|].
    cbn in H. injection H as <- _. auto.
  - cbn [loop] in H. rewrite M_bind_eq in H.
    destruct (iteration cfg e it s) as [[e1|[r1|pw]] s1] eqn:Eit.
    + injection H as <- <-. left. eapply iteration_fails; eassumption.
    + discriminate.
    + apply iteration_continues in Eit as (a & s2 & mx & Ha & _ & _ & Hu & ->).
      apply IH in H as [H | (_ & _ & [=])]; [auto|].
      eapply update_keeps; eassumption.
Qed.
End loop_failure.

Lemma build_ybus_Raise (net : Network) (ex : exn) :
  build_ybus net = Raise ex -> ex = ZeroDivisionError \/ ex = IndexError.
Proof.
  unfold build_ybus. intros [H | (Y1 & _ & H)]%bind_Raise.
  - eapply foldM_add_branch_Raise; eassumption.
  - right. eapply foldM_add_shunt_Raise; eassumption.
Qed.

Lemma first_slack_Exists (bs : list Bus) :
  (exists i, first_slack bs = Ok i) <-> Exists is_slack bs.
Proof.
  split.
  - intros (i & (pre & b & post & -> & _ & Hb & _)%first_slack_Ok).
    apply Exists_app. right. apply Exists_cons_hd. exact Hb.
  - intros Hex. destruct (first_slack bs) as [ex|i] eqn:E; [|eauto].
    apply first_slack_Raise in E as [_ HF]. exfalso.
    apply Exists_exists in Hex as (b & Hin & Hb).
    rewrite Forall_forall in HF. exact (HF b Hin Hb).
Qed.

(** The outcome of a call, by the phase that decides it. *)
Lemma LoadFlow_solve_cases (cfg : LoadFlow) (net : Network) :
  match build_ybus net with
  | Raise ex => LoadFlow_solve cfg net = Raise ex
  | Ok _ =>
      match slack_index net with
      | Raise ex => LoadFlow_solve cfg net = Raise ex
      | Ok _ =>
          ((max_iter cfg <= 0)%Z /\ LoadFlow_solve cfg net = Raise UnboundLocalError) \/
          ((0 < max_iter cfg)%Z /\
           ((exists r, LoadFlow_solve cfg net = Ok r) \/
            (exists ex, LoadFlow_solve cfg net = Raise ex /\ iteration_exn ex)))
      end
  end.
Proof.
  unfold LoadFlow_solve, solve. rewrite M_bind_eq, setup_run. cbn [network frame].
  destruct (build_ybus net) as [ex|Y]; [reflexivity|].
  destruct (slack_index net) as [ex|slack]; [reflexivity|].
  destruct (Z.to_nat (max_iter cfg)) as [|fuel] eqn:Ef.
  - left. split; [lia | reflexivity].
  - right. split; [lia|].
    match goal with |- context [loop cfg ?e (S fuel) 0%Z None ?s] =>
      destruct (loop cfg e (S fuel) 0%Z None s) as [[ex|r] s'] eqn:El
    end; cbn [fst]; [|eauto].
    right. exists ex. split; [reflexivity|].
    apply (loop_failure cfg _ (fun _ => True) iteration_exn) in El
      as [H | (_ & [=] & _)]; auto.
    intros it s0 ex0 s0' _. apply iteration_Raise_exn.
Qed.

(** X11: three exceptions of [solve] name their cause.  A
    [ZeroDivisionError] is the one of [build_ybus]; a [StopIteration]
    means that the admittance matrix was built and the network has no
    slack bus; an [UnboundLocalError] means that the matrix was built,
    a slack bus exists and [max_iter] allows no iteration.  Nothing in
    the loop raises any of the three. *)
Theorem exceptions_name_their_cause (cfg : LoadFlow) (net : Network) :
  (LoadFlow_solve cfg net = Raise ZeroDivisionError <->
     build_ybus net = Raise ZeroDivisionError) /\
  (LoadFlow_solve cfg net = Raise StopIteration <->
     (exists Y, build_ybus net = Ok Y) /\ Forall (fun b => ~ is_slack b) (buses net)) /\
  (LoadFlow_solve cfg net = Raise UnboundLocalError <->
     (exists Y, build_ybus net = Ok Y) /\ Exists is_slack (buses net) /\
     (max_iter cfg <= 0)%Z).
Proof.
  pose proof (LoadFlow_solve_cases cfg net) as Hc.
  pose proof (first_slack_Exists (buses net)) as Hex.
  pose proof (first_slack_Raise (buses net)) as Hno.
  fold (slack_index net) in Hex, Hno.
  destruct (build_ybus net) as [ex|Y] eqn:EY.
  { pose proof (build_ybus_Raise _ _ EY) as Hk. rewrite Hc.
    split; [split; congruence|].
    split; (split; [intros [= ->]; destruct Hk; discriminate | intros [(Y & [=]) _]]). }
  destruct (slack_index net) as [ex|slack] eqn:Es.
  { destruct (Hno ex eq_refl) as [-> HF]. rewrite Hc.
    split; [split; discriminate|].
    split; [split; eauto|].
    split; [discriminate|]. intros (_ & Hs & _).
    apply Hex in Hs as [i [=]]. }
  assert (Exists is_slack (buses net)) as Hs by (apply Hex; eauto).
  assert (~ Forall (fun b => ~ is_slack b) (buses net)) as Hnf.
  { intros HF. apply Exists_exists in Hs as (b & Hin & Hb).
    rewrite Forall_forall in HF. exact (HF b Hin Hb). }
  destruct Hc as [[Hm ->] | [Hm [[r ->] | (ex & -> & Hk)]]].
  - split; [split; discriminate|]. split; [split; [discriminate | tauto]|].
    split; eauto.
  - split; [split; discriminate|]. split; [split; [discriminate | tauto]|].
    split; [discriminate | lia].
  - unfold iteration_exn in Hk.
    split; [split; [intros [= ->] | discriminate]|].
    { destruct Hk as [|[|[|]]]; discriminate. }
    split; [split; [intros [= ->] | tauto]|].
    { destruct Hk as [|[|[|]]]; discriminate. }
    split; [intros [= ->] | lia].
    destruct Hk as [|[|[|]]]; discriminate.
Qed.

(** ** Networks whose indices are positions *)

Lemma positional_idx (net : Network) (t : BusType) (k : Z) :
  positional net -> k ∈ idx_of_type t (buses net) ->
  (0 <= k < Z.of_nat (nbus net))%Z /\
  exists b, buses net !! Z.to_nat k = Some b /\ bus_type b = t.
Proof.
  intros Hpos (b & Hin & Ht & <-)%elem_of_idx_of_type_iff.
  apply list_elem_of_lookup_1 in Hin as [p Hp].
  pose proof (lookup_lt_Some _ _ _ Hp) as Hlt.
  rewrite (Hpos p b Hp). unfold nbus. split; [lia|].
  exists b. rewrite Nat2Z.id. auto.
Qed.

Lemma positional_slack (net : Network) (slack : Z) :
  positional net -> slack_index net = Ok slack ->
  (0 <= slack < Z.of_nat (nbus net))%Z /\
  (slack ∉ pq_indices net) /\ (slack ∉ pv_indices net).
Proof.
  intros Hpos (pre & b & post & Hb & _ & Hs & Hi)%first_slack_Ok.
  assert (buses net !! length pre = Some b) as Hp.
  { rewrite Hb. apply list_lookup_middle. reflexivity. }
  pose proof (lookup_lt_Some _ _ _ Hp) as Hlt.
  pose proof (Hpos _ _ Hp) as Hidx.
  assert (slack = Z.of_nat (length pre)) as -> by congruence.
  unfold nbus. split; [lia|].
  split; intros (_ & b' & Hb' & Ht)%positional_idx; try exact Hpos;
    rewrite Nat2Z.id, Hp in Hb'; injection Hb' as <-;
    unfold is_slack in Hs; congruence.
Qed.

Lemma is_Some_py_pos (n : nat) (k : Z) :
  (0 <= k < Z.of_nat n)%Z -> is_Some (py_pos n k).
Proof. intros H. apply py_pos_Some. lia. Qed.

Lemma getitem_nonneg {A} (l : list A) (k : Z) (a : A) :
  (0 <= k)%Z -> l !! Z.to_nat k = Some a -> getitem l k = Ok a.
Proof.
  intros Hk Hl. apply getitem_Ok. exists (Z.to_nat k). split; [|exact Hl].
  apply py_pos_nonneg. apply lookup_lt_Some in Hl. lia.
Qed.

(** ** Reads and writes that cannot fail *)

Lemma enforce_one_safe (Q : list R) (k : Z) (s : store) (b : Bus) :
  getitem (buses (network s)) k = Ok b -> bus_type b = PV ->
  is_Some (py_pos (length Q) k) -> is_Some (py_pos (length (Q_spec s)) k) ->
  exists s', enforce_one Q k s = (Ok tt, s').
Proof.
  intros Hb Ht HQ [p Hp]. rewrite enforce_one_run, Hb.
  destruct (getitem_in_range Q k HQ) as [q Hq].
  assert (forall lim, exists s', convert k lim b s = (Ok tt, s')) as Hconv.
  { intros lim. rewrite convert_run. cbv zeta. unfold setitem. rewrite Hp.
    rewrite bool_decide_eq_true_2 by exact Ht. cbn. eauto. }
  unfold violated_limit, limit_check. rewrite Hq.
  destruct (bus_Qmin b) as [lo|]; cbn.
  - destruct (Rltb q lo); cbn; [apply Hconv|].
    destruct (bus_Qmax b) as [hi|]; cbn; [|eauto].
    destruct (Rltb hi q); [apply Hconv | eauto].
  - destruct (bus_Qmax b) as [hi|]; cbn; [|eauto].
    destruct (Rltb hi q); [apply Hconv | eauto].
Qed.

Lemma forM_enforce_safe (Q : list R) (ks : list Z) :
  forall s,
    (forall k, k ∈ ks ->
       is_Some (py_pos (length Q) k) /\ is_Some (py_pos (length (Q_spec s)) k) /\
       exists b, getitem (buses (network s)) k = Ok b /\ bus_type b = PV) ->
    exists s', forM_ ks (enforce_one Q) s = (Ok tt, s').
Proof.
  induction ks as [|k ks IH]; intros s H; cbn [forM_].
  - unfoldM. eauto.
  - destruct (H k) as (HQ & Hqs & b & Hb & Ht); [apply list_elem_of_here|].
    destruct (enforce_one_safe Q k s b Hb Ht HQ Hqs) as [s1 E].
    rewrite M_bind_eq, E.
    pose proof (enforce_one_sets _ _ _ _ _ E) as (Hn & _).
    pose proof (enforce_one_Q_spec_length _ _ _ _ _ E) as Hlen.
    apply IH. intros k' Hk'. rewrite Hn, Hlen. apply H, list_elem_of_further, Hk'.
Qed.

Lemma np_take_safe (v : list R) (rows : list Z) :
  (forall k, k ∈ rows -> is_Some (py_pos (length v) k)) ->
  exists xs, np_take v rows = Ok xs.
Proof.
  intros H. apply mapR_safe. intros k Hk. apply getitem_in_range, H, Hk.
Qed.

Lemma mismatch_vector_safe (ps qs P Q : list R) (pr qr : list Z) (n : nat) :
  length ps = n -> length qs = n -> length P = n -> length Q = n ->
  (forall k, k ∈ pr -> is_Some (py_pos n k)) ->
  (forall k, k ∈ qr -> is_Some (py_pos n k)) ->
  exists mm, mismatch_vector ps qs P Q pr qr = Ok mm.
Proof.
  intros H1 H2 H3 H4 Hpr Hqr. unfold mismatch_vector.
  destruct (np_take_safe ps pr) as [a ->]; [rewrite H1; exact Hpr|].
  destruct (np_take_safe P pr) as [b ->]; [rewrite H3; exact Hpr|].
  destruct (np_take_safe qs qr) as [c ->]; [rewrite H2; exact Hqr|].
  destruct (np_take_safe Q qr) as [d ->]; [rewrite H4; exact Hqr|].
  cbn. eauto.
Qed.

Lemma mismatch_vector_length (ps qs P Q : list R) (pr qr : list Z) (mm : list R) :
  mismatch_vector ps qs P Q pr qr = Ok mm ->
  length mm = (length pr + length qr)%nat.
Proof.
  unfold mismatch_vector. intros (a & Ha & H)%bind_Ok.
  apply bind_Ok in H as (b & Hb & H). apply bind_Ok in H as (c & Hc & H).
  apply bind_Ok in H as (d & Hd & [= <-]).
  apply mapR_length in Ha, Hb, Hc, Hd.
  rewrite length_app, !length_zip_with. lia.
Qed.

Lemma length_p_rows (n : nat) (slack : Z) :
  (0 <= slack < Z.of_nat n)%Z -> S (length (p_rows n slack)) = n.
Proof.
  intros Hs. unfold p_rows.
  rewrite (length_filter_ne (seqZ 0 (Z.of_nat n)) slack (NoDup_seqZ _ _)).
  - rewrite length_seqZ. lia.
  - apply elem_of_seqZ. lia.
Qed.

Lemma mat_get_in_range {A} (n : nat) (Y : list (list A)) (i j : Z) :
  square n Y -> is_Some (py_pos n i) -> is_Some (py_pos n j) ->
  exists a, mat_get Y i j = Ok a.
Proof.
  intros Hsq [p Hp] [q Hq]. rewrite (mat_get_entry n) by exact Hsq.
  rewrite Hp, Hq. destruct Hsq as [Hlen HF].
  apply py_pos_lt in Hp, Hq. rewrite <- Hlen in Hp.
  destruct (lookup_lt_is_Some_2 Y p Hp) as [row Hrow].
  rewrite Forall_lookup in HF. pose proof (HF _ _ Hrow) as Hlr.
  rewrite <- Hlr in Hq. destruct (lookup_lt_is_Some_2 row q Hq) as [a Ha].
  unfold entry. rewrite Hrow. cbn. rewrite Ha. eauto.
Qed.

(** Resolves the reads of a Jacobian entry whose subscripts are in range. *)
Ltac read_ok n :=
  repeat
    match goal with
    | |- context [getitem ?l ?k] =>
        let a := fresh "a" in
        let H := fresh "H" in
        destruct (getitem_in_range l k) as [a H];
        [ match goal with Hl : length l = n |- _ => rewrite Hl; assumption end
        | rewrite H; cbn [mbind res_bind]; cbv beta ]
    | |- context [mat_get ?Y ?i ?j] =>
        let a := fresh "a" in
        let H := fresh "H" in
        destruct (mat_get_in_range n Y i j) as [a H];
        [ assumption | assumption | assumption
        | rewrite H; cbn [mbind res_bind]; cbv beta ]
    end.

Lemma H_entry_safe (n : nat) (x : jac_input) (k m : Z) :
  jac_sized n x -> is_Some (py_pos n k) -> is_Some (py_pos n m) ->
  exists v, H_entry x k m = Ok v.
Proof.
  intros (HG & HB & HVm & HVa & HP & HQ) Hk Hm. unfold H_entry, dth.
  destruct (m =? k)%Z; read_ok n; eauto.
Qed.

Lemma N_entry_safe (n : nat) (x : jac_input) (k m : Z) :
  jac_sized n x -> is_Some (py_pos n k) -> is_Some (py_pos n m) ->
  exists v, N_entry x k m = Ok v.
Proof.
  intros (HG & HB & HVm & HVa & HP & HQ) Hk Hm. unfold N_entry, dth.
  destruct (m =? k)%Z; read_ok n; eauto.
Qed.

Lemma M_entry_safe (n : nat) (x : jac_input) (k m : Z) :
  jac_sized n x -> is_Some (py_pos n k) -> is_Some (py_pos n m) ->
  exists v, M_entry x k m = Ok v.
Proof.
  intros (HG & HB & HVm & HVa & HP & HQ) Hk Hm. unfold M_entry, dth.
  destruct (m =? k)%Z; read_ok n; eauto.
Qed.

Lemma L_entry_safe (n : nat) (x : jac_input) (k m : Z) :
  jac_sized n x -> is_Some (py_pos n k) -> is_Some (py_pos n m) ->
  exists v, L_entry x k m = Ok v.
Proof.
  intros (HG & HB & HVm & HVa & HP & HQ) Hk Hm. unfold L_entry, dth.
  destruct (m =? k)%Z; read_ok n; eauto.
Qed.

Lemma jacobian_safe (n : nat) (x : jac_input) (pr qr : list Z) :
  jac_sized n x ->
  (forall k, k ∈ pr -> is_Some (py_pos n k)) ->
  (forall k, k ∈ qr -> is_Some (py_pos n k) /\ k ∈ pr) ->
  exists J, jacobian x pr qr = Ok J.
Proof.
  intros Hx Hpr Hqr. unfold jacobian.
  destruct (mapR_safe (HN_row x pr qr) pr) as [top ->].
  { intros k Hk. unfold HN_row.
    destruct (list_index_safe pr k Hk) as [i ->]. cbn [mbind res_bind]. cbv beta.
    destruct (mapR_safe (H_entry x k) pr) as [h ->].
    { intros m Hm. apply (H_entry_safe n); auto. }
    destruct (mapR_safe (N_entry x k) qr) as [nn ->].
    { intros m Hm. apply (N_entry_safe n); [auto.. | apply Hqr, Hm]. }
    cbn. eauto. }
  destruct (mapR_safe (ML_row x pr qr) qr) as [bottom ->].
  { intros k Hk. destruct (Hqr k Hk) as [Hkr Hkp]. unfold ML_row.
    destruct (list_index_safe pr k Hkp) as [i ->]. cbn [mbind res_bind]. cbv beta.
    destruct (mapR_safe (M_entry x k) pr) as [h ->].
    { intros m Hm. apply (M_entry_safe n); auto. }
    destruct (list_index_safe qr k Hk) as [i' ->]. cbn [mbind res_bind]. cbv beta.
    destruct (mapR_safe (L_entry x k) qr) as [l ->].
    { intros m Hm. apply (L_entry_safe n); [auto.. | apply Hqr, Hm]. }
    cbn. eauto. }
  cbn. eauto.
Qed.

Lemma foldM_setitem_safe (l : list (Z * R)) :
  forall v : list R,
    (forall kd, kd ∈ l -> is_Some (py_pos (length v) (fst kd))) ->
    exists v', foldM (fun w kd => setitem w (fst kd) (snd kd)) v l = Ok v'.
Proof.
  induction l as [|[k d] l IH]; intros v H; cbn [foldM]; [eauto|].
  destruct (H (k, d)) as [p Hp]; [apply list_elem_of_here|]. cbn [fst] in Hp.
  assert (setitem v (fst (k, d)) (snd (k, d)) = Ok (<[p:=d]> v)) as ->.
  { unfold setitem. cbn [fst snd]. rewrite Hp. reflexivity. }
  cbn [mbind res_bind]. cbv beta.
  apply IH. intros kd Hkd. rewrite length_insert. apply H, list_elem_of_further, Hkd.
Qed.

Lemma fancy_iadd_safe (v : list R) (cols : list Z) (d : list R) :
  (forall k, k ∈ cols -> is_Some (py_pos (length v) k)) ->
  exists v', fancy_iadd v cols d = Ok v'.
Proof.
  intros H. unfold fancy_iadd. destruct (np_take_safe v cols H) as [old ->]. cbn.
  apply foldM_setitem_safe. intros [k x] Hkd. apply H. cbn.
  eapply elem_of_zip_l. exact Hkd.
Qed.

Lemma reimpose_safe (l : list Z) :
  forall s,
    (forall k, k ∈ l -> is_Some (py_pos (length (buses (network s))) k) /\
                        is_Some (py_pos (length (Vm s)) k)) ->
    exists s', forM_ l reimpose_one s = (Ok tt, s').
Proof.
  induction l as [|k l IH]; intros s H; cbn [forM_].
  - unfoldM. eauto.
  - destruct (H k) as [Hb [p Hp]]; [apply list_elem_of_here|].
    destruct (getitem_in_range _ _ Hb) as [b Eb].
    rewrite M_bind_eq, reimpose_one_run, Eb. unfold setitem. rewrite Hp.
    apply IH. cbn. intros k' Hk'. rewrite length_insert.
    apply H, list_elem_of_further, Hk'.
Qed.

Lemma square_map {A B} (f : A -> B) (n : nat) (Y : list (list A)) :
  square n Y -> square n (map (map f) Y).
Proof.
  intros [Hlen HF]. split; [rewrite length_map; exact Hlen|].
  rewrite Forall_forall in HF. apply Forall_forall. intros row Hrow.
  apply list_elem_of_fmap in Hrow as (row' & -> & Hin).
  rewrite length_map. apply HF. exact Hin.
Qed.

Lemma build_ybus_safe (net : Network) :
  Forall (branch_ok (nbus net)) (branches net) ->
  Forall (shunt_in_range (nbus net)) (shunts net) ->
  exists Y, build_ybus net = Ok Y.
Proof.
  intros HF1 HF2. unfold build_ybus.
  destruct (proj2 (foldM_add_branch_Ok _ _ _ (square_zeros (nbus net))) HF1) as [Y1 H1].
  destruct (proj1 (foldM_add_branch_Ok _ _ _ (square_zeros _)) _ H1) as [Hsq1 _].
  destruct (proj2 (foldM_add_shunt_Ok _ _ _ Hsq1) HF2) as [Y H2].
  exists Y. rewrite H1. exact H2.
Qed.

(** ** A pass on a well-formed network *)

Lemma setup_fits (net : Network) (e : env) (s0 : store) :
  positional net -> setup (frame net) = (Ok e, s0) -> fits net e.
Proof.
  intros Hpos (Y & slack & HY & Hs & -> & _)%setup_Ok.
  apply build_ybus_square in HY.
  destruct (positional_slack _ _ Hpos Hs) as (Hr & Hpq & Hpv).
  unfold fits. cbn. rewrite length_fmap.
  split; [apply square_map; exact HY|]. split; [apply square_map; exact HY|].
  destruct HY as [HY _]. auto 10.
Qed.

Lemma q_rows_in_range (net : Network) (e : env) (s : store) (k : Z) :
  positional net -> fits net e -> PV_inv (list_to_set (pv_indices net)) s ->
  k ∈ q_rows (e_pq e) (PV_conv s) ->
  (0 <= k < Z.of_nat (nbus net))%Z /\ k <> e_slack e.
Proof.
  intros Hpos (_ & _ & _ & _ & _ & Hpq & _ & Hspq & Hspv) [_ Hu] Hk.
  rewrite Hpq in Hk. apply elem_of_q_rows in Hk as [Hk | Hk].
  - split; [eapply positional_idx; eassumption | congruence].
  - assert (k ∈ (list_to_set (pv_indices net) : gset Z)) as Hk'
      by (rewrite <- Hu; set_solver).
    apply elem_of_list_to_set in Hk'.
    split; [eapply positional_idx; eassumption | congruence].
Qed.

Lemma active_in_range (net : Network) (s : store) (k : Z) :
  positional net -> PV_inv (list_to_set (pv_indices net)) s ->
  k ∈ PV_active s ->
  (0 <= k < Z.of_nat (nbus net))%Z /\
  exists b, buses net !! Z.to_nat k = Some b /\ bus_type b = PV.
Proof.
  intros Hpos [_ Hu] Hk.
  assert (k ∈ (list_to_set (pv_indices net) : gset Z)) as Hk'
    by (rewrite <- Hu; set_solver).
  apply elem_of_list_to_set in Hk'.
  eapply positional_idx; eassumption.
Qed.

Lemma assess_safe (net : Network) (e : env) (s : store) :
  positional net -> fits net e -> sized net s ->
  PV_inv (list_to_set (pv_indices net)) s ->
  exists a s1, assess e s = (Ok a, s1).
Proof.
  intros Hpos Hfit Hs Hinv.
  pose proof Hfit as (_ & _ & HY & Hn & HP & Hpq & Hslack & _).
  pose proof Hs as (Hnet & HVm & HVa & HQ).
  destruct (injections_length (e_Y e) (Vm s) (Va s) (nbus net) HY HVm HVa) as [HlP HlQ].
  set (Q := snd (injections (e_Y e) (Vm s) (Va s))) in *.
  destruct (forM_enforce_safe Q (elements (PV_active s)) s) as [s1 He].
  { intros k Hk. apply elem_of_elements in Hk.
    destruct (active_in_range _ _ _ Hpos Hinv Hk) as (Hr & b & Hb & Ht).
    rewrite HlQ, HQ, Hnet. split; [apply is_Some_py_pos, Hr|].
    split; [apply is_Some_py_pos, Hr|]. exists b. split; [|exact Ht].
    apply getitem_nonneg; [lia | exact Hb]. }
  assert (enforce_limits Q s = (Ok tt, s1)) as He' by exact He.
  pose proof (enforce_limits_vectors _ _ _ _ He') as (Hnet1 & _ & _ & HQ1).
  assert (PV_inv (list_to_set (pv_indices net)) s1) as Hinv1.
  { apply (forM_enforce_steps e) in He;
      [| reflexivity | apply (NoDup_elements (PV_active s))
       | intros k Hk; apply elem_of_elements; exact Hk ].
    apply (rtc_solve_step_inv _ _ _ _ Hinv) in He. tauto. }
  destruct (mismatch_vector_safe (e_P_spec e) (Q_spec s1)
              (fst (injections (e_Y e) (Vm s) (Va s))) Q
              (p_rows (e_n e) (e_slack e)) (q_rows (e_pq e) (PV_conv s1)) (nbus net))
    as [mm Hmm]; try assumption; try congruence.
  { intros k [Hk _]%elem_of_p_rows. apply is_Some_py_pos. rewrite <- Hn. exact Hk. }
  { intros k Hk. apply is_Some_py_pos.
    eapply (q_rows_in_range net e s1); eassumption. }
  eexists _, s1. apply assess_run; [exact He' | exact Hmm].
Qed.

Lemma assess_not_empty (net : Network) (e : env) (s : store) (a : assessment)
    (s1 : store) :
  fits net e -> (2 <= nbus net)%nat ->
  assess e s = (Ok a, s1) -> a_mismatch a <> [].
Proof.
  intros (_ & _ & _ & Hn & _ & _ & Hslack & _) H2
    (_ & _ & _ & _ & _ & Hpr & _ & Hmm)%assess_Ok.
  apply mismatch_vector_length in Hmm. rewrite Hpr, Hn in Hmm.
  pose proof (length_p_rows (nbus net) (e_slack e) Hslack) as Hlen.
  intros Hnil. rewrite Hnil in Hmm. cbn in Hmm. lia.
Qed.

Lemma newton_update_safe (net : Network) (e : env) (s s1 : store) (a : assessment)
    (ex : exn) (s' : store) :
  positional net -> fits net e -> sized net s ->
  PV_inv (list_to_set (pv_indices net)) s ->
  assess e s = (Ok a, s1) ->
  newton_update e a s1 = (Raise ex, s') -> ex = LinAlgError.
Proof.
  intros Hpos Hfit Hs Hinv Ha.
  pose proof (rtc_solve_step_inv _ _ _ _ Hinv (assess_steps _ _ _ _ Ha)) as (Hinv1 & _).
  pose proof (assess_Ok _ _ _ _ Ha) as (_ & _ & _ & _ & _ & Hpr & Hqr & _).
  pose proof Hfit as (HG & HB & HY & Hn & _).
  apply (assess_sized net) in Ha as ((Hnet1 & HVm1 & HVa1 & _) & HlP & HlQ);
    [|assumption..].
  assert (forall k, k ∈ a_p_rows a -> is_Some (py_pos (nbus net) k)) as Hprr.
  { intros k. rewrite Hpr, Hn. intros [Hk _]%elem_of_p_rows.
    apply is_Some_py_pos, Hk. }
  assert (forall k, k ∈ a_q_rows a ->
            is_Some (py_pos (nbus net) k) /\ k ∈ a_p_rows a) as Hqrr.
  { intros k. rewrite Hqr, Hpr, Hn. intros Hk.
    destruct (q_rows_in_range _ _ _ _ Hpos Hfit Hinv1 Hk) as [Hr Hne].
    split; [apply is_Some_py_pos, Hr | apply elem_of_p_rows; auto]. }
  unfold newton_update. unfoldM. cbv beta iota zeta.
  destruct (jacobian_safe (nbus net)
              (mkJacInput (e_G e) (e_B e) (Vm s1) (Va s1) (a_P a) (a_Q a))
              (a_p_rows a) (a_q_rows a)) as [J ->]; [|exact Hprr | exact Hqrr|].
  { unfold jac_sized. cbn. auto 10. }
  destruct (linalg_solve _ _) as [e1|dx] eqn:Ed.
  { intros [= <- _]. apply linalg_solve_Raise in Ed. exact Ed. }
  destruct (fancy_iadd_safe (Va s1) (a_p_rows a) (take (length (a_p_rows a)) dx))
    as [va' ->]; [rewrite HVa1; exact Hprr|].
  destruct (fancy_iadd_safe (Vm s1) (a_q_rows a) (drop (length (a_p_rows a)) dx))
    as [vm' Evm]; [rewrite HVm1; intros k Hk; apply Hqrr, Hk|].
  rewrite Evm. apply fancy_iadd_Ok in Evm as [Hlvm _].
  match goal with
  | |- forM_ ?l reimpose_one ?s = _ -> _ =>
      destruct (reimpose_safe l s) as [s2 ->]; [|discriminate]
  end.
  cbn. intros k Hk. apply elem_of_elements in Hk.
  destruct (active_in_range _ _ _ Hpos Hinv1 Hk) as [Hr _].
  rewrite Hnet1, Hlvm, HVm1. split; apply is_Some_py_pos, Hr.
Qed.

Lemma well_formed_idle : well_formed net_idle.
Proof.
  split; [|split; [|split; [|split]]].
  - intros [|[|p]] b; cbn; intros [= <-]; reflexivity.
  - apply Exists_cons_hd. reflexivity.
  - cbn. lia.
  - apply Forall_cons. split; [|apply Forall_nil; exact I].
    split; [intros [_ Hx]; cbn in Hx; lra|].
    split; cbn; eauto.
  - apply Forall_nil. exact I.
Qed.



(** ** A network without unknowns *)

(** X13: a network that is a slack bus of index 0 and nothing else has
    no unknown: once the admittance matrix is built and an iteration is
    allowed, the maximum of the empty mismatch vector raises
    [ValueError]. *)
Theorem lone_slack_bus_cannot_be_solved (cfg : LoadFlow) (net : Network) (b : Bus) :
  buses net = [b] -> is_slack b -> bus_idx b = 0%Z ->
  (0 < max_iter cfg)%Z -> (exists Y, build_ybus net = Ok Y) ->
  LoadFlow_solve cfg net = Raise ValueError.
Proof.
  intros Hb Hs Hi Hmax [Y HY]. unfold is_slack in Hs.
  assert (slack_index net = Ok 0%Z) as Hslack.
  { unfold slack_index. rewrite Hb. cbn. rewrite decide_True by exact Hs.
    rewrite Hi. reflexivity. }
  assert (pv_indices net = []) as Hpv.
  { unfold pv_indices, idx_of_type. rewrite Hb, filter_cons, decide_False by congruence.
    reflexivity. }
  assert (pq_indices net = []) as Hpq.
  { unfold pq_indices, idx_of_type. rewrite Hb, filter_cons, decide_False by congruence.
    reflexivity. }
  assert (nbus net = 1%nat) as Hn by (unfold nbus; rewrite Hb; reflexivity).
  unfold LoadFlow_solve, solve. rewrite M_bind_eq, setup_run. cbn [network frame].
  rewrite HY, Hslack, Hpv, Hpq, Hn.
  destruct (Z.to_nat (max_iter cfg)) as [|fuel] eqn:Ef; [lia|].
  cbn [loop]. rewrite M_bind_eq. unfold iteration. rewrite M_bind_eq.
  match goal with
  | |- context [assess ?e ?s] => rewrite (assess_run e s s (@nil R))
  end.
  - rewrite M_bind_eq. unfold lift at 1. cbn [a_mismatch]. reflexivity.
  - apply enforce_limits_empty. reflexivity.
  - cbn [e_P_spec e_n e_slack e_pq PV_conv Q_spec].
    replace (p_rows 1 0) with (@nil Z) by (vm_compute; reflexivity).
    replace (q_rows [] ∅) with (@nil Z) by (vm_compute; reflexivity).
    reflexivity.
Qed.

Lemma lone_slack_bus_cannot_be_solved_witness :
  LoadFlow_solve cfg_default net_lone = Raise ValueError.
Proof.
  apply (lone_slack_bus_cannot_be_solved cfg_default net_lone (slack_bus 0)).
  - reflexivity.
  - reflexivity.
  - reflexivity.
  - reflexivity.
  - exists [[C0]]. reflexivity.
Defined.

(** * Properties of the report *)

Lemma report_tap_plain (br : Branch) :
  br_shift_deg br = 0 -> br_tap br = 1 \/ br_tap br = 0 -> report_tap br = C1.
Proof.
  intros Hs Ht. unfold report_tap, Cmul, Cexp, RtoC, Cj, C1, deg2rad. cbn.
  rewrite Hs.
  replace (0 * (0 * (PI / 180)) - 1 * 0) with 0 by lra.
  replace (0 * 0 + 1 * (0 * (PI / 180))) with 0 by lra.
  rewrite exp_0, cos_0, sin_0.
  destruct Ht as [-> | ->].
  - rewrite Reqb_false by lra. f_equal; lra.
  - rewrite Reqb_true by reflexivity. f_equal; lra.
Qed.

Lemma branch_row_Ok (rep : PowerFlowReport) (V : list C) (k : Z) (br : Branch)
    (row : flow_row) :
  branch_row rep V k br = Ok row ->
  exists Vi Vj bi bj,
    ~ zero_impedance br /\
    getitem V (br_i br) = Ok Vi /\ getitem V (br_j br) = Ok Vj /\
    getitem (buses (rep_net rep)) (br_i br) = Ok bi /\
    getitem (buses (rep_net rep)) (br_j br) = Ok bj /\
    let y_series := Cquot C1 (br_r br, br_x br) in
    let y_shunt := Cmul Cj (RtoC (br_b br / 2)) in
    let tap_c := report_tap br in
    let base := RtoC (base_mva (rep_net rep)) in
    let Iij := Cadd (Cmul (Csub (Cquot Vi tap_c) Vj) y_series)
                    (Cmul (Cquot Vi tap_c) y_shunt) in
    let Sij := Cmul (Cmul Vi (Cconj Iij)) base in
    let Iji := Cadd (Cmul (Csub Vj (Cquot Vi tap_c)) y_series) (Cmul Vj y_shunt) in
    let Sji := Cmul (Cmul Vj (Cconj Iji)) base in
    row = mkRow (k + 1) (br_i br + 1) (bus_type bi) (br_j br + 1) (bus_type bj)
            (Cre Vi) (Cre Vj) (Cre Sij) (Cim Sij) (Cre Sji) (Cim Sji)
            (Cre Sij + Cre Sji).
Proof.
  unfold branch_row. cbv zeta. intros H.
  destruct (py_cdiv C1 (br_r br, br_x br)) as [e|y] eqn:Ey; [discriminate|].
  assert (~ zero_impedance br) as Hz.
  { intros [Hr Hx]. rewrite py_cdiv_zero in Ey by assumption. discriminate. }
  rewrite py_cdiv_nonzero in Ey by exact Hz. injection Ey as <-.
  cbn [mbind res_bind] in H. cbv beta in H.
  destruct (getitem V (br_i br)) as [e|Vi]; [discriminate|].
  destruct (getitem V (br_j br)) as [e|Vj]; [discriminate|].
  cbn [mbind res_bind] in H. cbv beta in H.
  destruct (getitem (buses (rep_net rep)) (br_i br)) as [e|bi]; [discriminate|].
  destruct (getitem (buses (rep_net rep)) (br_j br)) as [e|bj]; [discriminate|].
  cbn [mbind res_bind] in H. cbv beta in H. injection H as <-.
  exists Vi, Vj, bi, bj. auto 10.
Qed.

Lemma Cdist2_nonneg (a b : C) : 0 <= Cdist2 a b.
Proof.
  unfold Cdist2. pose proof (pow2_ge_0 (Cre a - Cre b)). pose proof (pow2_ge_0 (Cim a - Cim b)).
  lra.
Qed.

Lemma sum_squares_pos (r x : R) : ~ (r = 0 /\ x = 0) -> 0 < r ^ 2 + x ^ 2.
Proof.
  intros Hz. pose proof (pow2_ge_0 r) as Hr. pose proof (pow2_ge_0 x) as Hx.
  destruct (Req_dec_T (r ^ 2 + x ^ 2) 0) as [H0|H0]; [|lra].
  exfalso. apply Hz. split.
  - assert (r ^ 2 = 0) as H by lra. replace (r ^ 2) with (r * r) in H by ring.
    apply Rmult_integral in H. tauto.
  - assert (x ^ 2 = 0) as H by lra. replace (x ^ 2) with (x * x) in H by ring.
    apply Rmult_integral in H. tauto.
Qed.

Lemma branch_row_plain (rep : PowerFlowReport) (V : list C) (k : Z) (br : Branch)
    (row : flow_row) :
  br_shift_deg br = 0 -> br_tap br = 1 \/ br_tap br = 0 ->
  branch_row rep V k br = Ok row ->
  exists Vi Vj,
    getitem V (br_i br) = Ok Vi /\ getitem V (br_j br) = Ok Vj /\
    row_losses row =
      base_mva (rep_net rep) * (br_r br / (br_r br ^ 2 + br_x br ^ 2)) * Cdist2 Vi Vj /\
    0 < br_r br ^ 2 + br_x br ^ 2.
Proof.
  intros Hs Ht (Vi & Vj & bi & bj & Hz & HVi & HVj & _ & _ & Hrow)%branch_row_Ok.
  exists Vi, Vj. split; [exact HVi|]. split; [exact HVj|].
  cbv zeta in Hrow. subst row. cbn [row_losses].
  rewrite (report_tap_plain br Hs Ht), Cquot_C1.
  unfold zero_impedance in Hz.
  assert (0 < br_r br ^ 2 + br_x br ^ 2) as Hd by (apply sum_squares_pos; exact Hz).
  split; [|exact Hd].
  destruct Vi as [a b], Vj as [c d].
  unfold Cdist2, Cre, Cim, Cmul, Cconj, Cadd, Csub, Cquot, Cj, RtoC, C1.
  cbn [fst snd]. field. nra.
Qed.


Lemma branch_row_idle :
  exists row, branch_row rep_idle [C1; C1] 0 line01 = Ok row.
Proof.
  unfold branch_row. cbv zeta.
  rewrite py_cdiv_nonzero by (cbn; lra).
  cbn [mbind res_bind]. cbv beta.
  change (getitem [C1; C1] (br_i line01)) with (Ok C1).
  change (getitem [C1; C1] (br_j line01)) with (Ok C1).
  cbn [mbind res_bind]. cbv beta.
  change (getitem (buses (rep_net rep_idle)) (br_i line01)) with (Ok (slack_bus 0)).
  change (getitem (buses (rep_net rep_idle)) (br_j line01)) with (Ok (pq_bus 1 0 0)).
  cbn [mbind res_bind]. cbv beta. eexists. reflexivity.
Qed.


(** ** The table *)

Lemma branch_row_Raise (rep : PowerFlowReport) (V : list C) (k : Z) (br : Branch)
    (ex : exn) :
  branch_row rep V k br = Raise ex -> ex = ZeroDivisionError \/ ex = IndexError.
Proof.
  unfold branch_row. cbv zeta. intros [H | (y & _ & H)]%bind_Raise.
  - apply py_cdiv_Raise in H as [-> _]. auto.
  - right. index_raise H.
Qed.

Lemma flows_loop_Ok (rep : PowerFlowReport) (V : list C) (brs : list Branch) :
  forall (k : Z) (out : list flow_row) (total total' : R) (out' : list flow_row),
    flows_loop rep V k brs out total = (Ok total', out') ->
    exists rows,
      out' = out ++ rows /\
      Forall2 (fun kbr row => branch_row rep V (fst kbr) (snd kbr) = Ok row)
        (zip (seqZ k (Z.of_nat (length brs))) brs) rows /\
      total' = foldl (fun t row => t + row_losses row) total rows.
Proof.
  induction brs as [|br brs IH]; intros k out total total' out'; cbn [flows_loop].
  - intros [= <- <-]. exists []. rewrite app_nil_r. split; [reflexivity|].
    split; [constructor | reflexivity].
  - destruct (branch_row rep V k br) as [e|row] eqn:E; [discriminate|].
    intros (rows & -> & HF & ->)%IH. exists (row :: rows).
    split; [rewrite <- app_assoc; reflexivity|]. split; [|reflexivity].
    cbn [length]. rewrite Nat2Z.inj_succ, seqZ_cons by lia. cbn [zip zip_with].
    constructor; [exact E|].
    replace (Z.pred (Z.succ (Z.of_nat (length brs)))) with (Z.of_nat (length brs)) by lia.
    replace (Z.succ k) with (k + 1)%Z by lia. exact HF.
Qed.

Lemma flows_loop_Raise (rep : PowerFlowReport) (V : list C) (brs : list Branch) :
  forall (k : Z) (out : list flow_row) (total : R) (ex : exn) (out' : list flow_row),
    flows_loop rep V k brs out total = (Raise ex, out') ->
    exists rows,
      out' = out ++ rows /\ (length rows < length brs)%nat /\
      (ex = ZeroDivisionError \/ ex = IndexError).
Proof.
  induction brs as [|br brs IH]; intros k out total ex out'; cbn [flows_loop].
  - discriminate.
  - destruct (branch_row rep V k br) as [e|row] eqn:E.
    + intros [= <- <-]. exists []. rewrite app_nil_r. split; [reflexivity|].
      split; [cbn; lia | eapply branch_row_Raise; exact E].
    + intros (rows & -> & Hlen & Hex)%IH. exists (row :: rows).
      split; [rewrite <- app_assoc; reflexivity|]. split; [cbn; lia | exact Hex].
Qed.

Lemma foldl_losses_nonneg (rows : list flow_row) (total : R) :
  0 <= total -> Forall (fun row => 0 <= row_losses row) rows ->
  0 <= foldl (fun t row => t + row_losses row) total rows.
Proof.
  revert total. induction rows as [|row rows IH]; intros total Ht HF; cbn; [exact Ht|].
  apply Forall_cons in HF as [Hr HF]. apply IH; [lra | exact HF].
Qed.

Lemma print_branch_flows_table_Ok (rep : PowerFlowReport) (total : R)
    (out : list flow_row) :
  print_branch_flows_table rep = (Ok total, out) ->
  exists V,
    report_phasors rep = Ok V /\
    Forall2 (fun kbr row => branch_row rep V (fst kbr) (snd kbr) = Ok row)
      (zip (seqZ 0 (Z.of_nat (length (branches (rep_net rep))))) (branches (rep_net rep)))
      out /\
    total = foldl (fun t row => t + row_losses row) 0 out.
Proof.
  unfold print_branch_flows_table.
  destruct (report_phasors rep) as [e|V]; [discriminate|].
  intros (rows & -> & HF & ->)%flows_loop_Ok. exists V. auto.
Qed.

Lemma Forall2_zip_seqZ_lookup {A B} (P : Z * A -> B -> Prop) (l : list A) (out : list B)
    (p : nat) (x : A) :
  Forall2 P (zip (seqZ 0 (Z.of_nat (length l))) l) out ->
  l !! p = Some x -> exists y, out !! p = Some y /\ P (Z.of_nat p, x) y.
Proof.
  intros HF Hx.
  assert (zip (seqZ 0 (Z.of_nat (length l))) l !! p = Some (Z.of_nat p, x)) as Hz.
  { apply lookup_zip_with_Some. exists (Z.of_nat p), x. split; [reflexivity|].
    split; [|exact Hx]. apply lookup_seqZ. apply lookup_lt_Some in Hx. lia. }
  destruct (Forall2_lookup_l _ _ _ _ _ HF Hz) as (y & Hy & HP). eauto.
Qed.


(** ** The voltage columns *)

Lemma mapR_lookup {A B} (f : A -> res B) (l : list A) (ys : list B) :
  mapR f l = Ok ys ->
  forall q y, ys !! q = Some y -> exists x, l !! q = Some x /\ f x = Ok y.
Proof.
  revert ys. induction l as [|x l IH]; intros ys; cbn.
  - intros [= <-] q y Hq. rewrite lookup_nil in Hq. discriminate.
  - intros (y0 & Hy0 & H)%bind_Ok. apply bind_Ok in H as (ys' & Hys & [= <-]).
    intros [|q] y Hq; cbn in Hq.
    + injection Hq as <-. exists x. auto.
    + apply (IH _ Hys) in Hq. exact Hq.
Qed.

Lemma Cre_phasor (m a : R) :
  Cre (Cmul (RtoC m) (Cexp (Cmul Cj (RtoC a)))) = m * cos a.
Proof.
  unfold Cre, Cmul, Cexp, Cj, RtoC. cbn [fst snd].
  replace (0 * a - 1 * 0) with 0 by lra.
  replace (0 * 0 + 1 * a) with a by lra.
  rewrite exp_0. lra.
Qed.

Lemma py_pos_nonneg_inv (n : nat) (k : Z) (p : nat) :
  (0 <= k)%Z -> py_pos n k = Some p -> p = Z.to_nat k /\ (k < Z.of_nat n)%Z.
Proof.
  intros Hk Hp. pose proof (py_pos_lt _ _ _ Hp) as Hlt.
  assert (is_Some (py_pos n k)) as Hr%py_pos_Some by eauto.
  rewrite py_pos_nonneg in Hp by lia. injection Hp as <-. lia.
Qed.

Lemma report_phasors_Ok (rep : PowerFlowReport) (V : list C) :
  report_phasors rep = Ok V ->
  length V = length (rep_Vm rep) /\
  forall q v, V !! q = Some v ->
    exists m a, rep_Vm rep !! q = Some m /\ rep_Va rep !! q = Some a /\
                v = Cmul (RtoC m) (Cexp (Cmul Cj (RtoC (deg2rad a)))).
Proof.
  unfold report_phasors. intros H. split.
  - apply mapR_length in H. rewrite H, length_seqZ. lia.
  - intros q v Hq. destruct (mapR_lookup _ _ _ H q v Hq) as (k & Hk & Hf).
    apply lookup_seqZ in Hk as [-> Hlt].
    apply bind_Ok in Hf as (m & Hm & Hf). apply bind_Ok in Hf as (a & Ha & [= <-]).
    exists m, a.
    apply getitem_Ok in Hm as (p & Hp & Hm). apply getitem_Ok in Ha as (p' & Hp' & Ha).
    apply py_pos_nonneg_inv in Hp as [-> _]; [|lia].
    apply py_pos_nonneg_inv in Hp' as [-> _]; [|lia].
    replace (Z.to_nat (0 + Z.of_nat q)) with q in Hm, Ha by lia. auto.
Qed.

Lemma report_phasors_idle :
  report_phasors rep_idle =
    Ok [Cmul (RtoC 1) (Cexp (Cmul Cj (RtoC (deg2rad 0))));
        Cmul (RtoC 1) (Cexp (Cmul Cj (RtoC (deg2rad 0))))].
Proof. rcbv. reflexivity. Qed.

Lemma table_idle :
  exists row,
    print_branch_flows_table rep_idle = (Ok (0 + row_losses row), [] ++ [row]).
Proof.
  unfold print_branch_flows_table. rewrite report_phasors_idle.
  change (branches (rep_net rep_idle)) with [line01]. cbn [flows_loop].
  set (ph := Cmul (RtoC 1) (Cexp (Cmul Cj (RtoC (deg2rad 0))))).
  assert (exists row, branch_row rep_idle [ph; ph] 0 line01 = Ok row) as [row ->].
  { unfold branch_row. cbv zeta.
    rewrite py_cdiv_nonzero by (cbn; lra).
    cbn [mbind res_bind]. cbv beta.
    change (getitem [ph; ph] (br_i line01)) with (Ok ph).
    change (getitem [ph; ph] (br_j line01)) with (Ok ph).
    cbn [mbind res_bind]. cbv beta.
    change (getitem (buses (rep_net rep_idle)) (br_i line01)) with (Ok (slack_bus 0)).
    change (getitem (buses (rep_net rep_idle)) (br_j line01)) with (Ok (pq_bus 1 0 0)).
    cbn [mbind res_bind]. cbv beta. eexists. reflexivity. }
  exists row. reflexivity.
Qed.

(** X16: the two voltage columns of a line of the table show the real
    parts of the phasors, [Vm * cos(Va)] with [Va] in degrees, at the
    positions that the endpoints of the branch denote in [Vm]; this is
    the magnitude only where the cosine of the angle is 1. *)
Theorem voltage_columns_show_real_parts (rep : PowerFlowReport) (total : R)
    (out : list flow_row) (p : nat) (br : Branch) (row : flow_row) :
  print_branch_flows_table rep = (Ok total, out) ->
  branches (rep_net rep) !! p = Some br -> out !! p = Some row ->
  exists qi qj mi ai mj aj,
    py_pos (length (rep_Vm rep)) (br_i br) = Some qi /\
    py_pos (length (rep_Vm rep)) (br_j br) = Some qj /\
    rep_Vm rep !! qi = Some mi /\ rep_Va rep !! qi = Some ai /\
    rep_Vm rep !! qj = Some mj /\ rep_Va rep !! qj = Some aj /\
    row_Vi row = mi * cos (deg2rad ai) /\ row_Vj row = mj * cos (deg2rad aj).
Proof.
  intros (V & HV & HF & _)%print_branch_flows_table_Ok Hbr Hrow.
  destruct (Forall2_zip_seqZ_lookup _ _ _ _ _ HF Hbr) as (row' & Hrow' & Hr).
  assert (row' = row) as -> by congruence. cbn [fst snd] in Hr.
  apply branch_row_Ok in Hr as (Vi & Vj & bi & bj & _ & HVi & HVj & _ & _ & Heq).
  cbv zeta in Heq. apply report_phasors_Ok in HV as [Hlen HV].
  apply getitem_Ok in HVi as (qi & Hqi & HVi). apply getitem_Ok in HVj as (qj & Hqj & HVj).
  rewrite Hlen in Hqi, Hqj.
  destruct (HV _ _ HVi) as (mi & ai & Hmi & Hai & ->).
  destruct (HV _ _ HVj) as (mj & aj & Hmj & Haj & ->).
  exists qi, qj, mi, ai, mj, aj. rewrite Heq. cbn [row_Vi row_Vj].
  rewrite !Cre_phasor. auto 10.
Qed.


Lemma voltage_columns_show_real_parts_witness :
  exists row mi ai mj aj,
    row_Vi row = mi * cos (deg2rad ai) /\ row_Vj row = mj * cos (deg2rad aj).
Proof.
  destruct table_idle as [row Hrow].
  destruct (voltage_columns_show_real_parts rep_idle _ _ 0 line01 row Hrow eq_refl eq_refl)
    as (qi & qj & mi & ai & mj & aj & _ & _ & _ & _ & _ & _ & Hi & Hj).
  exists row, mi, ai, mj, aj. split; [exact Hi | exact Hj].
Defined.

(** * The linear system of an iteration *)

Lemma mapR_Forall {A B} (f : A -> res B) (P : B -> Prop) (l : list A) (ys : list B) :
  mapR f l = Ok ys -> (forall x y, x ∈ l -> f x = Ok y -> P y) -> Forall P ys.
Proof.
  intros H HP. apply Forall_lookup. intros q y Hq.
  destruct (mapR_lookup _ _ _ H q y Hq) as (x & Hx & Hf).
  apply (HP x y); [eapply list_elem_of_lookup_2; exact Hx | exact Hf].
Qed.

Lemma list_index_Ok (l : list Z) (k : Z) (i : nat) :
  list_index l k = Ok i -> l !! i = Some k.
Proof.
  revert i. induction l as [|m l IH]; intros i; cbn; [discriminate|].
  destruct (m =? k)%Z eqn:E.
  - intros [= <-]. apply Z.eqb_eq in E. subst. reflexivity.
  - destruct (list_index l k) as [e|j]; cbn; [discriminate|].
    intros [= <-]. cbn. apply IH. reflexivity.
Qed.

Lemma HN_row_length (x : jac_input) (pr qr : list Z) (k : Z) (row : list R) :
  HN_row x pr qr k = Ok row -> length row = (length pr + length qr)%nat.
Proof.
  unfold HN_row. intros (i & _ & H)%bind_Ok.
  apply bind_Ok in H as (h & Hh & H). apply bind_Ok in H as (n & Hn & [= <-]).
  apply mapR_length in Hh, Hn. rewrite length_app. lia.
Qed.

Lemma ML_row_length (x : jac_input) (pr qr : list Z) (k : Z) (row : list R) :
  ML_row x pr qr k = Ok row -> length row = (length pr + length qr)%nat.
Proof.
  unfold ML_row. intros (i & _ & H)%bind_Ok.
  apply bind_Ok in H as (m & Hm & H). apply bind_Ok in H as (i' & _ & H).
  apply bind_Ok in H as (l & Hl & [= <-]).
  apply mapR_length in Hm, Hl. rewrite length_app. lia.
Qed.

Lemma jacobian_square (x : jac_input) (pr qr : list Z) (J : list (list R)) :
  jacobian x pr qr = Ok J -> square (length pr + length qr) J.
Proof.
  unfold jacobian. intros (top & Ht & H)%bind_Ok.
  apply bind_Ok in H as (bottom & Hb & [= <-]). split.
  - apply mapR_length in Ht, Hb. rewrite length_app. lia.
  - apply Forall_app. split.
    + eapply mapR_Forall; [exact Ht|]. intros k row _. apply HN_row_length.
    + eapply mapR_Forall; [exact Hb|]. intros k row _. apply ML_row_length.
Qed.

Lemma jacobian_unknowns_nested (x : jac_input) (pr qr : list Z) (J : list (list R)) :
  jacobian x pr qr = Ok J -> forall k, k ∈ qr -> k ∈ pr.
Proof.
  unfold jacobian. intros (top & Ht & H)%bind_Ok.
  apply bind_Ok in H as (bottom & Hb & [= <-]).
  intros k Hk. apply list_elem_of_lookup_1 in Hk as [t Hk].
  pose proof (mapR_length _ _ _ Hb) as Hlen.
  destruct (lookup_lt_is_Some_2 bottom t) as [row Hrow];
    [rewrite Hlen; eapply lookup_lt_Some; exact Hk|].
  destruct (mapR_lookup _ _ _ Hb t row Hrow) as (k' & Hk' & Hf).
  assert (k' = k) as -> by congruence. unfold ML_row in Hf.
  apply bind_Ok in Hf as (i & Hi & _).
  eapply list_elem_of_lookup_2, list_index_Ok, Hi.
Qed.

(** X17: the linear system of an iteration is square: when the Jacobian
    and the mismatch vector are built for the same unknowns, the
    Jacobian has one row and one column per unknown (the angle rows
    first, then the magnitude rows) and the mismatch vector one entry
    per unknown.  A Jacobian exists only when every magnitude unknown is
    an angle unknown as well. *)
Theorem newton_system_is_square (x : jac_input) (ps qs P Q : list R) (pr qr : list Z)
    (J : list (list R)) (mm : list R) :
  jacobian x pr qr = Ok J ->
  mismatch_vector ps qs P Q pr qr = Ok mm ->
  length J = (length pr + length qr)%nat /\
  Forall (fun row => length row = (length pr + length qr)%nat) J /\
  length mm = length J /\
  (forall k, k ∈ qr -> k ∈ pr).
Proof.
  intros HJ Hmm. pose proof (jacobian_square _ _ _ _ HJ) as [Hlen Hrows].
  apply mismatch_vector_length in Hmm. pose proof (jacobian_unknowns_nested _ _ _ _ HJ) as Hsub.
  split; [exact Hlen|]. split; [exact Hrows|]. split; [congruence | exact Hsub].
Qed.

Lemma jacobian_gen :
  exists J,
    jacobian (mkJacInput [[0; 0]; [0; 0]] [[-1; 1]; [1; -1]] [1; 1] [0; 0] [0; 0] [0; 0])
      [1%Z] [] = Ok J.
Proof. eexists. rcbv. reflexivity. Qed.

Lemma newton_system_is_square_witness :
  exists J : list (list R),
    length J = (length [1%Z] + length (@nil Z))%nat /\
    Forall (fun row => length row = (length [1%Z] + length (@nil Z))%nat) J /\
    length [1 - 0] = length J.
Proof.
  destruct jacobian_gen as [J HJ]. exists J.
  destruct (newton_system_is_square _ [0; 1] [0; 0] [0; 0] [0; 0] [1%Z] [] J [1 - 0] HJ)
    as (H1 & H2 & H3 & _).
  - rcbv. reflexivity.
  - auto.
Defined.

(** * Off-diagonal entries of the admittance matrix *)

Lemma add_branch_offdiag (n : nat) (Y : matrix) (br : Branch) (Y' : matrix) (p q : nat) :
  square n Y -> add_branch Y br = Ok Y' -> p <> q ->
  entry Y' p q = (fun old => mutual_term n p q old br) <$> entry Y p q.
Proof.
  intros Hsq H Hne.
  destruct (add_branch_entries n Y br Y' Hsq H) as (y & pi & pj & Hy & Hi & Hj & He).
  assert (y = Cquot C1 (br_r br, br_x br)) as ->.
  { unfold py_cdiv in Hy. destruct (_ && _); congruence. }
  rewrite He. unfold add_if, mutual_term, runs. rewrite Hi, Hj.
  destruct (entry Y p q) as [old|]; cbn;
    repeat case_decide; cbn; try reflexivity; exfalso;
    repeat match goal with
           | H : _ /\ _ |- _ => destruct H
           | H : Some _ = Some _ |- _ => injection H as H
           end; subst; tauto.
Qed.

Lemma foldM_add_branch_offdiag (n : nat) (p q : nat) (brs : list Branch) :
  forall Y Y', square n Y -> foldM add_branch Y brs = Ok Y' -> p <> q ->
    entry Y' p q = (fun old => foldl (mutual_term n p q) old brs) <$> entry Y p q.
Proof.
  induction brs as [|br brs IH]; intros Y Y' Hsq H Hne; cbn in H.
  - injection H as <-. destruct (entry Y p q); reflexivity.
  - apply bind_Ok in H as (Y1 & H1 & H).
    pose proof (add_branch_square _ _ _ _ Hsq H1) as Hsq1.
    rewrite (IH _ _ Hsq1 H Hne), (add_branch_offdiag _ _ _ _ _ _ Hsq H1 Hne).
    destruct (entry Y p q); reflexivity.
Qed.

Lemma build_ybus_offdiag (net : Network) (Y : matrix) (p q : nat) :
  build_ybus net = Ok Y -> p <> q -> (p < nbus net)%nat -> (q < nbus net)%nat ->
  entry Y p q = Some (foldl (mutual_term (nbus net) p q) C0 (branches net)).
Proof.
  unfold build_ybus. intros (Y1 & H1 & H2)%bind_Ok Hne Hp Hq.
  pose proof (square_zeros (nbus net)) as Hsq0.
  destruct (proj1 (foldM_add_branch_Ok _ _ _ Hsq0) _ H1) as [Hsq1 _].
  rewrite (foldM_add_shunt_entries _ _ _ _ Hsq1 H2), decide_False by exact Hne.
  rewrite (foldM_add_branch_offdiag _ _ _ _ _ _ Hsq0 H1 Hne), entry_zeros.
  rewrite decide_True by auto. reflexivity.
Qed.

Lemma mutual_term_skip (n p q : nat) (acc : C) (br : Branch) :
  ~ joins n p q br -> mutual_term n p q acc br = acc.
Proof.
  intros Hj. unfold mutual_term, joins in *.
  rewrite !decide_False by tauto. reflexivity.
Qed.

Lemma foldl_mutual_skip (n p q : nat) (brs : list Branch) (acc : C) :
  Forall (fun br => ~ joins n p q br) brs -> foldl (mutual_term n p q) acc brs = acc.
Proof.
  revert acc. induction brs as [|br brs IH]; intros acc HF; cbn; [reflexivity|].
  apply Forall_cons in HF as [Hbr HF]. rewrite mutual_term_skip by exact Hbr.
  apply IH, HF.
Qed.

(** X18: off the diagonal, the entry [(p, q)] of the admittance matrix
    is the sum, in list order, of what the branches between the two
    positions add: [-y / conj(t)] for a branch from [p] to [q],
    [-y / t] for one from [q] to [p]; shunts and the other branches
    leave it alone.  So the entry is zero where no branch joins [p] and
    [q], and [-y / conj(t)] where exactly one branch runs from [p] to
    [q]. *)
Theorem mutual_admittance_is_sum_over_branches (net : Network) (Y : matrix) (p q : nat) :
  build_ybus net = Ok Y -> p <> q -> (p < nbus net)%nat -> (q < nbus net)%nat ->
  entry Y p q = Some (foldl (mutual_term (nbus net) p q) C0 (branches net)) /\
  (Forall (fun br => ~ joins (nbus net) p q br) (branches net) ->
   entry Y p q = Some C0) /\
  (forall pre br post,
     branches net = pre ++ br :: post -> runs (nbus net) p q br ->
     Forall (fun b => ~ joins (nbus net) p q b) (pre ++ post) ->
     entry Y p q =
       Some (Cadd C0 (Cquot (Copp (Cquot C1 (br_r br, br_x br))) (Cconj (tap_ratio br))))).
Proof.
  intros HY Hne Hp Hq. pose proof (build_ybus_offdiag _ _ _ _ HY Hne Hp Hq) as He.
  split; [exact He|]. split.
  - intros HF. rewrite He, foldl_mutual_skip by exact HF. reflexivity.
  - intros pre br post Hbr Hruns HF. apply Forall_app in HF as [Hpre Hpost].
    rewrite He, Hbr, foldl_app. cbn [foldl].
    rewrite (foldl_mutual_skip _ _ _ pre) by exact Hpre.
    rewrite foldl_mutual_skip by exact Hpost.
    unfold mutual_term. rewrite decide_True by exact Hruns. reflexivity.
Qed.

Lemma mutual_admittance_is_sum_over_branches_witness :
  exists Y,
    entry Y 0 1 = Some (foldl (mutual_term (nbus net_transformer) 0 1) C0
                          (branches net_transformer)).
Proof.
  destruct build_ybus_transformer_Ok as [Y HY]. exists Y.
  destruct (mutual_admittance_is_sum_over_branches net_transformer Y 0 1 HY) as [H _].
  - discriminate.
  - cbn. lia.
  - cbn. lia.
  - exact H.
Defined.

(** * The plotted flows and the table *)

Lemma joins_sym (n p q : nat) (br : Branch) : joins n p q br <-> joins n q p br.
Proof. unfold joins. tauto. Qed.

Lemma build_ybus_single (net : Network) (Y : matrix) (p q : nat)
    (pre post : list Branch) (br : Branch) :
  build_ybus net = Ok Y -> p <> q ->
  branches net = pre ++ br :: post -> runs (nbus net) p q br ->
  Forall (fun b => ~ joins (nbus net) p q b) (pre ++ post) ->
  let y := Cquot C1 (br_r br, br_x br) in
  entry Y p q = Some (Cadd C0 (Cquot (Copp y) (Cconj (tap_ratio br)))) /\
  entry Y q p = Some (Cadd C0 (Cquot (Copp y) (tap_ratio br))).
Proof.
  intros HY Hne Hbr Hruns HF. cbv zeta.
  pose proof Hruns as [Hi Hj]. apply py_pos_lt in Hi, Hj.
  apply Forall_app in HF as [Hpre Hpost].
  split.
  - rewrite (build_ybus_offdiag _ _ _ _ HY Hne Hi Hj), Hbr, foldl_app. cbn [foldl].
    rewrite (foldl_mutual_skip _ _ _ pre) by exact Hpre.
    rewrite foldl_mutual_skip by exact Hpost.
    unfold mutual_term. rewrite decide_True by exact Hruns. reflexivity.
  - assert (q <> p) as Hne' by congruence.
    assert (forall l, Forall (fun b => ~ joins (nbus net) p q b) l ->
                      Forall (fun b => ~ joins (nbus net) q p b) l) as Hsym.
    { intros l Hl. eapply Forall_impl; [exact Hl|].
      intros b Hb Hb'. apply Hb, joins_sym, Hb'. }
    rewrite (build_ybus_offdiag _ _ _ _ HY Hne' Hj Hi), Hbr, foldl_app. cbn [foldl].
    rewrite (foldl_mutual_skip _ _ _ pre) by (apply Hsym; exact Hpre).
    rewrite foldl_mutual_skip by (apply Hsym; exact Hpost).
    unfold mutual_term. rewrite decide_False.
    + rewrite decide_True by exact Hruns. reflexivity.
    + intros [Hi' _]. destruct Hruns as [Hi'' _]. congruence.
Qed.

Lemma plot_branch_flows_Ok (rep : PowerFlowReport) (S : list (R * R)) :
  plot_branch_flows rep = Ok S ->
  exists Y V,
    build_ybus (rep_net rep) = Ok Y /\ report_phasors rep = Ok V /\
    length S = length (branches (rep_net rep)) /\
    forall t br, branches (rep_net rep) !! t = Some br ->
      exists f, S !! t = Some f /\ plot_flow rep Y V br = Ok f.
Proof.
  unfold plot_branch_flows. intros (Y & HY & H)%bind_Ok.
  apply bind_Ok in H as (V & HV & H). exists Y, V.
  pose proof (mapR_length _ _ _ H) as Hlen.
  split; [exact HY|]. split; [exact HV|]. split; [exact Hlen|].
  intros t br Hbr.
  destruct (lookup_lt_is_Some_2 S t) as [f Hf];
    [rewrite Hlen; eapply lookup_lt_Some; exact Hbr|].
  destruct (mapR_lookup _ _ _ H t f Hf) as (br' & Hbr' & Hpf).
  assert (br' = br) as -> by congruence. eauto.
Qed.

Lemma series_admittance_nonzero (r x : R) :
  ~ (r = 0 /\ x = 0) ->
  ~ (Cre (Cadd C0 (Copp (Cquot C1 (r, x)))) = 0 /\
     Cim (Cadd C0 (Copp (Cquot C1 (r, x)))) = 0).
Proof.
  intros Hz [Hre Him]. unfold Cre, Cim, Cadd, Copp, Cquot, C0, C1 in *. cbn [fst snd] in *.
  assert (0 < r * r + x * x) as Hd.
  { pose proof (sum_squares_pos r x Hz). lra. }
  assert ((1 * r + 0 * x) / (r * r + x * x) = 0) as H1 by lra.
  assert ((0 * r - 1 * x) / (r * r + x * x) = 0) as H2 by lra.
  apply Hz. split.
  - apply (Rmult_eq_compat_r (r * r + x * x)) in H1.
    unfold Rdiv in H1. rewrite Rmult_assoc, Rinv_l in H1 by lra. lra.
  - apply (Rmult_eq_compat_r (r * r + x * x)) in H2.
    unfold Rdiv in H2. rewrite Rmult_assoc, Rinv_l in H2 by lra. lra.
Qed.


Lemma plot_idle : exists f, plot_branch_flows rep_idle = Ok [f].
Proof.
  unfold plot_branch_flows.
  rewrite (build_ybus_line01 (rep_net rep_idle)) by reflexivity.
  cbn [mbind res_bind]. cbv beta. rewrite report_phasors_idle.
  cbn [mbind res_bind]. cbv beta.
  change (branches (rep_net rep_idle)) with [line01]. cbn [mapR].
  set (ph := Cmul (RtoC 1) (Cexp (Cmul Cj (RtoC (deg2rad 0))))).
  assert (exists f, plot_flow rep_idle Y_line01 [ph; ph] line01 = Ok f) as [f ->].
  { unfold plot_flow. cbv zeta.
    change (getitem [ph; ph] (br_i line01)) with (Ok ph).
    change (getitem [ph; ph] (br_j line01)) with (Ok ph).
    cbn [mbind res_bind]. cbv beta.
    change (mat_get Y_line01 (br_i line01) (br_j line01)) with (Ok ((0, 1) : C)).
    change (mat_get Y_line01 (br_j line01) (br_i line01)) with (Ok ((0, 1) : C)).
    cbn [mbind res_bind]. cbv beta.
    change (Cim (0, 1)) with 1. rewrite (Reqb_false 1 0) by lra.
    rewrite andb_false_r. eexists. reflexivity. }
  cbn [mbind res_bind]. cbv beta. eexists. reflexivity.
Qed.


(** * What convergence means *)

Lemma foldl_Rmax_elem (l : list R) (x y : R) :
  y ∈ x :: l -> y <= foldl Rmax x l.
Proof.
  revert x. induction l as [|z l IH]; intros x Hy; cbn.
  - apply elem_of_cons in Hy as [-> | Hy]; [lra | inversion Hy].
  - apply elem_of_cons in Hy as [-> | Hy].
    + eapply Rle_trans; [apply (Rmax_l x z) | apply foldl_Rmax_ge].
    + apply elem_of_cons in Hy as [-> | Hy].
      * eapply Rle_trans; [apply (Rmax_r x z) | apply foldl_Rmax_ge].
      * apply IH. apply list_elem_of_further. exact Hy.
Qed.

Lemma max_abs_bound (m : list R) (mx d : R) :
  max_abs m = Ok mx -> d ∈ m -> Rabs d <= mx.
Proof.
  unfold max_abs, np_max. intros H Hd.
  assert (Rabs d ∈ Rabs <$> m) as Hin by (apply list_elem_of_fmap; eauto).
  destruct (Rabs <$> m) as [|x l]; [discriminate|].
  injection H as <-. apply foldl_Rmax_elem. exact Hin.
Qed.

Lemma np_take_lookup (v : list R) (rows : list Z) (xs : list R) (t : nat) (k : Z) :
  np_take v rows = Ok xs -> rows !! t = Some k ->
  exists x, xs !! t = Some x /\ getitem v k = Ok x.
Proof.
  unfold np_take. intros H Hk. pose proof (mapR_length _ _ _ H) as Hlen.
  destruct (lookup_lt_is_Some_2 xs t) as [x Hx];
    [rewrite Hlen; eapply lookup_lt_Some; exact Hk|].
  destruct (mapR_lookup _ _ _ H t x Hx) as (k' & Hk' & Hf).
  assert (k' = k) as -> by congruence. eauto.
Qed.

Lemma zip_minus_elem (v w : list R) (rows : list Z) (a b : list R) (k : Z) (x y : R) :
  np_take v rows = Ok a -> np_take w rows = Ok b ->
  k ∈ rows -> getitem v k = Ok x -> getitem w k = Ok y ->
  x - y ∈ zip_with Rminus a b.
Proof.
  intros Ha Hb Hk Hx Hy. apply list_elem_of_lookup_1 in Hk as [t Ht].
  destruct (np_take_lookup _ _ _ _ _ Ha Ht) as (x' & Hx' & Hgx).
  destruct (np_take_lookup _ _ _ _ _ Hb Ht) as (y' & Hy' & Hgy).
  assert (x' = x) as -> by congruence. assert (y' = y) as -> by congruence.
  apply (list_elem_of_lookup_2 _ t). apply lookup_zip_with_Some. eauto.
Qed.

Lemma mismatch_vector_elements (ps qs P Q : list R) (pr qr : list Z) (mm : list R) :
  mismatch_vector ps qs P Q pr qr = Ok mm ->
  (forall k x y, k ∈ pr -> getitem ps k = Ok x -> getitem P k = Ok y -> x - y ∈ mm) /\
  (forall k x y, k ∈ qr -> getitem qs k = Ok x -> getitem Q k = Ok y -> x - y ∈ mm).
Proof.
  unfold mismatch_vector. intros (a & Ha & H)%bind_Ok.
  apply bind_Ok in H as (b & Hb & H). apply bind_Ok in H as (c & Hc & H).
  apply bind_Ok in H as (d & Hd & [= <-]). split; intros k x y Hk Hx Hy.
  - apply elem_of_app. left. eapply zip_minus_elem; eassumption.
  - apply elem_of_app. right. eapply zip_minus_elem; eassumption.
Qed.

Lemma loop_converged (cfg : LoadFlow) (e : env) (fuel : nat) :
  forall (it : Z) (last : option (list R * list R)) (s s' : store) (r : LoadFlowResult),
    loop cfg e fuel it last s = (Ok r, s') -> converged r = true ->
    exists s1 a mx,
      assess e s1 = (Ok a, s') /\ max_abs (a_mismatch a) = Ok mx /\ mx < tol cfg /\
      r_Vm r = Vm s' /\ r_Va r = Va s' /\ r_P r = a_P a /\ r_Q r = a_Q a.
Proof.
  induction fuel as [|fuel IH]; intros it last s s' r H Hc.
  - cbn in H. destruct last as [pw|]; [|discriminate].
    cbn in H. injection H as <- <-. discriminate.
  - cbn [loop] in H. rewrite M_bind_eq in H.
    destruct (iteration cfg e it s) as [[e1|[r1|pw]] s1] eqn:E; [discriminate| |].
    + unfold mret, M_ret in H. injection H as <- <-.
      apply iteration_converges in E as (a & mx & Ha & Hmx & Hlt & ->).
      exists s, a, mx. cbn. auto 10.
    + eapply IH; eassumption.
Qed.

(** X20: a result that reports convergence is consistent and within
    the tolerance: its [P] and [Q] are the injections of its own
    voltages, each angle unknown has its specified active power within
    [tol] of the computed one, and each magnitude unknown has its
    specified reactive power (for a converted generator: the limit
    stored in [Q_spec]) within [tol] of the computed one. *)
Theorem converged_result_meets_the_tolerance (cfg : LoadFlow) (net : Network)
    (Y : matrix) (slack : Z) (r : LoadFlowResult) (s_end : store) :
  solve cfg (frame net) = (Ok r, s_end) -> converged r = true ->
  build_ybus net = Ok Y -> slack_index net = Ok slack ->
  (r_P r, r_Q r) = injections Y (r_Vm r) (r_Va r) /\
  (forall k ps p,
     k ∈ p_rows (nbus net) slack ->
     getitem (bus_P <$> buses net) k = Ok ps -> getitem (r_P r) k = Ok p ->
     Rabs (ps - p) < tol cfg) /\
  (forall k qs q,
     k ∈ q_rows (pq_indices net) (PV_conv s_end) ->
     getitem (Q_spec s_end) k = Ok qs -> getitem (r_Q r) k = Ok q ->
     Rabs (qs - q) < tol cfg).
Proof.
  intros (e & s0 & Hsetup & Hloop)%solve_Ok Hc HY Hslack.
  apply setup_Ok in Hsetup as (Y' & slack' & HY' & Hslack' & -> & _).
  assert (Y' = Y) as -> by congruence. assert (slack' = slack) as -> by congruence.
  apply loop_converged in Hloop as (s1 & a & mx & Ha & Hmx & Hlt & -> & -> & -> & ->);
    [|exact Hc].
  apply assess_Ok in Ha as (-> & -> & HP & HQ & _ & Hpr & Hqr & Hmm).
  cbn [e_Y e_n e_slack e_pq e_P_spec] in *.
  apply mismatch_vector_elements in Hmm as [HmP HmQ].
  split; [rewrite HP, HQ; apply surjective_pairing|].
  split.
  - intros k ps p Hk Hps Hp. rewrite <- Hpr in Hk.
    eapply Rle_lt_trans; [|exact Hlt].
    eapply max_abs_bound; [exact Hmx|]. eapply HmP; eassumption.
  - intros k qs q Hk Hqs Hq. rewrite <- Hqr in Hk.
    eapply Rle_lt_trans; [|exact Hlt].
    eapply max_abs_bound; [exact Hmx|]. eapply HmQ; eassumption.
Qed.

Lemma solve_idle_store :
  solve cfg_default (frame net_idle) =
    (Ok (flat_result 0 true), flat_store net_idle [0; 0] ∅).
Proof.
  unfold solve. rewrite M_bind_eq, setup_idle.
  change (Z.to_nat (max_iter cfg_default)) with (0 + S 99)%nat.
  rewrite (loop_converges cfg_default _ 0 99 _ _ _ None _ 0
             eq_refl assess_idle max_abs_zeros2 tol_default_pos).
  reflexivity.
Qed.

Lemma converged_result_meets_the_tolerance_witness :
  (r_P (flat_result 0 true), r_Q (flat_result 0 true)) =
    injections Y_line01 (r_Vm (flat_result 0 true)) (r_Va (flat_result 0 true)) /\
  (forall k ps p,
     k ∈ p_rows (nbus net_idle) 0 ->
     getitem (bus_P <$> buses net_idle) k = Ok ps ->
     getitem (r_P (flat_result 0 true)) k = Ok p ->
     Rabs (ps - p) < tol cfg_default).
Proof.
  destruct (converged_result_meets_the_tolerance cfg_default net_idle Y_line01 0
              (flat_result 0 true) (flat_store net_idle [0; 0] ∅))
    as (H1 & H2 & _).
  - exact solve_idle_store.
  - reflexivity.
  - apply build_ybus_line01; reflexivity.
  - reflexivity.
  - split; [exact H1 | exact H2].
Defined.

(** * Diagonal entries of the admittance matrix *)

Lemma add_branch_diag (n : nat) (Y : matrix) (br : Branch) (Y' : matrix) (p : nat) :
  square n Y -> add_branch Y br = Ok Y' ->
  entry Y' p p = (fun old => self_term n p old br) <$> entry Y p p.
Proof.
  intros Hsq H.
  destruct (add_branch_entries n Y br Y' Hsq H) as (y & pi & pj & Hy & Hi & Hj & He).
  assert (y = Cquot C1 (br_r br, br_x br)) as ->.
  { unfold py_cdiv in Hy. destruct (_ && _); congruence. }
  rewrite He. unfold add_if, self_term. rewrite Hi, Hj. cbv zeta.
  destruct (entry Y p p) as [old|]; cbn;
    repeat case_decide; repeat case_bool_decide; cbn; try reflexivity;
    exfalso; naive_solver.
Qed.

Lemma foldM_add_branch_diag (n : nat) (p : nat) (brs : list Branch) :
  forall Y Y', square n Y -> foldM add_branch Y brs = Ok Y' ->
    entry Y' p p = (fun old => foldl (self_term n p) old brs) <$> entry Y p p.
Proof.
  induction brs as [|br brs IH]; intros Y Y' Hsq H; cbn in H.
  - injection H as <-. destruct (entry Y p p); reflexivity.
  - apply bind_Ok in H as (Y1 & H1 & H).
    pose proof (add_branch_square _ _ _ _ Hsq H1) as Hsq1.
    rewrite (IH _ _ Hsq1 H), (add_branch_diag _ _ _ _ _ Hsq H1).
    destruct (entry Y p p); reflexivity.
Qed.

Lemma self_term_skip (n p : nat) (acc : C) (br : Branch) :
  ~ touches n p br -> self_term n p acc br = acc.
Proof.
  intros Ht. unfold self_term, touches in *. cbv zeta.
  rewrite !bool_decide_eq_false_2 by tauto. reflexivity.
Qed.

Lemma foldl_self_skip (n p : nat) (brs : list Branch) (acc : C) :
  Forall (fun br => ~ touches n p br) brs -> foldl (self_term n p) acc brs = acc.
Proof.
  revert acc. induction brs as [|br brs IH]; intros acc HF; cbn; [reflexivity|].
  apply Forall_cons in HF as [Hbr HF]. rewrite self_term_skip by exact Hbr.
  apply IH, HF.
Qed.

(** X21: the diagonal entry [(p, p)] of the admittance matrix is the
    sum, in list order, of what the branches with an end at [p] add
    ([(y + ysh) / |t|^2] at the from end, [y + ysh] at the to end, and
    both off-diagonal terms as well for a branch whose two ends denote
    [p]), followed by the shunts at [p]; at a position that no branch
    touches it is the sum of the shunts alone. *)
Theorem self_admittance_is_sum_over_elements (net : Network) (Y : matrix) (p : nat) :
  build_ybus net = Ok Y -> (p < nbus net)%nat ->
  entry Y p p =
    Some (shunt_sum (nbus net) p (shunts net)
            (foldl (self_term (nbus net) p) C0 (branches net))) /\
  (Forall (fun br => ~ touches (nbus net) p br) (branches net) ->
   entry Y p p = Some (shunt_sum (nbus net) p (shunts net) C0)).
Proof.
  unfold build_ybus. intros (Y1 & H1 & H2)%bind_Ok Hp.
  pose proof (square_zeros (nbus net)) as Hsq0.
  destruct (proj1 (foldM_add_branch_Ok _ _ _ Hsq0) _ H1) as [Hsq1 _].
  assert (entry Y p p =
            Some (shunt_sum (nbus net) p (shunts net)
                    (foldl (self_term (nbus net) p) C0 (branches net)))) as He.
  { rewrite (foldM_add_shunt_entries _ _ _ _ Hsq1 H2), decide_True by reflexivity.
    rewrite (foldM_add_branch_diag _ _ _ _ _ Hsq0 H1), entry_zeros.
    rewrite decide_True by auto. reflexivity. }
  split; [exact He|]. intros HF. rewrite He, foldl_self_skip by exact HF. reflexivity.
Qed.

Lemma self_admittance_is_sum_over_elements_witness :
  exists Y,
    entry Y 1 1 =
      Some (shunt_sum (nbus net_transformer) 1 (shunts net_transformer)
              (foldl (self_term (nbus net_transformer) 1) C0 (branches net_transformer))).
Proof.
  destruct build_ybus_transformer_Ok as [Y HY]. exists Y.
  destruct (self_admittance_is_sum_over_elements net_transformer Y 1 HY) as [H _].
  - cbn. lia.
  - exact H.
Defined.

(** * A network at rest *)

Lemma fmap_const {A B} (f : A -> B) (c : B) (l : list A) :
  Forall (fun x => f x = c) l -> f <$> l = replicate (length l) c.
Proof.
  induction 1 as [|x l Hx _ IH]; cbn; [reflexivity|]. rewrite Hx, IH. reflexivity.
Qed.

Lemma getitem_replicate {A} (n : nat) (c x : A) (k : Z) :
  getitem (replicate n c) k = Ok x -> x = c.
Proof.
  intros (p & _ & Hx)%getitem_Ok. apply lookup_replicate in Hx as [-> _]. reflexivity.
Qed.

Lemma np_take_replicate (n : nat) (c : R) (rows : list Z) (xs : list R) :
  np_take (replicate n c) rows = Ok xs -> Forall (fun x => x = c) xs.
Proof.
  intros H. unfold np_take in H. eapply mapR_Forall; [exact H|].
  intros k x _ Hx. eapply getitem_replicate. exact Hx.
Qed.

Lemma mismatch_at_rest (n : nat) (pr qr : list Z) (mm : list R) :
  mismatch_vector (replicate n 0) (replicate n 0) (replicate n 0) (replicate n 0) pr qr
    = Ok mm ->
  Forall (fun d => d = 0) mm.
Proof.
  unfold mismatch_vector. intros (a & Ha & H)%bind_Ok.
  apply bind_Ok in H as (b & Hb & H). apply bind_Ok in H as (c & Hc & H).
  apply bind_Ok in H as (d & Hd & [= <-]).
  apply np_take_replicate in Ha, Hb, Hc, Hd.
  rewrite Forall_forall in Ha, Hb, Hc, Hd.
  apply Forall_app. split; apply Forall_forall; intros x Hx;
    apply elem_of_zip_with in Hx as (y & z & -> & Hy & Hz).
  - rewrite (Ha _ Hy), (Hb _ Hz). lra.
  - rewrite (Hc _ Hy), (Hd _ Hz). lra.
Qed.

Lemma max_abs_all_zero (m : list R) :
  m <> [] -> Forall (fun d => d = 0) m -> max_abs m = Ok 0.
Proof.
  intros Hne HF. unfold max_abs, np_max.
  destruct m as [|x m]; [contradiction|]. cbn.
  apply Forall_cons in HF as [-> HF]. rewrite Rabs_R0. f_equal. clear Hne.
  induction HF as [|y m -> _ IH]; cbn; [reflexivity|].
  rewrite Rabs_R0, (Rmax_left 0 0) by lra. exact IH.
Qed.


Lemma at_rest_idle : Forall (at_rest 1 0) (buses net_idle).
Proof. repeat constructor. Qed.


(** * Power balance without losses *)

(** ** Sums *)

Lemma Rsum_ext {A} (f g : A -> R) (l : list A) :
  (forall x, x ∈ l -> f x = g x) -> Rsum (f <$> l) = Rsum (g <$> l).
Proof.
  induction l as [|x l IH]; intros H; cbn; [reflexivity|].
  rewrite (H x) by apply list_elem_of_here. f_equal.
  apply IH. intros y Hy. apply H, list_elem_of_further, Hy.
Qed.

Lemma Rsum_plus {A} (f g : A -> R) (l : list A) :
  Rsum ((fun x => f x + g x) <$> l) = Rsum (f <$> l) + Rsum (g <$> l).
Proof. induction l as [|x l IH]; cbn; [lra|]. fold (Rsum ((fun x => f x + g x) <$> l)).
  fold (Rsum (f <$> l)). fold (Rsum (g <$> l)). rewrite IH. lra. Qed.

Lemma Rsum_opp {A} (f : A -> R) (l : list A) :
  Rsum ((fun x => - f x) <$> l) = - Rsum (f <$> l).
Proof. induction l as [|x l IH]; cbn; [lra|]. fold (Rsum ((fun x => - f x) <$> l)).
  fold (Rsum (f <$> l)). rewrite IH. lra. Qed.

Lemma Rsum_scal {A} (c : R) (f : A -> R) (l : list A) :
  Rsum ((fun x => c * f x) <$> l) = c * Rsum (f <$> l).
Proof. induction l as [|x l IH]; cbn; [lra|]. fold (Rsum ((fun x => c * f x) <$> l)).
  fold (Rsum (f <$> l)). rewrite IH. lra. Qed.

Lemma Rsum_zero {A} (l : list A) : Rsum ((fun _ => 0) <$> l) = 0.
Proof. induction l as [|x l IH]; cbn; [reflexivity|].
  fold (Rsum ((fun _ : A => 0) <$> l)). rewrite IH. lra. Qed.

Lemma Rsum_swap {A B} (f : A -> B -> R) (la : list A) (lb : list B) :
  Rsum ((fun a => Rsum ((fun b => f a b) <$> lb)) <$> la) =
  Rsum ((fun b => Rsum ((fun a => f a b) <$> la)) <$> lb).
Proof.
  induction la as [|a la IH]; cbn.
  - rewrite Rsum_zero. reflexivity.
  - fold (Rsum ((fun a => Rsum ((fun b => f a b) <$> lb)) <$> la)). rewrite IH.
    rewrite <- Rsum_plus. apply Rsum_ext. intros b _. reflexivity.
Qed.

(** An antisymmetric table sums to zero. *)
Lemma Rsum_antisymmetric (f : nat -> nat -> R) (l : list nat) :
  (forall a b, a ∈ l -> b ∈ l -> f a b = - f b a) ->
  Rsum ((fun a => Rsum ((fun b => f a b) <$> l)) <$> l) = 0.
Proof.
  intros H.
  assert (Rsum ((fun a => Rsum ((fun b => f a b) <$> l)) <$> l) =
          - Rsum ((fun a => Rsum ((fun b => f a b) <$> l)) <$> l)) as Heq; [|lra].
  rewrite Rsum_swap at 1. rewrite <- Rsum_opp. apply Rsum_ext. intros b Hb.
  rewrite <- Rsum_opp. apply Rsum_ext. intros a Ha. apply H; assumption.
Qed.

(** Lists as functions of the position. *)
Lemma list_as_seq {A} (d : A) (l : list A) :
  l = (fun k => nth k l d) <$> seq 0 (length l).
Proof.
  induction l as [|x l IH]; cbn; [reflexivity|]. f_equal.
  rewrite <- fmap_S_seq, <- list_fmap_compose. exact IH.
Qed.

Lemma zip_with_as_seq {A B D} (f : A -> B -> D) (da : A) (db : B) (n : nat)
    (l : list A) (k : list B) :
  length l = n -> length k = n ->
  zip_with f l k = (fun i => f (nth i l da) (nth i k db)) <$> seq 0 n.
Proof.
  revert n k. induction l as [|x l IH]; intros n k Hl Hk; cbn in Hl; subst n.
  - reflexivity.
  - destruct k as [|y k]; [discriminate|]. cbn. f_equal.
    rewrite <- fmap_S_seq, <- list_fmap_compose. apply IH; [reflexivity|].
    cbn in Hk. lia.
Qed.

Lemma Csum_components (l : list C) :
  Csum l = (Rsum (Cre <$> l), Rsum (Cim <$> l)).
Proof.
  induction l as [|z l IH]; cbn; [reflexivity|].
  change (foldr Cadd C0 l) with (Csum l). rewrite IH. reflexivity.
Qed.

(** ** The injections as sums over positions *)

Lemma entry_nth (n : nat) (Y : matrix) (k m : nat) :
  square n Y -> (k < n)%nat -> (m < n)%nat ->
  entry Y k m = Some (nth m (nth k Y []) C0).
Proof.
  intros [Hlen HF] Hk Hm. unfold entry.
  destruct (lookup_lt_is_Some_2 Y k) as [row Hrow]; [lia|].
  rewrite Forall_lookup in HF. pose proof (HF _ _ Hrow) as Hlr.
  destruct (lookup_lt_is_Some_2 row m) as [z Hz]; [lia|].
  rewrite Hrow. cbn. rewrite Hz.
  rewrite (nth_lookup_Some _ _ [] _ Hrow), (nth_lookup_Some _ _ C0 _ Hz). reflexivity.
Qed.

Lemma row_nth_length (n : nat) (Y : matrix) (k : nat) :
  square n Y -> (k < n)%nat -> length (nth k Y []) = n.
Proof.
  intros [Hlen HF] Hk.
  destruct (lookup_lt_is_Some_2 Y k) as [row Hrow]; [lia|].
  rewrite Forall_lookup in HF. rewrite (nth_lookup_Some _ _ [] _ Hrow).
  eapply HF. exact Hrow.
Qed.

Lemma active_injections_as_sums (n : nat) (Y : matrix) (v : list C) :
  square n Y -> length v = n ->
  Cre <$> zip_with (fun a b => Cmul a (Cconj b)) v (matvec Y v) =
  (fun k =>
     Rsum ((fun m =>
              Cre (nth k v C0) * Cre (Cmul (nth m (nth k Y []) C0) (nth m v C0)) +
              Cim (nth k v C0) * Cim (Cmul (nth m (nth k Y []) C0) (nth m v C0)))
           <$> seq 0 n)) <$> seq 0 n.
Proof.
  intros Hsq Hv. pose proof Hsq as [HlenY _].
  unfold matvec.
  rewrite (list_as_seq [] Y) at 1. rewrite HlenY, <- list_fmap_compose.
  rewrite (list_as_seq C0 v) at 1. rewrite Hv.
  rewrite zip_with_fmap_l, zip_with_fmap_r, zip_with_diag, <- list_fmap_compose.
  apply list_fmap_ext. intros i k Hk. apply lookup_seq in Hk as [-> Hk]. cbn in Hk.
  cbn [compose].
  rewrite (zip_with_as_seq Cmul C0 C0 n) by (try apply row_nth_length; assumption).
  rewrite Csum_components, <- !list_fmap_compose.
  rewrite Rsum_plus, !Rsum_scal.
  change (0 + i)%nat with i.
  unfold Cre, Cim, Cmul, Cconj, compose. cbn [fst snd]. ring.
Qed.

Lemma balance_of_susceptances (n : nat) (Y : matrix) (v : list C) :
  square n Y -> mirror_equal Y -> susceptive Y -> length v = n ->
  Rsum (Cre <$> zip_with (fun a b => Cmul a (Cconj b)) v (matvec Y v)) = 0.
Proof.
  intros Hsq Hm Hs Hv. rewrite (active_injections_as_sums n) by assumption.
  set (b := fun k m => Cim (nth m (nth k Y []) C0)).
  set (f := fun k m =>
              b k m * (Cim (nth k v C0) * Cre (nth m v C0)
                       - Cre (nth k v C0) * Cim (nth m v C0))).
  transitivity (Rsum ((fun k => Rsum ((fun m => f k m) <$> seq 0 n)) <$> seq 0 n)).
  - apply Rsum_ext. intros k Hk. apply Rsum_ext. intros m Hk'.
    apply elem_of_seq in Hk, Hk'.
    pose proof (Hs k m _ (entry_nth n Y k m Hsq ltac:(lia) ltac:(lia))) as Hre.
    unfold f, b. destruct (nth m (nth k Y []) C0) as [g bb].
    unfold Cre in Hre. cbn [fst] in Hre. subst g.
    destruct (nth k v C0) as [ak ck], (nth m v C0) as [am cm].
    unfold Cre, Cim, Cmul. cbn [fst snd]. ring.
  - apply Rsum_antisymmetric. intros k m Hk Hk'. apply elem_of_seq in Hk, Hk'.
    unfold f, b.
    assert (nth m (nth k Y []) C0 = nth k (nth m Y []) C0) as ->.
    { pose proof (Hm k m) as He.
      rewrite (entry_nth n Y k m), (entry_nth n Y m k) in He by (assumption || lia).
      congruence. }
    ring.
Qed.

(** ** Pure susceptances *)

Lemma add_if_Cre (c : Prop) `{Decision c} (v : C) (x : option C) :
  Cre v = 0 -> (forall z, x = Some z -> Cre z = 0) ->
  forall z, add_if c v x = Some z -> Cre z = 0.
Proof.
  intros Hv Hx z. unfold add_if. destruct (decide c); [|apply Hx].
  destruct x as [old|]; cbn; [|discriminate]. intros [= <-].
  unfold Cadd, Cre in *. cbn. rewrite (Hx old eq_refl), Hv. lra.
Qed.

Lemma add_branch_susceptive (n : nat) (Y : matrix) (br : Branch) (Y' : matrix) :
  square n Y -> susceptive Y -> br_r br = 0 -> br_shift_deg br = 0 ->
  add_branch Y br = Ok Y' -> susceptive Y'.
Proof.
  intros Hsq Hs Hr Hsh H p q z.
  destruct (add_branch_entries n Y br Y' Hsq H) as (y & pi & pj & Hy & _ & _ & He).
  assert (y = Cquot C1 (br_r br, br_x br)) as ->.
  { unfold py_cdiv in Hy. destruct (_ && _); congruence. }
  rewrite He, (tap_ratio_no_shift br Hsh), line_charging_half, Hr.
  repeat (apply add_if_Cre;
          [unfold Cre, Cquot, Cadd, Copp, Cconj, RtoC, C1; cbn [fst snd];
           unfold Rdiv; ring|]).
  apply Hs.
Qed.

Lemma shunt_sum_Cre (n p : nat) (shs : list Shunt) (z : C) :
  Forall (fun sh => sh_g sh = 0) shs -> Cre z = 0 -> Cre (shunt_sum n p shs z) = 0.
Proof.
  unfold shunt_sum. intros HF. revert z.
  induction HF as [|sh shs Hg _ IH]; intros z Hz; cbn; [exact Hz|].
  apply IH. destruct (decide _); [|exact Hz].
  unfold Cadd, Cre in *. cbn. rewrite Hz, Hg. lra.
Qed.

Lemma build_ybus_susceptive (net : Network) (Y : matrix) :
  lossless net -> build_ybus net = Ok Y -> susceptive Y.
Proof.
  intros [HFb HFs] H. unfold build_ybus in H. apply bind_Ok in H as (Y1 & H1 & H2).
  assert (square (nbus net) Y1 /\ susceptive Y1) as [Hsq1 Hs1].
  { clear H2. pose proof (square_zeros (nbus net)) as Hsq.
    assert (susceptive (zeros (nbus net))) as Hs.
    { intros p q z. rewrite entry_zeros. destruct (decide _); [|discriminate].
      intros [= <-]. reflexivity. }
    revert H1 Hsq Hs. generalize (zeros (nbus net)) as Y0.
    induction HFb as [|br brs (Hr & Hsh & _) _ IH]; intros Y0 H Hsq Hs.
    - cbn in H. injection H as <-. auto.
    - cbn in H. apply bind_Ok in H as (Y2 & H2 & H).
      apply (IH Y2 H).
      + eapply add_branch_square; eassumption.
      + eapply add_branch_susceptive; eassumption. }
  intros p q z. rewrite (foldM_add_shunt_entries _ _ _ _ Hsq1 H2).
  destruct (decide (p = q)) as [->|_]; [|apply Hs1].
  destruct (entry Y1 q q) as [old|] eqn:E; cbn; [|discriminate].
  intros [= <-]. apply shunt_sum_Cre; [exact HFs | eapply Hs1; exact E].
Qed.

Lemma lossless_injections (net : Network) (Y : matrix) (vm va : list R) :
  lossless net -> build_ybus net = Ok Y ->
  length vm = nbus net -> length va = nbus net ->
  Rsum (fst (injections Y vm va)) = 0.
Proof.
  intros Hl HY Hvm Hva. pose proof Hl as [HFb _].
  destruct (build_ybus_mirror net Y) as [Hsq Hm]; [|exact HY|].
  { eapply Forall_impl; [exact HFb|]. intros br (_ & ? & ?). auto. }
  unfold injections. cbn [fst].
  apply (balance_of_susceptances (nbus net)); try assumption.
  - eapply build_ybus_susceptive; eassumption.
  - unfold phasors. rewrite length_zip_with. lia.
Qed.


Lemma lossless_gen : lossless net_gen.
Proof.
  split; [|apply Forall_nil; exact I].
  apply Forall_cons. split; [|apply Forall_nil; exact I].
  split; [reflexivity|]. split; [reflexivity|]. cbn. lra.
Qed.


(** * The order of the passes over [PV_active] *)

Lemma enforce_one_Ok_shape (Q : list R) (k : Z) (s s' : store) :
  enforce_one Q k s = (Ok tt, s') <->
  exists b,
    getitem (buses (network s)) k = Ok b /\
    ((violated_limit b Q k = Ok None /\ s' = s) \/
     (exists lim p,
        violated_limit b Q k = Ok (Some lim) /\
        py_pos (length (Q_spec s)) k = Some p /\ bus_type b = PV /\
        s' = mkStore (network s) (Vm s) (Va s) (<[p:=lim]> (Q_spec s))
               (PV_active s ∖ {[k]}) (PV_conv s ∪ {[k]}))).
Proof.
  rewrite enforce_one_run.
  destruct (getitem (buses (network s)) k) as [e|b].
  { split; [discriminate | intros (b & [=] & _)]. }
  destruct (violated_limit b Q k) as [e|[lim|]] eqn:Ev.
  - split; [discriminate|]. intros (b' & [= <-] & Hcase).
    rewrite Ev in Hcase. destruct Hcase as [[[=] _] | (l & p & [=] & _)].
  - rewrite convert_run. cbv zeta. unfold setitem, py_assert.
    destruct (py_pos (length (Q_spec s)) k) as [p|] eqn:Ep.
    + destruct (bool_decide (bus_type b = PV)) eqn:Et.
      * apply bool_decide_eq_true_1 in Et. split.
        -- intros [= <-]. exists b. split; [reflexivity|]. right. exists lim, p. auto.
        -- intros (b' & [= <-] & Hcase). rewrite Ev in Hcase.
           destruct Hcase as [[[=] _] | (l & p' & [= <-] & [= <-] & _ & ->)].
           reflexivity.
      * apply bool_decide_eq_false_1 in Et. split; [discriminate|].
        intros (b' & [= <-] & Hcase). rewrite Ev in Hcase.
        destruct Hcase as [[[=] _] | (l & p' & _ & _ & Ht & _)]. contradiction.
    + split; [discriminate|].
      intros (b' & [= <-] & Hcase). rewrite Ev in Hcase.
      destruct Hcase as [[[=] _] | (l & p' & _ & [=] & _)].
  - split.
    + intros [= <-]. exists b. auto.
    + intros (b' & [= <-] & Hcase). rewrite Ev in Hcase.
      destruct Hcase as [[_ ->] | (l & p & [=] & _)]. reflexivity.
Qed.

(** The limit that the pass for [k] finds is a function of the position
    that [k] denotes. *)
Lemma violated_limit_position (n : nat) (bs : list Bus) (Q : list R) (k1 k2 : Z)
    (b1 b2 : Bus) (p : nat) :
  length bs = n -> length Q = n ->
  py_pos n k1 = Some p -> py_pos n k2 = Some p ->
  getitem bs k1 = Ok b1 -> getitem bs k2 = Ok b2 ->
  b1 = b2 /\ violated_limit b1 Q k1 = violated_limit b2 Q k2.
Proof.
  intros Hb HQ H1 H2 (p1 & Hp1 & Hb1)%getitem_Ok (p2 & Hp2 & Hb2)%getitem_Ok.
  rewrite Hb in Hp1, Hp2.
  assert (p1 = p) as -> by congruence. assert (p2 = p) as -> by congruence.
  assert (b1 = b2) as -> by congruence. split; [reflexivity|].
  assert (getitem Q k1 = getitem Q k2) as HQk.
  { unfold getitem. rewrite HQ, H1, H2. reflexivity. }
  unfold violated_limit, limit_check. rewrite HQk. reflexivity.
Qed.

Lemma enforce_one_commute (Q : list R) (k1 k2 : Z) (s s1 s2 : store) :
  length (Q_spec s) = nbus (network s) -> length Q = nbus (network s) ->
  enforce_one Q k1 s = (Ok tt, s1) -> enforce_one Q k2 s1 = (Ok tt, s2) ->
  exists s1', enforce_one Q k2 s = (Ok tt, s1') /\ enforce_one Q k1 s1' = (Ok tt, s2).
Proof.
  intros Hlen HQ H1 H2.
  pose proof (enforce_one_sets _ _ _ _ _ H1) as (Hn1 & _).
  pose proof (enforce_one_Q_spec_length _ _ _ _ _ H1) as Hl1.
  apply enforce_one_Ok_shape in H1 as (b1 & Hb1 & H1).
  apply enforce_one_Ok_shape in H2 as (b2 & Hb2 & H2).
  rewrite Hn1 in Hb2. rewrite Hl1 in H2.
  destruct H1 as [[Hv1 ->] | (l1 & p1 & Hv1 & Hp1 & Ht1 & ->)];
    destruct H2 as [[Hv2 ->] | (l2 & p2 & Hv2 & Hp2 & Ht2 & ->)].
  - exists s. split; apply enforce_one_Ok_shape; eauto.
  - eexists. split.
    + apply enforce_one_Ok_shape. exists b2. split; [exact Hb2|]. right.
      exists l2, p2. auto.
    + apply enforce_one_Ok_shape. exists b1. split; [exact Hb1|]. left. auto.
  - eexists. split.
    + apply enforce_one_Ok_shape. exists b2. split; [exact Hb2|]. left. eauto.
    + apply enforce_one_Ok_shape. exists b1. split; [exact Hb1|]. right.
      exists l1, p1. auto.
  - cbn [network Q_spec PV_active PV_conv Vm Va] in *.
    eexists. split.
    + apply enforce_one_Ok_shape. exists b2. split; [exact Hb2|]. right.
      exists l2, p2. split; [exact Hv2|]. split; [exact Hp2|]. split; [exact Ht2|].
      reflexivity.
    + apply enforce_one_Ok_shape. cbn [network Q_spec PV_active PV_conv Vm Va].
      exists b1. split; [exact Hb1|]. right. exists l1, p1.
      split; [exact Hv1|]. split; [rewrite length_insert; exact Hp1|].
      split; [exact Ht1|].
      assert (<[p2:=l2]> (<[p1:=l1]> (Q_spec s)) = <[p1:=l1]> (<[p2:=l2]> (Q_spec s)))
        as ->.
      { destruct (decide (p1 = p2)) as [<-|Hne]; [|apply list_insert_insert_ne; congruence].
        rewrite Hlen in Hp1, Hp2.
        destruct (violated_limit_position _ _ Q k1 k2 b1 b2 p1 eq_refl HQ Hp1 Hp2 Hb1 Hb2)
          as [_ Heq].
        assert (l1 = l2) as -> by congruence. reflexivity. }
      f_equal; set_solver.
Qed.

Lemma forM_enforce_perm (Q : list R) (ks ks' : list Z) :
  ks ≡ₚ ks' ->
  forall s s',
    length (Q_spec s) = nbus (network s) -> length Q = nbus (network s) ->
    forM_ ks (enforce_one Q) s = (Ok tt, s') ->
    forM_ ks' (enforce_one Q) s = (Ok tt, s').
Proof.
  induction 1 as [|x l l' _ IH|x y l|l l' l'' _ IH1 _ IH2]; intros s s' Hlen HQ.
  - auto.
  - cbn [forM_]. rewrite !M_bind_eq.
    destruct (enforce_one Q x s) as [[e|[]] s1] eqn:E; [discriminate|].
    pose proof (enforce_one_sets _ _ _ _ _ E) as (Hn1 & _).
    pose proof (enforce_one_Q_spec_length _ _ _ _ _ E) as Hl1.
    apply IH; congruence.
  - cbn [forM_]. rewrite !M_bind_eq.
    destruct (enforce_one Q y s) as [[e|[]] s1] eqn:E1; [discriminate|].
    rewrite M_bind_eq.
    destruct (enforce_one Q x s1) as [[e|[]] s2] eqn:E2; [discriminate|].
    destruct (enforce_one_commute _ _ _ _ _ _ Hlen HQ E1 E2) as (s1' & E1' & E2').
    rewrite E1', M_bind_eq, E2'. auto.
  - intros H. apply IH2; [assumption..|]. apply IH1; assumption.
Qed.

Lemma reimpose_one_Ok_shape (k : Z) (s s' : store) :
  reimpose_one k s = (Ok tt, s') <->
  exists b p,
    getitem (buses (network s)) k = Ok b /\ py_pos (length (Vm s)) k = Some p /\
    s' = mkStore (network s) (<[p:=bus_V b]> (Vm s)) (Va s) (Q_spec s)
           (PV_active s) (PV_conv s).
Proof.
  rewrite reimpose_one_run.
  destruct (getitem (buses (network s)) k) as [e|b].
  { split; [discriminate | intros (b & p & [=] & _)]. }
  unfold setitem. destruct (py_pos (length (Vm s)) k) as [p|].
  - split.
    + intros [= <-]. exists b, p. auto.
    + intros (b' & p' & [= <-] & [= <-] & ->). reflexivity.
  - split; [discriminate | intros (b' & p' & _ & [=] & _)].
Qed.

Lemma reimpose_one_commute (k1 k2 : Z) (s s1 s2 : store) :
  length (Vm s) = nbus (network s) ->
  reimpose_one k1 s = (Ok tt, s1) -> reimpose_one k2 s1 = (Ok tt, s2) ->
  exists s1', reimpose_one k2 s = (Ok tt, s1') /\ reimpose_one k1 s1' = (Ok tt, s2).
Proof.
  intros Hlen (b1 & p1 & Hb1 & Hp1 & ->)%reimpose_one_Ok_shape
    (b2 & p2 & Hb2 & Hp2 & ->)%reimpose_one_Ok_shape.
  cbn [network Q_spec PV_active PV_conv Vm Va] in *.
  rewrite length_insert in Hp2.
  eexists. split.
  - apply reimpose_one_Ok_shape. exists b2, p2. auto.
  - apply reimpose_one_Ok_shape. cbn [network Q_spec PV_active PV_conv Vm Va].
    exists b1, p1. split; [exact Hb1|]. split; [rewrite length_insert; exact Hp1|].
    f_equal.
    destruct (decide (p1 = p2)) as [<-|Hne]; [|apply list_insert_insert_ne; congruence].
    apply getitem_Ok in Hb1 as (q1 & Hq1 & Hb1). apply getitem_Ok in Hb2 as (q2 & Hq2 & Hb2).
    fold (nbus (network s)) in Hq1, Hq2. rewrite Hlen in Hp1, Hp2.
    assert (b1 = b2) as -> by congruence. reflexivity.
Qed.

Lemma forM_reimpose_perm (ks ks' : list Z) :
  ks ≡ₚ ks' ->
  forall s s',
    length (Vm s) = nbus (network s) ->
    forM_ ks reimpose_one s = (Ok tt, s') ->
    forM_ ks' reimpose_one s = (Ok tt, s').
Proof.
  induction 1 as [|x l l' _ IH|x y l|l l' l'' _ IH1 _ IH2]; intros s s' Hlen.
  - auto.
  - cbn [forM_]. rewrite !M_bind_eq.
    destruct (reimpose_one x s) as [[e|[]] s1] eqn:E; [discriminate|].
    apply reimpose_one_Ok_shape in E as (b & p & _ & _ & ->).
    apply IH. cbn. rewrite length_insert. exact Hlen.
  - cbn [forM_]. rewrite !M_bind_eq.
    destruct (reimpose_one y s) as [[e|[]] s1] eqn:E1; [discriminate|].
    rewrite M_bind_eq.
    destruct (reimpose_one x s1) as [[e|[]] s2] eqn:E2; [discriminate|].
    destruct (reimpose_one_commute _ _ _ _ _ Hlen E1 E2) as (s1' & E1' & E2').
    rewrite E1', M_bind_eq, E2'. auto.
  - intros H. apply IH2; [assumption|]. apply IH1; assumption.
Qed.

(** X24: the order in which the members of [PV_active] are visited does
    not matter.  With working vectors of one entry per bus, a limit loop
    that completes over one enumeration of the set completes over every
    other one and leaves the same store, and so does the loop that
    re-imposes the setpoints: each pass acts on the position its index
    denotes, with values that depend on that position alone. *)
Theorem visiting_order_is_immaterial (Q : list R) (s : store) (ks ks' : list Z) :
  length (Vm s) = nbus (network s) ->
  length (Q_spec s) = nbus (network s) -> length Q = nbus (network s) ->
  ks ≡ₚ ks' ->
  (forall s', forM_ ks (enforce_one Q) s = (Ok tt, s') <->
              forM_ ks' (enforce_one Q) s = (Ok tt, s')) /\
  (forall s', forM_ ks reimpose_one s = (Ok tt, s') <->
              forM_ ks' reimpose_one s = (Ok tt, s')).
Proof.
  intros HVm HQs HQ Hp. split; intros s'; split.
  - apply forM_enforce_perm; assumption.
  - apply forM_enforce_perm; [symmetry|..]; assumption.
  - apply forM_reimpose_perm; assumption.
  - apply forM_reimpose_perm; [symmetry|]; assumption.
Qed.

Lemma visiting_order_is_immaterial_witness :
  [1%Z; (-1)%Z] ≡ₚ [(-1)%Z; 1%Z] /\
  ((forall s',
      forM_ [1%Z; (-1)%Z] (enforce_one [0; 0]) (flat_store net_gen [0; 0] {[1%Z]}) = (Ok tt, s') <->
      forM_ [(-1)%Z; 1%Z] (enforce_one [0; 0]) (flat_store net_gen [0; 0] {[1%Z]}) = (Ok tt, s')) /\
   (forall s',
      forM_ [1%Z; (-1)%Z] reimpose_one (flat_store net_gen [0; 0] {[1%Z]}) = (Ok tt, s') <->
      forM_ [(-1)%Z; 1%Z] reimpose_one (flat_store net_gen [0; 0] {[1%Z]}) = (Ok tt, s'))).
Proof.
  split; [apply Permutation_swap|].
  apply (visiting_order_is_immaterial [0; 0] (flat_store net_gen [0; 0] {[1%Z]})
           [1%Z; (-1)%Z] [(-1)%Z; 1%Z]).
  - reflexivity.
  - reflexivity.
  - reflexivity.
  - apply Permutation_swap.
Defined.

(** * Converted generators *)

Lemma violated_limit_is_limit (b : Bus) (Q : list R) (k : Z) (lim : R) :
  violated_limit b Q k = Ok (Some lim) -> is_limit b lim.
Proof.
  intros (q & _ & _ & [[H _] | [H _]])%violated_limit_Some; [left | right]; exact H.
Qed.

Lemma enforce_one_pinned (net : Network) (Q : list R) (k : Z) (s s' : store) :
  sized net s -> pinned net s ->
  enforce_one Q k s = (Ok tt, s') -> pinned net s'.
Proof.
  intros (Hn & _ & _ & Hlen) Hpin
    (b & Hb & [[_ ->] | (lim & p & Hv & Hp & Ht & ->)])%enforce_one_Ok_shape;
    [exact Hpin|].
  rewrite Hlen in Hp. rewrite Hn in Hb.
  apply getitem_Ok in Hb as (p' & Hp' & Hb). fold (nbus net) in Hp'.
  assert (p' = p) as -> by congruence.
  pose proof (violated_limit_is_limit _ _ _ _ Hv) as Hlim.
  pose proof (py_pos_lt _ _ _ Hp) as Hlt.
  intros k'. cbn [PV_conv Q_spec]. intros Hk'.
  destruct (decide (k' ∈ PV_conv s)) as [Hin|Hout].
  - destruct (Hpin k' Hin) as (p1 & b1 & l1 & Hp1 & Hb1 & Hl1 & Ht1 & Hlim1).
    destruct (decide (p1 = p)) as [->|Hne].
    + assert (b1 = b) as -> by congruence.
      exists p, b, lim. rewrite list_lookup_insert_eq by lia. auto.
    + exists p1, b1, l1. rewrite list_lookup_insert_ne by congruence. auto.
  - assert (k' = k) as -> by set_solver.
    exists p, b, lim. rewrite list_lookup_insert_eq by lia. auto.
Qed.

Lemma forM_enforce_pinned (net : Network) (Q : list R) (ks : list Z) :
  forall s s',
    sized net s -> pinned net s ->
    forM_ ks (enforce_one Q) s = (Ok tt, s') -> pinned net s'.
Proof.
  induction ks as [|k ks IH]; intros s s' Hs Hpin; cbn [forM_].
  - unfoldM. intros [= <-]. exact Hpin.
  - rewrite M_bind_eq. destruct (enforce_one Q k s) as [[e|[]] s1] eqn:E; [discriminate|].
    apply IH.
    + destruct Hs as (Hn & HVm & HVa & HQ).
      pose proof (enforce_one_sets _ _ _ _ _ E) as (Hn1 & HVm1 & HVa1 & _).
      pose proof (enforce_one_Q_spec_length _ _ _ _ _ E) as Hl1.
      unfold sized. rewrite Hn1, HVm1, HVa1, Hl1. auto.
    + eapply enforce_one_pinned; eassumption.
Qed.

Lemma assess_pinned (net : Network) (e : env) (s : store) (a : assessment) (s1 : store) :
  sized net s -> pinned net s -> assess e s = (Ok a, s1) -> pinned net s1.
Proof.
  intros Hs Hpin (_ & _ & _ & _ & He & _)%assess_Ok.
  unfold enforce_limits in He. revert He. unfoldM. intros He.
  eapply forM_enforce_pinned; eassumption.
Qed.

(** X25: when [solve] returns, every index it has converted denotes a
    PV bus, and the [Q_spec] entry of that bus is one of its two
    reactive limits; if the result reports convergence, the reactive
    power computed for the bus is within the tolerance of that limit:
    a converted generator ends at the limit that will hold it. *)
Theorem converted_generators_sit_at_a_limit (cfg : LoadFlow) (net : Network)
    (r : LoadFlowResult) (s_end : store) (k : Z) :
  solve cfg (frame net) = (Ok r, s_end) -> k ∈ PV_conv s_end ->
  exists b lim,
    getitem (buses net) k = Ok b /\ bus_type b = PV /\ is_limit b lim /\
    getitem (Q_spec s_end) k = Ok lim /\
    (converged r = true ->
     exists q, getitem (r_Q r) k = Ok q /\ Rabs (lim - q) < tol cfg).
Proof.
  intros Hsolve Hk. pose proof Hsolve as (e & s0 & Hsetup & Hloop)%solve_Ok.
  pose proof (setup_sized _ _ _ Hsetup) as (Hs0 & HlY & _).
  pose proof (setup_sets _ _ _ Hsetup) as (_ & _ & Hconv0).
  pose proof Hloop as Hinv.
  apply (loop_invariant cfg e (fun s => sized net s /\ pinned net s)
           (fun pw => length (snd pw) = nbus net)) in Hinv
    as ((Hsz & Hpin) & _ & _ & HlQ).
  - destruct (Hpin k Hk) as (p & b & lim & Hp & Hb & Hl & Ht & Hlim).
    destruct Hsz as (_ & _ & _ & HlQs). cbn [snd] in HlQ.
    exists b, lim.
    assert (getitem (Q_spec s_end) k = Ok lim) as Hqs.
    { apply getitem_Ok. exists p. rewrite HlQs. auto. }
    split; [apply getitem_Ok; exists p; auto|]. split; [exact Ht|].
    split; [exact Hlim|]. split; [exact Hqs|].
    intros Hc.
    apply loop_converged in Hloop as (s1 & a & mx & Ha & Hmx & Hlt & _ & _ & _ & HQ);
      [|exact Hc].
    destruct (getitem_in_range (r_Q r) k) as [q Hq]; [rewrite HlQ; eauto|].
    exists q. split; [exact Hq|].
    apply assess_Ok in Ha as (_ & _ & _ & _ & _ & _ & Hqr & Hmm).
    apply mismatch_vector_elements in Hmm as [_ HmQ].
    eapply Rle_lt_trans; [|exact Hlt].
    eapply max_abs_bound; [exact Hmx|].
    apply (HmQ k lim q); [| exact Hqs | rewrite <- HQ; exact Hq].
    rewrite Hqr. apply elem_of_q_rows. right. exact Hk.
  - intros s a s1 [Hs Hp] Ha.
    pose proof (assess_pinned _ _ _ _ _ Hs Hp Ha) as Hp1.
    apply (assess_sized net) in Ha as (Hs1 & _ & HQ); [|assumption..]. auto.
  - intros s a s1 s2 [Hs Hp] Ha Hu.
    pose proof (assess_pinned _ _ _ _ _ Hs Hp Ha) as Hp1.
    apply (assess_sized net) in Ha as (Hs1 & _); [|assumption..].
    split; [eapply newton_update_sized; eassumption|].
    pose proof (newton_update_frame _ _ _ _ _ Hu) as (_ & _ & Hconv & HQs).
    intros k' Hk'. rewrite Hconv in Hk'. rewrite HQs. apply Hp1. exact Hk'.
  - split; [exact Hs0|]. intros k'. rewrite Hconv0. intros Hk'. set_solver.
  - discriminate.
Qed.

Lemma setup_held :
  setup (frame net_held) =
    (Ok (line_env 0 [] [0; 0]), flat_store net_held [0; 0] {[1%Z]}).
Proof.
  rewrite setup_run. cbn [network frame].
  rewrite build_ybus_line01 by reflexivity.
  cbn. rewrite !deg2rad_0. reflexivity.
Qed.

Lemma enforce_one_held :
  enforce_one [0; 0] 1 (flat_store net_held [0; 0] {[1%Z]}) =
    (Ok tt, mkStore net_held [1; 1] [0; 0] [0; - (1 / 2)]
              ({[1%Z]} ∖ {[1%Z]}) (∅ ∪ {[1%Z]})).
Proof.
  rewrite enforce_one_run.
  change (getitem (buses (network (flat_store net_held [0; 0] {[1%Z]}))) 1)
    with (Ok held_gen).
  cbv beta iota.
  assert (violated_limit held_gen [0; 0] 1 = Ok (Some (- (1 / 2)))) as ->.
  { rcbv. rewrite Rltb_true by lra. reflexivity. }
  rewrite convert_run. reflexivity.
Qed.

Lemma assess_held :
  assess (line_env 0 [] [0; 0]) (flat_store net_held [0; 0] {[1%Z]}) =
    (Ok (mkAssessment [0; 0] [0; 0] [1%Z] [1%Z] [0 - 0; - (1 / 2) - 0]),
     mkStore net_held [1; 1] [0; 0] [0; - (1 / 2)] ({[1%Z]} ∖ {[1%Z]}) (∅ ∪ {[1%Z]})).
Proof.
  erewrite assess_run.
  - flat_start. do 3 f_equal.
  - flat_start. unfold enforce_limits. unfoldM.
    cbn [PV_active flat_store]. rewrite elements_singleton. cbn [forM_].
    unfoldM. rewrite enforce_one_held. reflexivity.
  - flat_start. cbn [Q_spec PV_conv].
    replace (q_rows [] (∅ ∪ {[1%Z]})) with [1%Z] by (vm_compute; reflexivity).
    replace (p_rows 2 0) with [1%Z] by (vm_compute; reflexivity).
    rcbv. reflexivity.
Qed.

Lemma solve_held :
  solve cfg_coarse (frame net_held) =
    (Ok (flat_result 0 true),
     mkStore net_held [1; 1] [0; 0] [0; - (1 / 2)] ({[1%Z]} ∖ {[1%Z]}) (∅ ∪ {[1%Z]})).
Proof.
  unfold solve. rewrite M_bind_eq, setup_held.
  change (Z.to_nat (max_iter cfg_coarse)) with (0 + S 0)%nat.
  rewrite (loop_converges cfg_coarse _ 0 0 _ _ _ None _
             (Rmax (Rabs (0 - 0)) (Rabs (- (1 / 2) - 0))) eq_refl assess_held eq_refl).
  - reflexivity.
  - cbn [tol cfg_coarse]. apply Rmax_lub_lt; unfold Rabs; destruct (Rcase_abs _); lra.
Qed.

Lemma converted_generators_sit_at_a_limit_witness :
  exists b lim,
    getitem (buses net_held) 1 = Ok b /\ bus_type b = PV /\ is_limit b lim /\
    getitem [0; - (1 / 2)] 1 = Ok lim /\
    (converged (flat_result 0 true) = true ->
     exists q, getitem (r_Q (flat_result 0 true)) 1 = Ok q /\
               Rabs (lim - q) < tol cfg_coarse).
Proof.
  apply (converted_generators_sit_at_a_limit cfg_coarse net_held _ _ 1 solve_held).
  cbn [PV_conv]. set_solver.
Defined.

(** * The base power *)

Lemma blind_ret {A} (a : A) : base_blind (mret a : M A).
Proof. intros s s' H. split; [reflexivity | exact H]. Qed.

Lemma blind_lift {A} (r : res A) : base_blind (lift r).
Proof. intros s s' H. split; [reflexivity | exact H]. Qed.

Lemma blind_gets {A} (f : store -> A) :
  (forall s s', same_but_base s s' -> f s = f s') -> base_blind (gets f).
Proof. intros Hf s s' H. split; [cbn; f_equal; apply Hf, H | exact H]. Qed.

Lemma blind_bind {A B} (m : M A) (f : A -> M B) :
  base_blind m -> (forall a, base_blind (f a)) -> base_blind (m ≫= f).
Proof.
  intros Hm Hf s s' H. rewrite !M_bind_eq. destruct (Hm s s' H) as [Hr Hs].
  destruct (m s) as [[e|a] s1], (m s') as [[e'|a'] s1']; cbn in Hr, Hs;
    try discriminate.
  - split; [cbn; congruence | exact Hs].
  - injection Hr as <-. apply Hf, Hs.
Qed.

Lemma blind_forM_ {A} (l : list A) (body : A -> M unit) :
  (forall x, base_blind (body x)) -> base_blind (forM_ l body).
Proof.
  intros Hb. induction l as [|x l IH]; cbn.
  - apply blind_ret.
  - apply blind_bind; [apply Hb | intros _; exact IH].
Qed.

Lemma blind_put_Vm (v : list R) : base_blind (put_Vm v).
Proof. intros s s' (? & ? & ? & ? & ? & ?). cbn. unfold same_but_base. cbn. auto 10. Qed.

Lemma blind_put_Va (v : list R) : base_blind (put_Va v).
Proof. intros s s' (? & ? & ? & ? & ? & ?). cbn. unfold same_but_base. cbn. auto 10. Qed.

Lemma blind_put_Q_spec (v : list R) : base_blind (put_Q_spec v).
Proof. intros s s' (? & ? & ? & ? & ? & ?). cbn. unfold same_but_base. cbn. auto 10. Qed.

Lemma blind_put_PV_active (X : gset Z) : base_blind (put_PV_active X).
Proof. intros s s' (? & ? & ? & ? & ? & ?). cbn. unfold same_but_base. cbn. auto 10. Qed.

Lemma blind_put_PV_conv (X : gset Z) : base_blind (put_PV_conv X).
Proof. intros s s' (? & ? & ? & ? & ? & ?). cbn. unfold same_but_base. cbn. auto 10. Qed.

(** A computation that reads the network through its grid alone. *)
Lemma blind_network {A} (f : Network -> M A) :
  (forall net net', same_grid net net' ->
     forall s s', same_but_base s s' ->
       fst (f net s) = fst (f net' s') /\
       same_but_base (snd (f net s)) (snd (f net' s'))) ->
  base_blind (gets network ≫= f).
Proof.
  intros Hf s s' H. rewrite !M_bind_eq. cbn. apply Hf; [apply H | exact H].
Qed.

Lemma build_ybus_grid (net net' : Network) :
  same_grid net net' -> build_ybus net = build_ybus net'.
Proof.
  intros (Hb & Hbr & Hsh). unfold build_ybus, nbus. rewrite Hb, Hbr, Hsh. reflexivity.
Qed.

Lemma blind_setup : base_blind setup.
Proof.
  unfold setup. apply blind_network. intros net net' Hg s s' Hs.
  pose proof Hg as (Hb & Hbr & Hsh).
  rewrite !M_bind_eq. unfold lift at 1 3. rewrite <- (build_ybus_grid _ _ Hg).
  destruct (build_ybus net) as [e|Y]; [split; [reflexivity | exact Hs]|].
  rewrite !M_bind_eq. unfold lift at 1 2, slack_index, pv_indices, pq_indices, nbus.
  rewrite <- Hb.
  destruct (first_slack (buses net)) as [e|slack]; [split; [reflexivity | exact Hs]|].
  unfoldM. cbn. split; [reflexivity|].
  destruct Hs as (? & _). unfold same_but_base. cbn. auto 10.
Qed.

Lemma blind_convert (k : Z) (lim : R) (b : Bus) : base_blind (convert k lim b).
Proof.
  unfold convert.
  apply blind_bind; [apply blind_gets; intros s s' H; apply H | intros act].
  apply blind_bind; [apply blind_put_PV_active | intros _].
  apply blind_bind; [apply blind_gets; intros s s' H; apply H | intros conv].
  apply blind_bind; [apply blind_put_PV_conv | intros _].
  apply blind_bind; [apply blind_gets; intros s s' H; apply H | intros qs].
  apply blind_bind; [apply blind_lift | intros qs'].
  apply blind_bind; [apply blind_put_Q_spec | intros _].
  apply blind_lift.
Qed.

Lemma blind_enforce_one (Q : list R) (k : Z) : base_blind (enforce_one Q k).
Proof.
  unfold enforce_one. apply blind_network. intros net net' (Hb & _) s s' Hs.
  rewrite <- Hb.
  apply (blind_bind (lift (getitem (buses net) k))); [apply blind_lift| |exact Hs].
  intros b. apply blind_bind; [apply blind_lift | intros [lim|]].
  - apply blind_convert.
  - apply blind_ret.
Qed.

Lemma blind_enforce_limits (Q : list R) : base_blind (enforce_limits Q).
Proof.
  unfold enforce_limits. apply blind_bind.
  - apply blind_gets. intros s s' (_ & _ & _ & _ & -> & _). reflexivity.
  - intros ks. apply blind_forM_. intros k. apply blind_enforce_one.
Qed.

Lemma blind_assess (e : env) : base_blind (assess e).
Proof.
  unfold assess.
  apply blind_bind; [apply blind_gets; intros s s' H; apply H | intros vm].
  apply blind_bind; [apply blind_gets; intros s s' H; apply H | intros va].
  cbv zeta.
  apply blind_bind; [apply blind_enforce_limits | intros _].
  apply blind_bind; [apply blind_gets; intros s s' H; apply H | intros conv].
  apply blind_bind; [apply blind_gets; intros s s' H; apply H | intros qs].
  apply blind_bind; [apply blind_lift | intros mm].
  apply blind_ret.
Qed.

Lemma blind_reimpose_one (k : Z) : base_blind (reimpose_one k).
Proof.
  unfold reimpose_one. apply blind_network. intros net net' (Hb & _) s s' Hs.
  rewrite <- Hb.
  apply (blind_bind (lift (getitem (buses net) k))); [apply blind_lift| |exact Hs].
  intros b.
  apply blind_bind; [apply blind_gets; intros s1 s1' H; apply H | intros vm].
  apply blind_bind; [apply blind_lift | intros vm'].
  apply blind_put_Vm.
Qed.

Lemma blind_newton_update (e : env) (a : assessment) : base_blind (newton_update e a).
Proof.
  unfold newton_update.
  apply blind_bind; [apply blind_gets; intros s s' H; apply H | intros vm].
  apply blind_bind; [apply blind_gets; intros s s' H; apply H | intros va].
  cbv zeta.
  apply blind_bind; [apply blind_lift | intros J].
  apply blind_bind; [apply blind_lift | intros dx].
  apply blind_bind; [apply blind_lift | intros va'].
  apply blind_bind; [apply blind_put_Va | intros _].
  apply blind_bind; [apply blind_lift | intros vm'].
  apply blind_bind; [apply blind_put_Vm | intros _].
  apply blind_bind.
  - apply blind_gets. intros s s' (_ & _ & _ & _ & -> & _). reflexivity.
  - intros act. apply blind_forM_. intros k. apply blind_reimpose_one.
Qed.

Lemma blind_iteration (cfg : LoadFlow) (e : env) (it : Z) :
  base_blind (iteration cfg e it).
Proof.
  unfold iteration.
  apply blind_bind; [apply blind_assess | intros a].
  apply blind_bind; [apply blind_lift | intros mx].
  destruct (Rltb mx (tol cfg)).
  - apply blind_bind; [apply blind_gets; intros s s' H; apply H | intros vm].
    apply blind_bind; [apply blind_gets; intros s s' H; apply H | intros va].
    apply blind_ret.
  - apply blind_bind; [apply blind_newton_update | intros _; apply blind_ret].
Qed.

Lemma blind_loop (cfg : LoadFlow) (e : env) (fuel : nat) :
  forall (it : Z) (last : option (list R * list R)),
    base_blind (loop cfg e fuel it last).
Proof.
  induction fuel as [|fuel IH]; intros it last; cbn [loop].
  - destruct last as [pw|]; [|apply blind_lift].
    apply blind_bind; [apply blind_gets; intros s s' H; apply H | intros vm].
    apply blind_bind; [apply blind_gets; intros s s' H; apply H | intros va].
    apply blind_ret.
  - apply blind_bind; [apply blind_iteration | intros [r|pw]].
    + apply blind_ret.
    + apply IH.
Qed.

Lemma blind_solve (cfg : LoadFlow) : base_blind (solve cfg).
Proof.
  unfold solve. apply blind_bind; [apply blind_setup | intros e; apply blind_loop].
Qed.

(** X26: [solve] never reads the base power of the network: two
    networks with the same buses, branches and shunts have the same
    outcome, result or exception, whatever their [base_mva]; the powers
    of a result are per-unit values. *)
Theorem solve_ignores_the_base_power (cfg : LoadFlow) (net : Network) :
  (forall net', same_grid net net' -> LoadFlow_solve cfg net' = LoadFlow_solve cfg net) /\
  (forall base,
     LoadFlow_solve cfg (mkNetwork (buses net) (branches net) (shunts net) base) =
     LoadFlow_solve cfg net).
Proof.
  assert (forall net', same_grid net net' ->
                       LoadFlow_solve cfg net' = LoadFlow_solve cfg net) as H.
  { intros net' Hg. unfold LoadFlow_solve. symmetry.
    apply (blind_solve cfg (frame net) (frame net')).
    unfold same_but_base, frame. cbn. auto 10. }
  split; [exact H|]. intros base. apply H. repeat split.
Qed.
